(** * OpenAI realtime log visualizer: the parsing core, embedded and verified

    Shallow embedding of the four transforms of [src/lib]:
    - [parse-log.ts]    : [parseLogLine], [parseLogFile]
    - [group-events.ts] : [aggregateDeltaEvents], [groupEvents],
                          [getDeltaGroupStats]
    - [audio-player.ts] : [decodeAudioDelta], [combineAudioChunks],
                          [extractAudioFromDeltaGroup]
    - [types.ts]        : the constant tables used by the above.

    Conventions of the embedding.
    - A JavaScript string is a [string]: one [ascii] per UTF-16 code unit, so
      the texts covered are those whose code units are below 256.
    - A value produced by [JSON.parse] is a [json]; the JavaScript value
      [undefined] is [None] in [option json].
    - A JavaScript exception is the [Throw] case of [Res].
    - [console.warn] is an explicit list of recorded calls.
    - Arrays are lists; an object that is mutated after it has been stored in
      an array (the current session of [parseLogFile]) is addressed by its
      index in that array. *)

From Stdlib Require Import ZArith QArith String Ascii List Lia Bool Arith.
From Stdlib Require Import DecimalString.
From stdpp Require Import base list.
Import ListNotations.

Set Warnings "-register-all".
Close Scope Q_scope.
Open Scope string_scope.
Open Scope list_scope.
Open Scope nat_scope.

(* ===================================================================== *)
(** * Host values: JSON documents, exceptions, property reads *)
(* ===================================================================== *)

Module Js.

(** A number literal of a JSON text is kept exactly, as [mantissa * 10^exponent].
    The code under study only stores numbers and tests them for zero. *)
Inductive json : Type :=
| JNull
| JBool (b : bool)
| JNum (mantissa exponent : Z)
| JStr (s : string)
| JArr (items : list json)
| JObj (fields : list (string * json)).

Inductive JsError : Type :=
| TypeError            (* property read on null *)
| RangeError           (* typed-array view over a buffer of the wrong size *)
| InvalidCharacterError (* atob on a string that is not base64 *).

Inductive Res (A : Type) : Type :=
| Ok (a : A)
| Throw (e : JsError).
Arguments Ok {A} a.
Arguments Throw {A} e.

Definition bind {A B : Type} (c : Res A) (k : A -> Res B) : Res B :=
  match c with
  | Ok a => k a
  | Throw e => Throw e
  end.

(** Own property of an object built by [JSON.parse]: first binding of the key. *)
Fixpoint assoc (k : string) (fields : list (string * json)) : option json :=
  match fields with
  | [] => None
  | (k', v) :: rest => if String.eqb k k' then Some v else assoc k rest
  end.

(** [v.k] for the property names read by this code base ([type], [delta],
    [transcript], [response], [session], ...): none of them is inherited from
    a prototype, so a primitive or an array answers [undefined]; reading a
    property of [null] throws. *)
Definition js_get (v : json) (k : string) : Res (option json) :=
  match v with
  | JNull => Throw TypeError
  | JObj fields => Ok (assoc k fields)
  | _ => Ok None
  end.

(** [v?.k] where [v] may be [undefined]. *)
Definition js_get_opt (v : option json) (k : string) : option json :=
  match v with
  | Some (JObj fields) => assoc k fields
  | _ => None
  end.

(** ToBoolean. *)
Definition truthy (v : option json) : bool :=
  match v with
  | None => false
  | Some JNull => false
  | Some (JBool b) => b
  | Some (JNum m _) => negb (m =? 0)%Z
  | Some (JStr s) => negb (String.eqb s "")
  | Some (JArr _) => true
  | Some (JObj _) => true
  end.

(** [a || b] with a defined right operand. *)
Definition js_or (a : option json) (b : json) : json :=
  match a with
  | Some v => if truthy a then v else b
  | None => b
  end.

(** [v === "lit"]. *)
Definition is_str (v : option json) (lit : string) : bool :=
  match v with
  | Some (JStr s) => String.eqb s lit
  | _ => false
  end.

End Js.
Export Js.

Notation "x <- c ;; k" := (Js.bind c (fun x => k))
  (at level 100, c at next level, right associativity).

(* ===================================================================== *)
(** * types.ts *)
(* ===================================================================== *)

Module Types.

(** Modelled from the spec: the type [LogSource], which [parse-log.ts] imports
    from [types.ts] and [types.ts] does not declare. The spec gives the source
    of a line as one of OPENAI and USER, normalized to upper case; it is kept
    as that upper-case text. *)
Definition LogSource : Type := string.
Definition OPENAI : LogSource := "OPENAI".
Definition USER : LogSource := "USER".

(** The record [parseLogLine] returns: the fields of [ParsedLogLine], and the
    [source] it sets. *)
Record ParsedLogLine : Type := {
  timestamp  : option string;
  sessionId  : option string;
  source     : option LogSource;
  event      : json;
  rawLine    : string;
  lineNumber : nat;
}.

Record Session : Type := {
  id          : string;
  s_sessionId : option json;
  startTime   : option string;
  s_events    : list ParsedLogLine;
  model       : option json;
  voice       : option json;
}.

Definition DELTA_EVENT_TYPES : list string :=
  [ "response.audio.delta";
    "response.audio_transcript.delta";
    "response.text.delta";
    "response.function_call_arguments.delta";
    "conversation.item.input_audio_transcription.delta" ].

(** The members of [PHASE_EVENTS]. *)
Definition SPEECH_START   : string := "input_audio_buffer.speech_started".
Definition SPEECH_STOP    : string := "input_audio_buffer.speech_stopped".
Definition RESPONSE_START : string := "response.created".
Definition FUNCTION_CALL  : string := "response.function_call_arguments.done".

End Types.
Export Types.

(* ===================================================================== *)
(** * group-events.ts *)
(* ===================================================================== *)

Module GroupEvents.

Inductive PhaseType : Type := speech | response | function_call.

Record PhaseMarker : Type := {
  pm_type       : PhaseType;
  pm_timestamp  : option string;
  pm_lineNumber : nat;
}.

Record DeltaGroup : Type := {
  eventType       : string;
  events          : list ParsedLogLine;
  firstLineNumber : nat;
  lastLineNumber  : nat;
}.

(** An element of [ResponseCycle.items]: [ParsedLogLine | DeltaGroup]. *)
Inductive Item : Type :=
| ItemEvent (e : ParsedLogLine)
| ItemGroup (g : DeltaGroup).

Record TokenUsage : Type := {
  input  : json;
  output : json;
  total  : json;
}.

Record ResponseCycle : Type := {
  responseId : option json;
  startEvent : ParsedLogLine;
  endEvent   : option ParsedLogLine;
  items      : list Item;
  tokenUsage : option TokenUsage;
}.

Inductive EventGroup : Type :=
| Phase (p : PhaseMarker)
| Cycle (c : ResponseCycle)
| Standalone (event : ParsedLogLine).

(** [DELTA_EVENT_TYPES.includes(type)] *)
Definition isDeltaEvent (type : string) : bool :=
  existsb (String.eqb type) DELTA_EVENT_TYPES.

(** ** aggregateDeltaEvents *)

(** The two locals of the loop: [result] and [currentGroup]. *)
Record AggState : Type := {
  a_result       : list Item;
  a_currentGroup : option DeltaGroup;
}.

(** [if (currentGroup) result.push(currentGroup)] *)
Definition pushGroup (result : list Item) (g : option DeltaGroup) : list Item :=
  match g with
  | Some g => result ++ [ItemGroup g]
  | None => result
  end.

Definition newGroup (ty : string) (event : ParsedLogLine) : DeltaGroup :=
  {| eventType := ty;
     events := [event];
     firstLineNumber := lineNumber event;
     lastLineNumber := lineNumber event |}.

(** The non-delta branch of the loop body. *)
Definition aggOther (st : AggState) (event : ParsedLogLine) : AggState :=
  {| a_result := pushGroup (a_result st) (a_currentGroup st) ++ [ItemEvent event];
     a_currentGroup := None |}.

(** The delta branch of the loop body, [ty] being the event's type. *)
Definition aggDelta (st : AggState) (ty : string) (event : ParsedLogLine) : AggState :=
  match a_currentGroup st with
  | Some g =>
      if String.eqb (eventType g) ty then
        {| a_result := a_result st;
           a_currentGroup :=
             Some {| eventType := eventType g;
                     events := events g ++ [event];
                     firstLineNumber := firstLineNumber g;
                     lastLineNumber := lineNumber event |} |}
      else
        {| a_result := a_result st ++ [ItemGroup g];
           a_currentGroup := Some (newGroup ty event) |}
  | None =>
      {| a_result := a_result st;
         a_currentGroup := Some (newGroup ty event) |}
  end.

(** One iteration of [for (const event of events)]. *)
Definition aggStep (st : AggState) (event : ParsedLogLine) : Res AggState :=
  eventType <- js_get (Types.event event) "type" ;;
  match eventType with
  | Some (JStr ty) =>
      if isDeltaEvent ty then Ok (aggDelta st ty event)
      else Ok (aggOther st event)
  | _ => Ok (aggOther st event)
  end.

Fixpoint aggLoop (st : AggState) (events : list ParsedLogLine) : Res AggState :=
  match events with
  | [] => Ok st
  | event :: rest => st' <- aggStep st event ;; aggLoop st' rest
  end.

Definition aggregateDeltaEvents (events : list ParsedLogLine) : Res (list Item) :=
  st <- aggLoop {| a_result := []; a_currentGroup := None |} events ;;
  Ok (pushGroup (a_result st) (a_currentGroup st)).

(** ** groupEvents *)

(** The three locals of [groupEvents]. *)
Record State : Type := {
  result       : list EventGroup;
  currentCycle : option ResponseCycle;
  cycleEvents  : list ParsedLogLine;
}.

Definition flushCycle (st : State) : Res State :=
  match currentCycle st with
  | Some c =>
      its <- aggregateDeltaEvents (cycleEvents st) ;;
      Ok {| result := result st ++
                      [Cycle {| responseId := responseId c;
                                startEvent := startEvent c;
                                endEvent := endEvent c;
                                items := its;
                                tokenUsage := tokenUsage c |}];
            currentCycle := None;
            cycleEvents := [] |}
  | None => Ok st
  end.

Definition phaseOf (ty : PhaseType) (event : ParsedLogLine) : EventGroup :=
  Phase {| pm_type := ty;
           pm_timestamp := timestamp event;
           pm_lineNumber := lineNumber event |}.

Definition pushResult (st : State) (gs : list EventGroup) : State :=
  {| result := result st ++ gs;
     currentCycle := currentCycle st;
     cycleEvents := cycleEvents st |}.

Definition pushCycleEvent (st : State) (event : ParsedLogLine) : State :=
  {| result := result st;
     currentCycle := currentCycle st;
     cycleEvents := cycleEvents st ++ [event] |}.

(** [usage.input_tokens || 0] and its two siblings, for a truthy [usage]. *)
Definition usageOf (usage : option json) : TokenUsage :=
  {| input  := js_or (js_get_opt usage "input_tokens")  (JNum 0 0);
     output := js_or (js_get_opt usage "output_tokens") (JNum 0 0);
     total  := js_or (js_get_opt usage "total_tokens")  (JNum 0 0) |}.

(** The body of [if (currentCycle) { ... }] for a done or cancelled marker:
    [c] is the open cycle, [isDone] tells whether the type is [response.done]. *)
Definition closeCycle (st : State) (c : ResponseCycle) (isDone : bool)
    (event : ParsedLogLine) : Res State :=
  let c1 := {| responseId := responseId c;
               startEvent := startEvent c;
               endEvent := Some event;
               items := items c;
               tokenUsage := tokenUsage c |} in
  let st1 := {| result := result st;
                currentCycle := Some c1;
                cycleEvents := cycleEvents st ++ [event] |} in
  if isDone then
    response <- js_get (Types.event event) "response" ;;
    let usage := js_get_opt response "usage" in
    if truthy usage then
      flushCycle {| result := result st1;
                    currentCycle :=
                      Some {| responseId := responseId c1;
                              startEvent := startEvent c1;
                              endEvent := endEvent c1;
                              items := items c1;
                              tokenUsage := Some (usageOf usage) |};
                    cycleEvents := cycleEvents st1 |}
    else flushCycle st1
  else flushCycle st1.

(** One iteration of the main loop. *)
Definition step (st : State) (event : ParsedLogLine) : Res State :=
  eventType <- js_get (Types.event event) "type" ;;
  if is_str eventType SPEECH_START then
    st1 <- flushCycle st ;;
    Ok (pushResult st1 [phaseOf speech event; Standalone event])
  else if is_str eventType RESPONSE_START then
    st1 <- flushCycle st ;;
    let st2 := pushResult st1 [phaseOf response event] in
    responseData <- js_get (Types.event event) "response" ;;
    Ok {| result := result st2;
          currentCycle :=
            Some {| responseId := js_get_opt responseData "id";
                    startEvent := event;
                    endEvent := None;
                    items := [];
                    tokenUsage := None |};
          cycleEvents := cycleEvents st2 ++ [event] |}
  else if is_str eventType "response.done" || is_str eventType "response.cancelled" then
    match currentCycle st with
    | Some c => closeCycle st c (is_str eventType "response.done") event
    | None => Ok (pushResult st [Standalone event])
    end
  else if is_str eventType FUNCTION_CALL then
    match currentCycle st with
    | Some _ => Ok (pushCycleEvent st event)
    | None => Ok (pushResult st [phaseOf function_call event; Standalone event])
    end
  else
    match currentCycle st with
    | Some _ => Ok (pushCycleEvent st event)
    | None => Ok (pushResult st [Standalone event])
    end.

Fixpoint loop (st : State) (events : list ParsedLogLine) : Res State :=
  match events with
  | [] => Ok st
  | event :: rest => st' <- step st event ;; loop st' rest
  end.

Definition initState : State :=
  {| result := []; currentCycle := None; cycleEvents := [] |}.

Definition groupEvents (events : list ParsedLogLine) : Res (list EventGroup) :=
  st <- loop initState events ;;
  st' <- flushCycle st ;;
  Ok (result st').

(** ** getDeltaGroupStats *)

Record Stats : Type := {
  count          : nat;
  aggregatedText : option string;
}.

(** [a || b] where [b] may be [undefined]. *)
Definition js_or_undef (a b : option json) : option json :=
  if truthy a then a else b.

(** The callback of [group.events.map]: [delta || transcript || ""]. *)
Definition memberText (e : ParsedLogLine) : Res json :=
  delta <- js_get (Types.event e) "delta" ;;
  transcript <- js_get (Types.event e) "transcript" ;;
  Ok (js_or (js_or_undef delta transcript) (JStr "")).

Fixpoint mapRes {A B : Type} (f : A -> Res B) (l : list A) : Res (list B) :=
  match l with
  | [] => Ok []
  | x :: rest => y <- f x ;; ys <- mapRes f rest ;; Ok (y :: ys)
  end.

Section Join.

(** The host conversion of a value that is not a string to a string (number
    formatting, [true], [[object Object]], ...). It throws on an object whose
    [toString] and [valueOf] give no primitive value, such as the object of
    the JSON text [{"toString":1}]. Left abstract: the results hold for every
    such conversion. *)
Variable ToString : json -> Res string.

(** What one element contributes to [Array.prototype.join]: [null] nothing, a
    string itself, any other value its conversion. *)
Definition joinText (v : json) : Res string :=
  match v with
  | JNull => Ok ""
  | JStr s => Ok s
  | _ => ToString v
  end.

(** [Array.prototype.join("")], the elements converted from left to right. *)
Definition joinEmpty (vs : list json) : Res string :=
  strs <- mapRes joinText vs ;;
  Ok (String.concat "" strs).

Definition isTextBearing (ty : string) : bool :=
  String.eqb ty "response.audio_transcript.delta"
  || String.eqb ty "response.text.delta"
  || String.eqb ty "conversation.item.input_audio_transcription.delta".

Definition getDeltaGroupStats (group : DeltaGroup) : Res Stats :=
  let count := length (events group) in
  if isTextBearing (eventType group) then
    texts <- mapRes memberText (events group) ;;
    text <- joinEmpty texts ;;
    Ok {| count := count; aggregatedText := Some text |}
  else Ok {| count := count; aggregatedText := None |}.

End Join.

End GroupEvents.

(* ===================================================================== *)
(** * Host string functions used by parse-log.ts *)
(* ===================================================================== *)

Module JsString.

Definition code (c : ascii) : nat := nat_of_ascii c.

(** [\d] *)
Definition is_digit (c : ascii) : bool :=
  (48 <=? code c) && (code c <=? 57).

(** [\s], and the characters removed by [trim]: TAB, LF, VT, FF, CR, SPACE and
    NO-BREAK SPACE are the members of that class below 256. *)
Definition is_space (c : ascii) : bool :=
  let n := code c in
  ((9 <=? n) && (n <=? 13)) || (n =? 32) || (n =? 160).

(** [[\d:.]] *)
Definition is_time_char (c : ascii) : bool :=
  is_digit c || (code c =? 58) || (code c =? 46).

(** [[a-f0-9-]] under the [i] flag *)
Definition is_tag_char (c : ascii) : bool :=
  let n := code c in
  is_digit c || ((97 <=? n) && (n <=? 102)) || ((65 <=? n) && (n <=? 70))
  || (n =? 45).

(** [toUpperCase] on one code unit. The code applies it to the text matched
    by [(OPENAI|USER)] only, which is made of the letters a-z and A-Z. *)
Definition upper (c : ascii) : ascii :=
  let n := code c in
  if (97 <=? n) && (n <=? 122) then ascii_of_nat (n - 32) else c.

Fixpoint toUpperCase (s : string) : string :=
  match s with
  | EmptyString => EmptyString
  | String c rest => String (upper c) (toUpperCase rest)
  end.

Fixpoint trimStart (s : string) : string :=
  match s with
  | EmptyString => EmptyString
  | String c rest => if is_space c then trimStart rest else s
  end.

Fixpoint trimEnd (s : string) : string :=
  match s with
  | EmptyString => EmptyString
  | String c rest =>
      match trimEnd rest with
      | EmptyString => if is_space c then EmptyString else String c EmptyString
      | r => String c r
      end
  end.

Definition trim (s : string) : string := trimEnd (trimStart s).

(** [s.slice(n)] for [0 <= n]. *)
Fixpoint sliceFrom (n : nat) (s : string) : string :=
  match n, s with
  | O, _ => s
  | S n', EmptyString => EmptyString
  | S n', String _ rest => sliceFrom n' rest
  end.

(** [s.slice(0, n)] for [0 <= n]. *)
Fixpoint sliceTo (n : nat) (s : string) : string :=
  match n, s with
  | O, _ => EmptyString
  | S n', EmptyString => EmptyString
  | S n', String c rest => String c (sliceTo n' rest)
  end.

(** Longest prefix whose characters satisfy [p], and what follows it: the
    greedy quantifiers [+] and [*] over a character class. *)
Fixpoint span (p : ascii -> bool) (s : string) : string * string :=
  match s with
  | EmptyString => (EmptyString, EmptyString)
  | String c rest =>
      if p c then let '(run, tl) := span p rest in (String c run, tl)
      else (EmptyString, s)
  end.

(** A literal character at the head of [s]. *)
Definition lit (c : ascii) (s : string) : option string :=
  match s with
  | String c' rest => if Ascii.eqb c c' then Some rest else None
  | EmptyString => None
  end.

(** Exactly [n] digits at the head of [s]: [\d{n}]. *)
Fixpoint digits (n : nat) (s : string) : option (string * string) :=
  match n with
  | O => Some (EmptyString, s)
  | S n' =>
      match s with
      | String c rest =>
          if is_digit c then
            match digits n' rest with
            | Some (ds, tl) => Some (String c ds, tl)
            | None => None
            end
          else None
      | EmptyString => None
      end
  end.

(** A literal word at the head of [s], compared under the [i] flag; returns the
    text as it stands in [s]. *)
Fixpoint word_ci (w : string) (s : string) : option (string * string) :=
  match w with
  | EmptyString => Some (EmptyString, s)
  | String a w' =>
      match s with
      | String c rest =>
          if Ascii.eqb (upper c) a then
            match word_ci w' rest with
            | Some (m, tl) => Some (String c m, tl)
            | None => None
            end
          else None
      | EmptyString => None
      end
  end.

(** The result of [s.match(re)] for the three anchored patterns below: the
    whole match [m[0]] and the first group [m[1]]. *)
Record Match : Type := { m0 : string; m1 : string }.

(** [/^(\d{4}-\d{2}-\d{2}T[\d:.]+Z?)\s*/]. Every quantifier is followed by
    something that cannot start inside its class or may be empty, so the
    greedy choice is the match. *)
Definition match_timestamp (s : string) : option Match :=
  match digits 4 s with
  | Some (y, s1) =>
  match lit "-" s1 with
  | Some s2 =>
  match digits 2 s2 with
  | Some (mo, s3) =>
  match lit "-" s3 with
  | Some s4 =>
  match digits 2 s4 with
  | Some (d, s5) =>
  match lit "T" s5 with
  | Some s6 =>
      let '(run, s7) := span is_time_char s6 in
      match run with
      | EmptyString => None
      | _ =>
          let '(z, s8) := match lit "Z" s7 with
                          | Some tl => ("Z", tl)
                          | None => ("", s7)
                          end in
          let '(ws, _) := span is_space s8 in
          let g := (y ++ "-" ++ mo ++ "-" ++ d ++ "T" ++ run ++ z)%string in
          Some {| m0 := (g ++ ws)%string; m1 := g |}
      end
  | None => None end
  | None => None end
  | None => None end
  | None => None end
  | None => None end
  | None => None end.

(** [/^\[([a-f0-9-]+)\]\s*/i] *)
Definition match_uuid (s : string) : option Match :=
  match lit "[" s with
  | Some s1 =>
      let '(run, s2) := span is_tag_char s1 in
      match run with
      | EmptyString => None
      | _ =>
          match lit "]" s2 with
          | Some s3 =>
              let '(ws, _) := span is_space s3 in
              Some {| m0 := ("[" ++ run ++ "]" ++ ws)%string; m1 := run |}
          | None => None
          end
      end
  | None => None
  end.

(** [/^\[(OPENAI|USER)\]\s*/i] *)
Definition match_source (s : string) : option Match :=
  match lit "[" s with
  | Some s1 =>
      let alt := match word_ci "OPENAI" s1 with
                 | Some r => Some r
                 | None => word_ci "USER" s1
                 end in
      match alt with
      | Some (w, s2) =>
          match lit "]" s2 with
          | Some s3 =>
              let '(ws, _) := span is_space s3 in
              Some {| m0 := ("[" ++ w ++ "]" ++ ws)%string; m1 := w |}
          | None => None
          end
      | None => None
      end
  | None => None
  end.

(** [content.split(/\r?\n/)] *)
Fixpoint splitLines (s : string) : list string :=
  match s with
  | EmptyString => [EmptyString]
  | String c rest =>
      let keep := match splitLines rest with
                  | l :: ls => String c l :: ls
                  | [] => [String c EmptyString]
                  end in
      if (code c =? 10) then EmptyString :: splitLines rest
      else if (code c =? 13) then
        match rest with
        | String c' rest' =>
            if (code c' =? 10) then EmptyString :: splitLines rest' else keep
        | EmptyString => keep
        end
      else keep
  end.

(** Decimal rendering of a non-negative integer, as in a template literal. *)
Definition decimal (n : nat) : string :=
  NilZero.string_of_uint (Nat.to_uint n).

End JsString.
Export JsString.

(* ===================================================================== *)
(** * parse-log.ts *)
(* ===================================================================== *)

Module ParseLog.

(** One recorded call of [console.warn]: its arguments. *)
Definition Warning : Type := list string.

(** What the three prefix steps of [parseLogLine] leave behind. *)
Record Prefix : Type := {
  p_timestamp : option string;
  p_sessionId : option string;
  p_source    : option LogSource;
  p_remaining : string;
}.

(** One prefix step: [const m = remaining.match(re); if (m) { field = m[1];
    remaining = remaining.slice(m[0].length) }]. *)
Definition tryPrefix (re : string -> option Match) (remaining : string)
  : option string * string :=
  match re remaining with
  | Some m => (Some (m1 m), sliceFrom (String.length (m0 m)) remaining)
  | None => (None, remaining)
  end.

Definition extractPrefix (trimmedLine : string) : Prefix :=
  let '(timestamp, remaining) := tryPrefix match_timestamp trimmedLine in
  let '(sessionId, remaining) := tryPrefix match_uuid remaining in
  let '(src, remaining) := tryPrefix match_source remaining in
  {| p_timestamp := timestamp;
     p_sessionId := sessionId;
     p_source := option_map toUpperCase src;
     p_remaining := remaining |}.

Definition warnJson (lineNumber : nat) (jsonStr : string) : Warning :=
  [ ("Failed to parse JSON at line " ++ decimal lineNumber ++ ":")%string;
    sliceTo 100 jsonStr ].

Section WithJSON.

(** [JSON.parse]: [None] when it throws a [SyntaxError]. *)
Variable JSON_parse : string -> option json.

(** The pair is what was written with [console.warn] and the value returned
    ([null] is [None]). *)
Definition parseLogLine (line : string) (lineNumber : nat)
  : list Warning * option ParsedLogLine :=
  let trimmedLine := trim line in
  if String.eqb trimmedLine "" then ([], None)
  else
    let pre := extractPrefix trimmedLine in
    let jsonStr := p_remaining pre in
    match JSON_parse jsonStr with
    | Some event =>
        ([], Some {| timestamp := p_timestamp pre;
                     sessionId := p_sessionId pre;
                     source := p_source pre;
                     event := event;
                     rawLine := line;
                     lineNumber := lineNumber |})
    | None => ([warnJson lineNumber jsonStr], None)
    end.

(** The locals of [parseLogFile]. [currentSession] is a reference to an
    element of [sessions]: its index. *)
Record PState : Type := {
  sessions       : list Session;
  currentSession : option nat;
  sessionCounter : nat;
  console        : list Warning;
}.

Definition sessionName (n : nat) : string := ("session-" ++ decimal n)%string.

Definition pushEvent (parsed : ParsedLogLine) (s : Session) : Session :=
  {| id := id s;
     s_sessionId := s_sessionId s;
     startTime := startTime s;
     s_events := s_events s ++ [parsed];
     model := model s;
     voice := voice s |}.

(** The part of the loop body that follows [if (!parsed) continue]. *)
Definition place (st : PState) (parsed : ParsedLogLine) : Res PState :=
  type <- js_get (event parsed) "type" ;;
  if is_str type "session.created" then
    let counter := S (sessionCounter st) in
    sessionData <- js_get (event parsed) "session" ;;
    Ok {| sessions := sessions st ++
                      [{| id := sessionName counter;
                          s_sessionId := js_get_opt sessionData "id";
                          startTime := timestamp parsed;
                          s_events := [parsed];
                          model := js_get_opt sessionData "model";
                          voice := js_get_opt sessionData "voice" |}];
          currentSession := Some (length (sessions st));
          sessionCounter := counter;
          console := console st |}
  else
    match currentSession st with
    | Some cur =>
        Ok {| sessions := alter (pushEvent parsed) cur (sessions st);
              currentSession := Some cur;
              sessionCounter := sessionCounter st;
              console := console st |}
    | None =>
        let counter := S (sessionCounter st) in
        Ok {| sessions := sessions st ++
                          [{| id := sessionName counter;
                              s_sessionId := None;
                              startTime := timestamp parsed;
                              s_events := [parsed];
                              model := None;
                              voice := None |}];
              currentSession := Some (length (sessions st));
              sessionCounter := counter;
              console := console st |}
    end.

(** One iteration of [for (let i = 0; i < lines.length; i++)]. *)
Definition lineStep (st : PState) (i : nat) (line : string) : Res PState :=
  let '(warned, parsed) := parseLogLine line (i + 1) in
  let st1 := {| sessions := sessions st;
                currentSession := currentSession st;
                sessionCounter := sessionCounter st;
                console := console st ++ warned |} in
  match parsed with
  | None => Ok st1
  | Some parsed => place st1 parsed
  end.

Fixpoint lineLoop (st : PState) (i : nat) (lines : list string) : Res PState :=
  match lines with
  | [] => Ok st
  | line :: rest => st' <- lineStep st i line ;; lineLoop st' (S i) rest
  end.

Definition initPState : PState :=
  {| sessions := []; currentSession := None; sessionCounter := 0; console := [] |}.

(** The sessions returned, or the exception that ends the call. *)
Definition parseLogFile (content : string) : Res (list Session) :=
  st <- lineLoop initPState 0 (splitLines content) ;;
  Ok (sessions st).

(** The warnings written during a call that returns. *)
Definition parseLogFileWarnings (content : string) : Res (list Warning) :=
  st <- lineLoop initPState 0 (splitLines content) ;;
  Ok (console st).

End WithJSON.

End ParseLog.

(* ===================================================================== *)
(** * A reference [JSON.parse] *)
(* ===================================================================== *)

(** The grammar of ECMA-404 as [JSON.parse] reads it, on the texts of this
    embedding. An escape [\uXXXX] denoting a code unit above 255 has no image
    in [string] and is refused. Recursion is on a fuel bounded by the length of
    the text.

    It is used at concrete texts only, in the examples; the general results
    on [parseLogLine] and [parseLogFile] take [JSON.parse] as a parameter.
    Away from those texts it is not the host function: besides the escapes
    above, a number is kept as written and never rounded to a double, so that
    [1e-400] stays different from zero where the host reads [0], and the
    fields of an object stay in the order of the text, where the host lists
    the keys that are array indices first. *)
Module JsonRef.

Definition is_json_ws (c : ascii) : bool :=
  let n := code c in (n =? 32) || (n =? 9) || (n =? 10) || (n =? 13).

Fixpoint skip_ws (s : string) : string :=
  match s with
  | String c rest => if is_json_ws c then skip_ws rest else s
  | EmptyString => s
  end.

Definition hex_val (c : ascii) : option nat :=
  let n := code c in
  if is_digit c then Some (n - 48)
  else if (97 <=? n) && (n <=? 102) then Some (n - 87)
  else if (65 <=? n) && (n <=? 70) then Some (n - 55)
  else None.

Definition hex4 (s : string) : option (nat * string) :=
  match s with
  | String a (String b (String c (String d rest))) =>
      match hex_val a, hex_val b, hex_val c, hex_val d with
      | Some x, Some y, Some z, Some w =>
          Some (((x * 16 + y) * 16 + z) * 16 + w, rest)
      | _, _, _, _ => None
      end
  | _ => None
  end.

(** An exact literal word at the head of [s]. *)
Fixpoint word_lit (w : string) (s : string) : option string :=
  match w with
  | EmptyString => Some s
  | String a w' =>
      match s with
      | String c rest => if Ascii.eqb a c then word_lit w' rest else None
      | EmptyString => None
      end
  end.

(** The characters of a string literal after its opening quote, up to and
    including the closing quote. *)
Fixpoint parse_chars (fuel : nat) (s : string) : option (string * string) :=
  match fuel with
  | O => None
  | S fuel' =>
      match s with
      | EmptyString => None
      | String c rest =>
          if code c =? 34 then Some (EmptyString, rest)
          else if code c <? 32 then None
          else if code c =? 92 then
            match rest with
            | String e rest' =>
                let cont (x : nat) (after : string) :=
                  match parse_chars fuel' after with
                  | Some (str, tl) => Some (String (ascii_of_nat x) str, tl)
                  | None => None
                  end in
                match code e with
                | 34 => cont 34 rest'
                | 92 => cont 92 rest'
                | 47 => cont 47 rest'
                | 98 => cont 8 rest'
                | 102 => cont 12 rest'
                | 110 => cont 10 rest'
                | 114 => cont 13 rest'
                | 116 => cont 9 rest'
                | 117 =>
                    match hex4 rest' with
                    | Some (x, after) => if x <? 256 then cont x after else None
                    | None => None
                    end
                | _ => None
                end
            | EmptyString => None
            end
          else
            match parse_chars fuel' rest with
            | Some (str, tl) => Some (String c str, tl)
            | None => None
            end
      end
  end.

Fixpoint digits_val (acc : Z) (s : string) : Z :=
  match s with
  | String c rest => digits_val (acc * 10 + Z.of_nat (code c - 48)) rest
  | EmptyString => acc
  end.

(** A number literal: an optional minus sign; an integer part that is a single
    0 or starts with a non-zero digit; an optional fraction of at least one
    digit; an optional exponent of at least one digit, with optional sign. *)
Definition parse_number (s : string) : option (json * string) :=
  let '(neg, s1) := match lit "-" s with
                    | Some tl => (true, tl)
                    | None => (false, s)
                    end in
  let '(ip, s2) := span is_digit s1 in
  let int_ok := match ip with
                | EmptyString => false
                | String c EmptyString => true
                | String c _ => negb (code c =? 48)
                end in
  if negb int_ok then None else
  let frac := match lit "." s2 with
              | Some tl =>
                  let '(fp, s3) := span is_digit tl in
                  match fp with
                  | EmptyString => None
                  | _ => Some (fp, s3)
                  end
              | None => Some (EmptyString, s2)
              end in
  match frac with
  | None => None
  | Some (fp, s3) =>
      let is_e := match s3 with
                  | String c tl => if (code c =? 101) || (code c =? 69) then Some tl else None
                  | EmptyString => None
                  end in
      let expo := match is_e with
                  | Some tl =>
                      let '(eneg, s4) :=
                        match tl with
                        | String c tl' =>
                            if code c =? 45 then (true, tl')
                            else if code c =? 43 then (false, tl')
                            else (false, tl)
                        | EmptyString => (false, tl)
                        end in
                      let '(ep, s5) := span is_digit s4 in
                      match ep with
                      | EmptyString => None
                      | _ => Some ((if eneg then - digits_val 0 ep else digits_val 0 ep)%Z, s5)
                      end
                  | None => Some (0%Z, s3)
                  end in
      match expo with
      | None => None
      | Some (e, s5) =>
          let m := digits_val 0 (ip ++ fp)%string in
          Some (JNum (if neg then - m else m)%Z (e - Z.of_nat (String.length fp))%Z, s5)
      end
  end.

(** [obj[k] = v] on the ordered list of own properties. *)
Fixpoint obj_set (k : string) (v : json) (fields : list (string * json))
  : list (string * json) :=
  match fields with
  | [] => [(k, v)]
  | (k', v') :: rest =>
      if String.eqb k k' then (k', v) :: rest else (k', v') :: obj_set k v rest
  end.

Fixpoint parse_value (fuel : nat) (s : string) : option (json * string) :=
  match fuel with
  | O => None
  | S fuel' =>
      match skip_ws s with
      | EmptyString => None
      | String c rest as s0 =>
          match code c with
          | 123 => (* { *)
              match skip_ws rest with
              | String c1 rest1 as s1 =>
                  if code c1 =? 125 then Some (JObj [], rest1)
                  else parse_members fuel' [] s1
              | EmptyString => None
              end
          | 91 => (* [ *)
              match skip_ws rest with
              | String c1 rest1 as s1 =>
                  if code c1 =? 93 then Some (JArr [], rest1)
                  else parse_elements fuel' [] s1
              | EmptyString => None
              end
          | 34 =>
              match parse_chars (String.length rest) rest with
              | Some (str, tl) => Some (JStr str, tl)
              | None => None
              end
          | 116 =>
              match word_lit "rue" rest with
              | Some tl => Some (JBool true, tl) | None => None end
          | 102 =>
              match word_lit "alse" rest with
              | Some tl => Some (JBool false, tl) | None => None end
          | 110 =>
              match word_lit "ull" rest with
              | Some tl => Some (JNull, tl) | None => None end
          | _ => parse_number s0
          end
      end
  end
with parse_elements (fuel : nat) (acc : list json) (s : string)
  : option (json * string) :=
  match fuel with
  | O => None
  | S fuel' =>
      match parse_value fuel' s with
      | Some (v, tl) =>
          match skip_ws tl with
          | String c rest =>
              if code c =? 44 then parse_elements fuel' (acc ++ [v]) rest
              else if code c =? 93 then Some (JArr (acc ++ [v]), rest)
              else None
          | EmptyString => None
          end
      | None => None
      end
  end
with parse_members (fuel : nat) (acc : list (string * json)) (s : string)
  : option (json * string) :=
  match fuel with
  | O => None
  | S fuel' =>
      match skip_ws s with
      | String q rest =>
          if code q =? 34 then
            match parse_chars (String.length rest) rest with
            | Some (k, tl) =>
                match skip_ws tl with
                | String colon tl1 =>
                    if code colon =? 58 then
                      match parse_value fuel' tl1 with
                      | Some (v, tl2) =>
                          match skip_ws tl2 with
                          | String c rest2 =>
                              if code c =? 44 then parse_members fuel' (obj_set k v acc) rest2
                              else if code c =? 125 then Some (JObj (obj_set k v acc), rest2)
                              else None
                          | EmptyString => None
                          end
                      | None => None
                      end
                    else None
                | EmptyString => None
                end
            | None => None
            end
          else None
      | EmptyString => None
      end
  end.

Definition JSON_parse (text : string) : option json :=
  match parse_value (2 * String.length text + 2) text with
  | Some (v, tl) =>
      match skip_ws tl with
      | EmptyString => Some v
      | _ => None
      end
  | None => None
  end.

End JsonRef.

(* ===================================================================== *)
(** * audio-player.ts *)
(* ===================================================================== *)

Module AudioPlayer.

(** ** The host functions [atob] and [Int16Array] *)

(** The characters [atob] strips before decoding: TAB, LF, FF, CR, SPACE. *)
Definition is_b64_ws (c : ascii) : bool :=
  let n := code c in
  (n =? 9) || (n =? 10) || (n =? 12) || (n =? 13) || (n =? 32).

(** Value of a character of the base64 alphabet. *)
Definition b64_val (c : ascii) : option Z :=
  let n := code c in
  if (65 <=? n) && (n <=? 90) then Some (Z.of_nat (n - 65))
  else if (97 <=? n) && (n <=? 122) then Some (Z.of_nat (n - 71))
  else if (48 <=? n) && (n <=? 57) then Some (Z.of_nat (n + 4))
  else if n =? 43 then Some 62%Z
  else if n =? 47 then Some 63%Z
  else None.

Fixpoint b64_vals (cs : list ascii) : option (list Z) :=
  match cs with
  | [] => Some []
  | c :: rest =>
      match b64_val c, b64_vals rest with
      | Some v, Some vs => Some (v :: vs)
      | _, _ => None
      end
  end.

(** Up to two trailing [=] are dropped from a text whose length is a multiple
    of four. *)
Definition strip_padding (cs : list ascii) : list ascii :=
  if length cs mod 4 =? 0 then
    match rev cs with
    | c1 :: r1 =>
        if Ascii.eqb c1 "=" then
          match r1 with
          | c2 :: r2 => if Ascii.eqb c2 "=" then rev r2 else rev r1
          | [] => rev r1
          end
        else cs
    | [] => cs
    end
  else cs.

(** Four 6-bit values give three bytes; a tail of three gives two bytes and a
    tail of two gives one, the bits left over being dropped. *)
Fixpoint b64_bytes (vs : list Z) : list Z :=
  match vs with
  | a :: b :: c :: d :: rest =>
      (a * 4 + b / 16)%Z
      :: ((b mod 16) * 16 + c / 4)%Z
      :: ((c mod 4) * 64 + d)%Z
      :: b64_bytes rest
  | [a; b; c] => [ (a * 4 + b / 16)%Z; ((b mod 16) * 16 + c / 4)%Z ]
  | [a; b] => [ (a * 4 + b / 16)%Z ]
  | _ => []
  end.

(** [atob]: the forgiving base64 decoding of the HTML standard. The result is
    the list of the char codes of the binary string, each in 0..255. *)
Definition atob (data : string) : Res (list Z) :=
  let cs := List.filter (fun c => negb (is_b64_ws c)) (list_ascii_of_string data) in
  let cs := strip_padding cs in
  if length cs mod 4 =? 1 then Throw InvalidCharacterError
  else
    match b64_vals cs with
    | Some vs => Ok (b64_bytes vs)
    | None => Throw InvalidCharacterError
    end.

(** A 16-bit pattern read as a signed integer. *)
Definition toInt16 (u : Z) : Z :=
  if (u <? 32768)%Z then u else (u - 65536)%Z.

(** The elements of [new Int16Array(buffer)] over the bytes of the buffer, low
    byte first (the byte order of the hosts this code runs on, and of the
    PCM16 format). *)
Fixpoint int16Pairs (bytes : list Z) : list Z :=
  match bytes with
  | lo :: hi :: rest => toInt16 (lo + 256 * hi)%Z :: int16Pairs rest
  | _ => []
  end.

(** [new Int16Array(bytes.buffer)]: a [RangeError] when the byte length is
    odd. *)
Definition Int16Array (bytes : list Z) : Res (list Z) :=
  if Nat.even (length bytes) then Ok (int16Pairs bytes) else Throw RangeError.

(** ** decodeAudioDelta *)

(** An element of a [Float32Array]. The only values stored are quotients of a
    16-bit integer by 32768, which binary32 represents exactly: they are kept
    as rationals. *)
Definition Float32Array : Type := list Q.

Definition decodeAudioDelta (base64 : string) : Res Float32Array :=
  bytes <- atob base64 ;;
  int16Array <- Int16Array bytes ;;
  Ok (map (fun s => (inject_Z s / 32768)%Q) int16Array).

(** ** combineAudioChunks *)

Definition combineAudioChunks (chunks : list Float32Array) : Float32Array :=
  match chunks with
  | [] => []
  | [chunk] => chunk
  | _ => concat chunks
  end.

(** ** extractAudioFromDeltaGroup *)

(** The two effects of the loop: the local [chunks] and the console. *)
Record XState : Type := {
  chunks   : list Float32Array;
  x_console : list (list string);
}.

Definition extractStep (st : XState) (evt : ParsedLogLine) : Res XState :=
  delta <- js_get (event evt) "delta" ;;
  match delta with
  | Some (JStr d) =>
      if 0 <? String.length d then
        match decodeAudioDelta d with
        | Ok decoded =>
            if 0 <? length decoded then
              Ok {| chunks := chunks st ++ [decoded]; x_console := x_console st |}
            else Ok st
        | Throw _ =>
            Ok {| chunks := chunks st;
                  x_console := x_console st ++ [["Failed to decode audio delta"]] |}
        end
      else Ok st
  | _ => Ok st
  end.

Fixpoint extractLoop (st : XState) (events : list ParsedLogLine) : Res XState :=
  match events with
  | [] => Ok st
  | evt :: rest => st' <- extractStep st evt ;; extractLoop st' rest
  end.

(** [None] is the [null] result. *)
Definition extractAudioFromDeltaGroup (events : list ParsedLogLine)
  : Res (option Float32Array) :=
  st <- extractLoop {| chunks := []; x_console := [] |} events ;;
  if length (chunks st) =? 0 then Ok None
  else Ok (Some (combineAudioChunks (chunks st))).

End AudioPlayer.

(* ===================================================================== *)
(** * The code around the four transforms

    The helpers of [parse-log.ts] ([getSessionStats], [isAudioDeltaEvent],
    [getSanitizedEventData]), the category table of [types.ts]
    ([getEventCategory]), [truncateString] of [lib/utils.ts], the merge loop of
    [combineAudioChunks], and the figures the components
    [ResponseCycleCard], [AudioDoneBlock] and [EventCard] compute from the
    output of the transforms. *)
(* ===================================================================== *)

(* ===================================================================== *)
(** * components/ResponseCycleCard.tsx and components/AudioDoneBlock.tsx:
      the figures computed from a cycle *)
(* ===================================================================== *)

Module CycleCard.

Import GroupEvents.

(** [isDeltaGroup]: the test [item.kind === "delta_group"] on an element of
    [cycle.items]; a [ParsedLogLine] has no [kind]. *)
Definition isDeltaGroup (item : Item) : bool :=
  match item with
  | ItemGroup _ => true
  | ItemEvent _ => false
  end.

(** [cycle.items.reduce((sum, item) => ..., 0)] *)
Definition totalEvents (cycle : ResponseCycle) : nat :=
  fold_left (fun sum item =>
               match item with
               | ItemGroup g => sum + length (events g)
               | ItemEvent _ => sum + 1
               end)
            (items cycle) 0.

(** [cycle.items.filter(isDeltaGroup).length] *)
Definition deltaGroupCount (cycle : ResponseCycle) : nat :=
  length (List.filter isDeltaGroup (items cycle)).

(** The groups handed to the audio block of a [response.audio.done] item:
    [cycle.items.filter(i => isDeltaGroup(i) && i.eventType ===
    "response.audio.delta")]. *)
Definition audioDeltaGroups (cycle : ResponseCycle) : list DeltaGroup :=
  flat_map (fun item =>
              match item with
              | ItemGroup g =>
                  if String.eqb (eventType g) "response.audio.delta" then [g]
                  else []
              | ItemEvent _ => []
              end)
           (items cycle).

(** [audioDeltaGroups.flatMap(group => group.events)] *)
Definition allAudioEvents (audioDeltaGroups : list DeltaGroup)
  : list ParsedLogLine :=
  flat_map events audioDeltaGroups.

(** [audioDeltaGroups.reduce((sum, group) => sum + group.events.length, 0)] *)
Definition totalChunks (audioDeltaGroups : list DeltaGroup) : nat :=
  fold_left (fun sum group => sum + length (events group)) audioDeltaGroups 0.

End CycleCard.

(* ===================================================================== *)
(** * A reference string conversion *)
(* ===================================================================== *)

(** The conversion of ECMAScript to a string, on the values [JSON.parse]
    builds, the formatting of numbers apart. A plain object converts to
    [[object Object]] through the [toString] it inherits; an own property
    named [toString] hides the inherited method, is not callable, and the
    conversion throws. An array converts to its elements joined by commas,
    [null] contributing nothing. *)
Module HostRef.

Section Numbers.

(** [Number.prototype.toString] on the number a literal denotes. *)
Variable formatNumber : Z -> Z -> string.

Fixpoint ToString (v : json) : Res string :=
  match v with
  | JNull => Ok "null"
  | JBool b => Ok (if b then "true" else "false")
  | JNum m x => Ok (formatNumber m x)
  | JStr s => Ok s
  | JArr items =>
      (fix join (l : list json) : Res string :=
         match l with
         | [] => Ok ""
         | v :: rest =>
             a <- match v with
                  | JNull => Ok ""
                  | _ => ToString v
                  end ;;
             match rest with
             | [] => Ok a
             | _ => b <- join rest ;; Ok (a ++ "," ++ b)%string
             end
         end) items
  | JObj fields =>
      match assoc "toString" fields with
      | Some _ => Throw TypeError
      | None => Ok "[object Object]"
      end
  end.

End Numbers.

(** Integers written without exponent, the only numbers of the samples. *)
Definition formatInteger (m x : Z) : string :=
  if (m <? 0)%Z then ("-" ++ decimal (Z.to_nat (- m)))%string
  else decimal (Z.to_nat m).

End HostRef.

(* ===================================================================== *)
(** * Plain objects used as tables *)
(* ===================================================================== *)

(** An object literal inherits from [Object.prototype]: reading a key that is
    not an own property answers the member of that name of the prototype, when
    there is one. *)
Module ObjectPrototype.

(** [Object.getOwnPropertyNames(Object.prototype)] *)
Definition MEMBERS : list string :=
  [ "constructor"; "__defineGetter__"; "__defineSetter__"; "hasOwnProperty";
    "__lookupGetter__"; "__lookupSetter__"; "isPrototypeOf";
    "propertyIsEnumerable"; "toString"; "valueOf"; "__proto__";
    "toLocaleString" ].

Definition inherited (k : string) : bool := existsb (String.eqb k) MEMBERS.

Section Keys.

(** The host conversion of a value that is not a string to a string; it
    throws on an object whose [toString] and [valueOf] give no primitive
    value. *)
Variable ToString : json -> Res string.

(** The property key a value denotes in [obj[v]], [v] being [undefined] or a
    value read from a JSON payload. The conversion of a value that is not a
    string can throw. *)
Definition keyOf (v : option json) : Res string :=
  match v with
  | None => Ok "undefined"
  | Some (JStr s) => Ok s
  | Some v => ToString v
  end.

End Keys.

End ObjectPrototype.

(* ===================================================================== *)
(** * types.ts: the category table *)
(* ===================================================================== *)

Module Categories.

Import ObjectPrototype.

(** [EventCategory] is a union of string literals: a category is its text. *)
Definition EventCategory : Type := string.

(** The members of the union. *)
Definition CATEGORIES : list EventCategory :=
  [ "session"; "error"; "conversation"; "audio_buffer"; "response_lifecycle";
    "response_output"; "response_content"; "response_audio"; "response_text";
    "function_call"; "rate_limits"; "unknown" ].

Definition EVENT_CATEGORIES : list (string * EventCategory) :=
  [ ("session.created", "session");
    ("session.updated", "session");
    ("error", "error");
    ("conversation.created", "conversation");
    ("conversation.item.created", "conversation");
    ("conversation.item.retrieved", "conversation");
    ("conversation.item.input_audio_transcription.delta", "conversation");
    ("conversation.item.input_audio_transcription.completed", "conversation");
    ("input_audio_buffer.committed", "audio_buffer");
    ("input_audio_buffer.cleared", "audio_buffer");
    ("input_audio_buffer.speech_started", "audio_buffer");
    ("input_audio_buffer.speech_stopped", "audio_buffer");
    ("response.created", "response_lifecycle");
    ("response.done", "response_lifecycle");
    ("response.cancelled", "response_lifecycle");
    ("response.output_item.added", "response_output");
    ("response.output_item.done", "response_output");
    ("response.content_part.added", "response_content");
    ("response.content_part.done", "response_content");
    ("response.audio.delta", "response_audio");
    ("response.audio.done", "response_audio");
    ("response.audio_transcript.delta", "response_audio");
    ("response.audio_transcript.done", "response_audio");
    ("response.text.delta", "response_text");
    ("response.text.done", "response_text");
    ("response.function_call_arguments.delta", "function_call");
    ("response.function_call_arguments.done", "function_call");
    ("rate_limits.updated", "rate_limits") ].

Fixpoint lookup {A : Type} (k : string) (table : list (string * A)) : option A :=
  match table with
  | [] => None
  | (k', v) :: rest => if String.eqb k k' then Some v else lookup k rest
  end.

(** What [getEventCategory] returns: a category, or, for a key that names a
    member of [Object.prototype], that member (a function or an object, which
    is truthy, so that the default is not taken). *)
Inductive Answer : Type :=
| Category (c : EventCategory)
| Member (name : string).

(** [EVENT_CATEGORIES[eventType] || "unknown"]; every category of the table
    is a non-empty string. *)
Definition getEventCategory (eventType : string) : Answer :=
  match lookup eventType EVENT_CATEGORIES with
  | Some c => if String.eqb c "" then Category "unknown" else Category c
  | None =>
      if inherited eventType then Member eventType else Category "unknown"
  end.

End Categories.

(* ===================================================================== *)
(** * components/EventCard.tsx: the side a card is shown on *)
(* ===================================================================== *)

Module EventCard.

Import ObjectPrototype Categories.

Section WithToString.

Variable ToString : json -> Res string.

(** [category === "user_input"] *)
Definition isCategory (a : Answer) (c : string) : bool :=
  match a with
  | Category c' => String.eqb c' c
  | Member _ => false
  end.

(** [const category = getEventCategory(event.event.type);
     const isUserEvent = event.source === "USER" || category === "user_input"] *)
Definition isUserEvent (event : ParsedLogLine) : Res bool :=
  type <- js_get (Types.event event) "type" ;;
  key <- keyOf ToString type ;;
  let category := getEventCategory key in
  Ok (match source event with
      | Some s => String.eqb s "USER"
      | None => false
      end
      || isCategory category "user_input").

End WithToString.

End EventCard.

(* ===================================================================== *)
(** * parse-log.ts: statistics and display helpers *)
(* ===================================================================== *)

Module SessionStats.

Import ObjectPrototype.

(** A value held by the [stats] object. The declared type is
    [Record<string, number>]; a key that names a member of [Object.prototype]
    gets a string. The object is kept as the list of its own properties in
    the order of their creation. *)
Inductive StatValue : Type :=
| SNum (n : nat)
| SStr (s : string).

Fixpoint own (k : string) (stats : list (string * StatValue)) : option StatValue :=
  match stats with
  | [] => None
  | (k', v) :: rest => if String.eqb k k' then Some v else own k rest
  end.

Fixpoint setOwn (k : string) (v : StatValue) (stats : list (string * StatValue))
  : list (string * StatValue) :=
  match stats with
  | [] => [(k, v)]
  | (k', v') :: rest =>
      if String.eqb k k' then (k', v) :: rest else (k', v') :: setOwn k v rest
  end.

Section WithHost.

Variable ToString : json -> Res string.

(** The string an inherited member of [Object.prototype] converts to in
    [member + 1]: the source text of a function, [[object Object]] for
    [__proto__]. *)
Variable memberText : string -> string.

(** [(stats[type] || 0) + 1] *)
Definition bump (stats : list (string * StatValue)) (k : string) : StatValue :=
  match own k stats with
  | Some (SNum n) => SNum (n + 1)
  | Some (SStr s) => if String.eqb s "" then SNum 1 else SStr (s ++ "1")
  | None => if inherited k then SStr (memberText k ++ "1") else SNum 1
  end.

(** [stats[type] = v]: the assignment goes to the setter of [__proto__] for
    that key, which ignores a value that is not an object; any other key
    becomes or stays an own property. *)
Definition assign (stats : list (string * StatValue)) (k : string) (v : StatValue)
  : list (string * StatValue) :=
  if String.eqb k "__proto__" then stats else setOwn k v stats.

(** One iteration of [for (const event of session.events)]. *)
Definition statsStep (stats : list (string * StatValue)) (event : ParsedLogLine)
  : Res (list (string * StatValue)) :=
  type <- js_get (Types.event event) "type" ;;
  k <- keyOf ToString type ;;
  Ok (assign stats k (bump stats k)).

Fixpoint statsLoop (stats : list (string * StatValue)) (events : list ParsedLogLine)
  : Res (list (string * StatValue)) :=
  match events with
  | [] => Ok stats
  | event :: rest => stats' <- statsStep stats event ;; statsLoop stats' rest
  end.

Definition getSessionStats (session : Session) : Res (list (string * StatValue)) :=
  statsLoop [] (s_events session).

End WithHost.

(** [event.type === "response.audio.delta"] *)
Definition isAudioDeltaEvent (event : json) : Res bool :=
  type <- js_get event "type" ;;
  Ok (is_str type "response.audio.delta").

(** The elements of an array or the code units of a string as properties
    named by their index. *)
Fixpoint indexed (i : nat) (vs : list json) : list (string * json) :=
  match vs with
  | [] => []
  | v :: rest => (decimal i, v) :: indexed (S i) rest
  end.

(** The own enumerable properties [{ ...event }] copies: the fields of an
    object, the elements of an array, the code units of a string, nothing for
    [null], a boolean or a number. *)
Definition spread (event : json) : list (string * json) :=
  match event with
  | JObj fields => fields
  | JArr items => indexed 0 items
  | JStr s =>
      indexed 0 (map (fun c => JStr (String c EmptyString)) (list_ascii_of_string s))
  | _ => []
  end.

(** A property written after the spread, in an object literal: it takes the
    place the key has, or comes last. *)
Fixpoint withField (k : string) (v : json) (fields : list (string * json))
  : list (string * json) :=
  match fields with
  | [] => [(k, v)]
  | (k', v') :: rest =>
      if String.eqb k k' then (k', v) :: rest else (k', v') :: withField k v rest
  end.

Definition getSanitizedEventData (event : json) : Res json :=
  audio <- isAudioDeltaEvent event ;;
  if audio then
    Ok (JObj (withField "delta" (JStr "[audio data hidden]") (spread event)))
  else Ok event.

End SessionStats.

(* ===================================================================== *)
(** * lib/utils.ts *)
(* ===================================================================== *)

Module Utils.

(** [str.slice(0, end)] for an integer [end]: a negative [end] counts from the
    end of the string. *)
Definition slice0 (str : string) (e : Z) : string :=
  let len := Z.of_nat (String.length str) in
  let to := if (e <? 0)%Z then Z.max (len + e) 0 else Z.min e len in
  sliceTo (Z.to_nat to) str.

(** [truncateString(str, maxLength)], [maxLength] being an integer. *)
Definition truncateString (str : string) (maxLength : Z) : string :=
  if (Z.of_nat (String.length str) <=? maxLength)%Z then str
  else (slice0 str maxLength ++ "...")%string.

End Utils.

(* ===================================================================== *)
(** * audio-player.ts: the merge loop of combineAudioChunks *)
(* ===================================================================== *)

(** [combineAudioChunks] as it is written, with the buffer it allocates and
    the writes at an offset. *)
Module AudioMerge.

Import AudioPlayer.

(** [combined.set(chunk, offset)]: the elements of [chunk] overwrite those of
    [combined] from [offset] on; a [RangeError] when they do not fit. *)
Definition setAt (combined chunk : Float32Array) (offset : nat)
  : Res Float32Array :=
  if offset + length chunk <=? length combined then
    Ok (firstn offset combined ++ chunk
        ++ skipn (offset + length chunk) combined)
  else Throw RangeError.

(** [for (const chunk of chunks) { combined.set(chunk, offset);
    offset += chunk.length }] *)
Fixpoint mergeLoop (combined : Float32Array) (offset : nat)
    (chunks : list Float32Array) : Res Float32Array :=
  match chunks with
  | [] => Ok combined
  | chunk :: rest =>
      combined' <- setAt combined chunk offset ;;
      mergeLoop combined' (offset + length chunk) rest
  end.

(** [chunks.reduce((sum, chunk) => sum + chunk.length, 0)] *)
Definition totalLength (chunks : list Float32Array) : nat :=
  fold_left (fun sum chunk => sum + length chunk) chunks 0.

(** [new Float32Array(n)]: [n] zeros. *)
Definition zeros (n : nat) : Float32Array := repeat 0%Q n.

Definition combineAudioChunks (chunks : list Float32Array) : Res Float32Array :=
  match chunks with
  | [] => Ok (zeros 0)
  | [chunk] => Ok chunk
  | _ => mergeLoop (zeros (totalLength chunks)) 0 chunks
  end.

End AudioMerge.

(* ===================================================================== *)
(** * Vocabulary of the properties *)
(* ===================================================================== *)

Module Props.

Import GroupEvents.

(** A decoded line carries an event record: its [event] is not [null]. *)
Definition isRecord (e : ParsedLogLine) : Prop := event e <> JNull.

(** The event of [e] has the string [ty] as its [type]. *)
Definition hasType (e : ParsedLogLine) (ty : string) : Prop :=
  js_get (event e) "type" = Ok (Some (JStr ty)).

(** The events an item stands for, in order. *)
Definition itemEvents (it : Item) : list ParsedLogLine :=
  match it with
  | ItemEvent e => [e]
  | ItemGroup g => events g
  end.

Definition flattenItems (its : list Item) : list ParsedLogLine :=
  concat (map itemEvents its).

(** The events a group stands for: a phase marker stands for none. *)
Definition groupMembers (g : EventGroup) : list ParsedLogLine :=
  match g with
  | Phase _ => []
  | Cycle c => flattenItems (items c)
  | Standalone e => [e]
  end.

Definition flatten (gs : list EventGroup) : list ParsedLogLine :=
  concat (map groupMembers gs).

(** The invariant of a [DeltaGroup], the contiguity apart. *)
Definition groupOk (g : DeltaGroup) : Prop :=
  events g <> []
  /\ Forall (fun e => hasType e (eventType g)) (events g)
  /\ option_map lineNumber (head (events g)) = Some (firstLineNumber g)
  /\ option_map lineNumber (last (events g)) = Some (lastLineNumber g).

(** The phase markers of an output, in order. *)
Definition phaseMarkers (gs : list EventGroup) : list PhaseMarker :=
  flat_map (fun g => match g with Phase p => [p] | _ => [] end) gs.

(** What the two locals of [aggregateDeltaEvents] stand for: the items pushed
    so far, then the open run. *)
Definition aggItems (st : AggState) : list Item :=
  pushGroup (a_result st) (a_currentGroup st).

(** The invariant of the pending buffer of [groupEvents]: it is empty unless a
    cycle is open, and it holds event records only. *)
Definition invBuf (st : State) : Prop :=
  (currentCycle st = None -> cycleEvents st = [])
  /\ Forall isRecord (cycleEvents st).

(** The invariant of the three locals: that of the buffer, and an open cycle
    has neither an end event nor a token usage yet. *)
Definition inv (st : State) : Prop :=
  invBuf st
  /\ (forall c, currentCycle st = Some c -> endEvent c = None /\ tokenUsage c = None).

(** The events placed so far: those of the emitted groups, then the pending
    buffer. *)
Definition placed (st : State) : list ParsedLogLine :=
  flatten (result st) ++ cycleEvents st.

(** Whether a cycle is open. *)
Definition isOpen (st : State) : bool :=
  match currentCycle st with
  | Some _ => true
  | None => false
  end.

Definition markerOf (ty : PhaseType) (e : ParsedLogLine) : PhaseMarker :=
  {| pm_type := ty; pm_timestamp := timestamp e; pm_lineNumber := lineNumber e |}.

(** The phase markers one event gives rise to, a cycle being open or not. *)
Definition markersOf (open : bool) (e : ParsedLogLine) : list PhaseMarker :=
  let ty := js_get_opt (Some (event e)) "type" in
  if is_str ty SPEECH_START then [markerOf speech e]
  else if is_str ty RESPONSE_START then [markerOf response e]
  else if is_str ty "response.done" || is_str ty "response.cancelled" then []
  else if is_str ty FUNCTION_CALL then
    if open then [] else [markerOf function_call e]
  else [].

(** Whether a cycle is open after one event. *)
Definition nextOpen (open : bool) (e : ParsedLogLine) : bool :=
  let ty := js_get_opt (Some (event e)) "type" in
  if is_str ty SPEECH_START then false
  else if is_str ty RESPONSE_START then true
  else if is_str ty "response.done" || is_str ty "response.cancelled" then false
  else open.

(** What one iteration of the loop of [groupEvents] establishes. *)
Definition stepPost (st : State) (e : ParsedLogLine) (st' : State) : Prop :=
  inv st'
  /\ placed st' = placed st ++ [e]
  /\ (exists gs, result st' = result st ++ gs)
  /\ phaseMarkers (result st') = phaseMarkers (result st) ++ markersOf (isOpen st) e
  /\ isOpen st' = nextOpen (isOpen st) e.

(** The nested usage object of a [response.done] payload. *)
Definition usageField (e : ParsedLogLine) : option json :=
  js_get_opt (js_get_opt (Some (event e)) "response") "usage".

(** The cycle pushed when [e] closes the open cycle [c] whose buffer
    aggregates to [its]. *)
Definition closedBy (c : ResponseCycle) (e : ParsedLogLine) (its : list Item)
  : ResponseCycle :=
  {| responseId := responseId c;
     startEvent := startEvent c;
     endEvent := Some e;
     items := its;
     tokenUsage := if truthy (usageField e) then Some (usageOf (usageField e))
                   else None |}.

(** A field of the token usage read from the value [v] of a sub-field of the
    usage object: the value itself when it is a non-zero number, 0 when the
    sub-field is missing (in general [v || 0]). *)
Definition defaultsToZero (v : option json) (out : json) : Prop :=
  out = js_or v (JNum 0 0)
  /\ (v = None -> out = JNum 0 0)
  /\ (forall m x, m <> 0%Z -> v = Some (JNum m x) -> out = JNum m x).

(** Every delta group among the items satisfies the group invariant. *)
Definition itemOk (it : Item) : Prop :=
  match it with
  | ItemGroup g => groupOk g
  | ItemEvent _ => True
  end.

(** A text field as the type [OpenAIEvent] declares it: a string, or absent. *)
Definition isTextField (v : option json) : Prop :=
  match v with
  | None => True
  | Some (JStr _) => True
  | Some _ => False
  end.

Definition fieldText (v : option json) : string :=
  match v with
  | Some (JStr s) => s
  | _ => EmptyString
  end.

(** The delta-or-transcript text of a member: its [delta] when that is a
    non-empty string, else its [transcript], else the empty string. *)
Definition memberTextField (e : ParsedLogLine) : string :=
  let d := fieldText (js_get_opt (Some (event e)) "delta") in
  if String.eqb d "" then fieldText (js_get_opt (Some (event e)) "transcript")
  else d.

(** Both text fields of a member are strings or absent. *)
Definition textual (e : ParsedLogLine) : Prop :=
  isTextField (js_get_opt (Some (event e)) "delta")
  /\ isTextField (js_get_opt (Some (event e)) "transcript").

(** The run of a delta type made of the given members. *)
Definition runOf (ty : string) (first last : ParsedLogLine)
    (members : list ParsedLogLine) : DeltaGroup :=
  {| eventType := ty;
     events := members;
     firstLineNumber := lineNumber first;
     lastLineNumber := lineNumber last |}.

End Props.

(** Sample events and buffers, on which the statements are instantiated. *)
Module Samples.

Definition line (n : nat) (ev : json) : ParsedLogLine :=
  {| timestamp := None; sessionId := None; source := None;
     event := ev; rawLine := EmptyString; lineNumber := n |}.

Definition typed (n : nat) (ty : string) : ParsedLogLine :=
  line n (JObj [("type", JStr ty)]).

Definition textDelta (n : nat) (d : string) : ParsedLogLine :=
  line n (JObj [("type", JStr "response.text.delta"); ("delta", JStr d)]).

Definition created (n : nat) : ParsedLogLine :=
  line n (JObj [("type", JStr "response.created");
                ("response", JObj [("id", JStr "resp_1")])]).

(** [response.done] with [usage: {input_tokens: 10, output_tokens: 20,
    total_tokens: 30}]. *)
Definition doneWithUsage (n : nat) : ParsedLogLine :=
  line n (JObj [("type", JStr "response.done");
                ("response",
                 JObj [("usage", JObj [("input_tokens", JNum 10 0);
                                       ("output_tokens", JNum 20 0);
                                       ("total_tokens", JNum 30 0)])])]).

(** A response cycle: start marker, three events, done marker. *)
Definition cyclePrefix : list ParsedLogLine :=
  [ created 1;
    typed 2 "response.output_item.added";
    textDelta 3 "Hel";
    textDelta 4 "lo" ].

Definition fiveDeltas : list ParsedLogLine :=
  [ textDelta 2 "The "; textDelta 3 "quick "; textDelta 4 "brown ";
    textDelta 5 "fox "; textDelta 6 "jumps" ].

End Samples.

(** The line grammar of the log format:
    [line := [timestamp] ["[" session_tag "]"] ["[" ("OPENAI"|"USER") "]"] json_payload],
    [timestamp := YYYY-MM-DDTHH:MM:SS(.fff)?Z?], [session_tag := [0-9a-f-]+]
    (case-insensitive), whitespace being allowed between the tokens. *)
Module LineGrammar.

Definition all (p : ascii -> bool) (s : string) : bool :=
  forallb p (list_ascii_of_string s).

(** Exactly [n] decimal digits. *)
Definition digitsN (n : nat) (s : string) : Prop :=
  String.length s = n /\ all is_digit s = true.

Record TimestampParts : Type := {
  ts_year     : string;
  ts_month    : string;
  ts_day      : string;
  ts_hour     : string;
  ts_minute   : string;
  ts_second   : string;
  ts_fraction : option string;
  ts_zulu     : bool;
}.

Definition validTimestamp (t : TimestampParts) : Prop :=
  digitsN 4 (ts_year t) /\ digitsN 2 (ts_month t) /\ digitsN 2 (ts_day t)
  /\ digitsN 2 (ts_hour t) /\ digitsN 2 (ts_minute t) /\ digitsN 2 (ts_second t)
  /\ match ts_fraction t with
     | Some f => f <> EmptyString /\ all is_digit f = true
     | None => True
     end.

(** The part of the token after the [T], the [Z] apart. *)
Definition timeText (t : TimestampParts) : string :=
  (ts_hour t ++ ":" ++ ts_minute t ++ ":" ++ ts_second t
   ++ match ts_fraction t with Some f => "." ++ f | None => "" end)%string.

Definition timestampText (t : TimestampParts) : string :=
  (ts_year t ++ "-" ++ ts_month t ++ "-" ++ ts_day t ++ "T" ++ timeText t
   ++ (if ts_zulu t then "Z" else ""))%string.

Definition validTag (tag : string) : Prop :=
  tag <> EmptyString /\ all is_tag_char tag = true.

Definition validSource (w : string) : Prop :=
  toUpperCase w = "OPENAI" \/ toUpperCase w = "USER".

Definition isBlank (ws : string) : Prop := all is_space ws = true.

(** A payload as the grammar has it: the text of a JSON object, with no
    whitespace after it. *)
Definition validPayload (p : string) : Prop :=
  (exists rest, p = String "{" rest) /\ trimEnd p = p.

(** An optional token followed by the whitespace after it. *)
Definition tokenText (tok : option string) (ws : string) : string :=
  match tok with
  | Some t => (t ++ ws)%string
  | None => EmptyString
  end.

Definition bracketed (tok : option string) : option string :=
  option_map (fun t => ("[" ++ t ++ "]")%string) tok.

(** The line made of the optional tokens, each followed by whitespace, and
    the payload, with whitespace around. *)
Definition lineText (ws0 : string)
    (ts : option TimestampParts) (ws1 : string)
    (tag : option string) (ws2 : string)
    (src : option string) (ws3 : string)
    (payload ws4 : string) : string :=
  (ws0 ++ tokenText (option_map timestampText ts) ws1
       ++ tokenText (bracketed tag) ws2
       ++ tokenText (bracketed src) ws3
       ++ payload ++ ws4)%string.

Definition validOpt {A : Type} (P : A -> Prop) (o : option A) : Prop :=
  match o with
  | Some a => P a
  | None => True
  end.

(** The first character of [s], if any, is outside the class [p]. *)
Definition headOut (p : ascii -> bool) (s : string) : Prop :=
  match s with
  | String c _ => p c = false
  | EmptyString => True
  end.

(** The text starts with an opening bracket or brace. *)
Definition opens (s : string) : Prop :=
  exists r, s = String "[" r \/ s = String "{" r.

(** What a prefix step consumed: the whole match, or nothing. *)
Definition consumed (m : option Match) : string :=
  match m with
  | Some m => m0 m
  | None => EmptyString
  end.

(** Double quotes written as apostrophes, to spell JSON texts. *)
Fixpoint dq (s : string) : string :=
  match s with
  | EmptyString => EmptyString
  | String c rest =>
      String (if Ascii.eqb c "'" then ascii_of_nat 34 else c) (dq rest)
  end.

End LineGrammar.

(** Vocabulary of the session segmenter. *)
Module Segments.

Import ParseLog.

(** The line feed, and a text made of lines. *)
Definition LF : string := String (ascii_of_nat 10) EmptyString.

Definition unlines (ls : list string) : string := String.concat LF ls.

(** The lines of a text that decode, in order, numbered from [i + 1]. *)
Fixpoint decodedFrom (JSON_parse : string -> option json) (i : nat)
    (lines : list string) : list ParsedLogLine :=
  match lines with
  | [] => []
  | l :: rest =>
      match snd (parseLogLine JSON_parse l (i + 1)) with
      | Some parsed => parsed :: decodedFrom JSON_parse (S i) rest
      | None => decodedFrom JSON_parse (S i) rest
      end
  end.

Definition decodedLines (JSON_parse : string -> option json) (content : string)
  : list ParsedLogLine :=
  decodedFrom JSON_parse 0 (splitLines content).

(** All the events of a list of sessions, in order. *)
Definition allEvents (ss : list Session) : list ParsedLogLine :=
  concat (map s_events ss).

(** The line numbers of a list of lines increase strictly and exceed [i]. *)
Fixpoint increasingFrom (i : nat) (ls : list ParsedLogLine) : Prop :=
  match ls with
  | [] => True
  | l :: rest => i < lineNumber l /\ increasingFrom (lineNumber l) rest
  end.

(** The invariant of [parseLogFile]: the current session is the last one
    pushed. *)
Definition currentIsLast (st : PState) : Prop :=
  match currentSession st with
  | Some cur => S cur = length (sessions st)
  | None => sessions st = []
  end.

End Segments.

(** Vocabulary of the audio codec. *)
Module Pcm.

Import AudioPlayer.

(** A 16-bit signed sample. *)
Definition isInt16 (s : Z) : Prop := (-32768 <= s <= 32767)%Z.

(** The two bytes of a sample, low byte first (two's complement). *)
Definition int16Bytes (s : Z) : list Z :=
  let u := (s mod 65536)%Z in [ (u mod 256)%Z; (u / 256)%Z ].

Definition pcm16Bytes (samples : list Z) : list Z :=
  concat (map int16Bytes samples).

(** The float a sample is normalized to. *)
Definition normalized (s : Z) : Q := (inject_Z s / 32768)%Q.

Definition inUnitRange (q : Q) : Prop := (-1 <= q)%Q /\ (q <= 1)%Q.

(** The delta payload of an event when it is a non-empty string. *)
Definition deltaOf (e : ParsedLogLine) : option string :=
  match js_get_opt (Some (event e)) "delta" with
  | Some (JStr d) => if String.eqb d EmptyString then None else Some d
  | _ => None
  end.

(** The chunks that decode, among the events with a non-empty delta payload
    string, in input order. *)
Fixpoint decodedChunks (events : list ParsedLogLine) : list Float32Array :=
  match events with
  | [] => []
  | e :: rest =>
      match deltaOf e with
      | Some d =>
          match decodeAudioDelta d with
          | Ok chunk => chunk :: decodedChunks rest
          | Throw _ => decodedChunks rest
          end
      | None => decodedChunks rest
      end
  end.

Definition nonEmpty (chunk : Float32Array) : bool := 0 <? length chunk.

(** An audio delta event with the given payload. *)
Definition audioDelta (n : nat) (d : string) : ParsedLogLine :=
  {| timestamp := None; sessionId := None; source := None;
     event := JObj [("type", JStr "response.audio.delta"); ("delta", JStr d)];
     rawLine := EmptyString; lineNumber := n |}.

(** Standard base64 with padding, the encoding [atob] reads. *)
Definition b64_char (v : Z) : ascii :=
  let n := Z.to_nat v in
  if n <? 26 then ascii_of_nat (n + 65)
  else if n <? 52 then ascii_of_nat (n + 71)
  else if n <? 62 then ascii_of_nat (n - 4)
  else if n =? 62 then "+"%char
  else "/"%char.

(** The 6-bit values of the bytes: three bytes give four values, a tail of
    two gives three and a tail of one gives two. *)
Fixpoint sextets (bytes : list Z) : list Z :=
  match bytes with
  | a :: b :: c :: rest =>
      (a / 4)%Z :: ((a mod 4) * 16 + b / 16)%Z
      :: ((b mod 16) * 4 + c / 64)%Z :: (c mod 64)%Z :: sextets rest
  | [a; b] => [ (a / 4)%Z; ((a mod 4) * 16 + b / 16)%Z; ((b mod 16) * 4)%Z ]
  | [a] => [ (a / 4)%Z; ((a mod 4) * 16)%Z ]
  | [] => []
  end.

Definition padding (bytes : list Z) : list ascii :=
  match length bytes mod 3 with
  | 1 => [ "="%char; "="%char ]
  | 2 => [ "="%char ]
  | _ => []
  end.

Definition b64_encode (bytes : list Z) : list ascii :=
  map b64_char (sextets bytes) ++ padding bytes.

Definition btoa (bytes : list Z) : string :=
  string_of_list_ascii (b64_encode bytes).

Definition isByte (b : Z) : Prop := (0 <= b < 256)%Z.

Definition isSextet (v : Z) : Prop := (0 <= v < 64)%Z.

End Pcm.

(** A statement about one character, decided on each of the 256. *)
Ltac by_cases_on_ascii c :=
  destruct c as [[] [] [] [] [] [] [] []]; vm_compute; congruence.

(* ===================================================================== *)
(** * Vocabulary of the further properties *)
(* ===================================================================== *)

Module Shape.

Import GroupEvents Props.

(** The [type] of an event record, [undefined] when it has none. *)
Definition typeOf (e : ParsedLogLine) : option json :=
  js_get_opt (Some (event e)) "type".

(** [event.event.type === ty] *)
Definition typeIs (e : ParsedLogLine) (ty : string) : bool :=
  is_str (typeOf e) ty.

(** The type of the event is one of the five delta types. *)
Definition isDelta (e : ParsedLogLine) : bool :=
  match typeOf e with
  | Some (JStr ty) => isDeltaEvent ty
  | _ => false
  end.

(** The runs of an item list are maximal: no delta event stands alone, every
    group is of a delta type, and two neighbouring groups differ in type. *)
Definition maximalRuns (its : list Item) : Prop :=
  (forall e, In (ItemEvent e) its -> isDelta e = false)
  /\ (forall g, In (ItemGroup g) its -> isDeltaEvent (eventType g) = true)
  /\ (forall a g1 g2 b,
        its = a ++ ItemGroup g1 :: ItemGroup g2 :: b ->
        eventType g1 <> eventType g2).

(** The invariant of the two locals: the items they stand for have maximal
    runs, and with no run open the last item pushed is not a group. *)
Definition aggMax (st : AggState) : Prop :=
  maximalRuns (aggItems st)
  /\ (a_currentGroup st = None ->
      forall r g, a_result st <> r ++ [ItemGroup g]).

(** [response.done] or [response.cancelled]. *)
Definition isEnd (e : ParsedLogLine) : bool :=
  typeIs e "response.done" || typeIs e "response.cancelled".

(** An event that neither opens nor closes anything: not a speech start, not
    a response start, not a done or cancelled marker. *)
Definition isInner (e : ParsedLogLine) : bool :=
  negb (typeIs e SPEECH_START) && negb (typeIs e RESPONSE_START) && negb (isEnd e).

(** The locals with no cycle open. *)
Definition closedState (r : list EventGroup) : State :=
  {| result := r; currentCycle := None; cycleEvents := [] |}.

(** The cycle [c] as [flushCycle] pushes it, [its] being the aggregated
    buffer. *)
Definition withItems (c : ResponseCycle) (its : list Item) : ResponseCycle :=
  {| responseId := responseId c;
     startEvent := startEvent c;
     endEvent := endEvent c;
     items := its;
     tokenUsage := tokenUsage c |}.

(** [result] once the open cycle, if any, is pushed with the items [its]. *)
Definition emitted (st : State) (its : list Item) : list EventGroup :=
  match currentCycle st with
  | Some c => result st ++ [Cycle (withItems c its)]
  | None => result st
  end.

(** The cycle a [response.created] event opens. *)
Definition openedBy (e : ParsedLogLine) : ResponseCycle :=
  {| responseId := js_get_opt (js_get_opt (Some (event e)) "response") "id";
     startEvent := e;
     endEvent := None;
     items := [];
     tokenUsage := None |}.

(** The token usage a closing event gives its cycle: that of the payload of a
    [response.done] whose [response.usage] is truthy, none otherwise. *)
Definition usageAt (e : ParsedLogLine) : option TokenUsage :=
  if typeIs e "response.done" && truthy (usageField e)
  then Some (usageOf (usageField e))
  else None.

(** The cycle pushed when the done or cancelled marker [e] closes the open
    cycle [c] whose buffer, [e] included, aggregates to [its]. *)
Definition endedBy (c : ResponseCycle) (e : ParsedLogLine) (its : list Item)
  : ResponseCycle :=
  {| responseId := responseId c;
     startEvent := startEvent c;
     endEvent := Some e;
     items := its;
     tokenUsage := usageAt e |}.

(** The seven ways one iteration of the loop of [groupEvents] goes, by the
    type of the event and by whether a cycle is open. *)
Inductive stepCase (st : State) (e : ParsedLogLine) (st' : State) : Prop :=
| SpeechStart (its : list Item) :
    typeIs e SPEECH_START = true ->
    aggregateDeltaEvents (cycleEvents st) = Ok its ->
    st' = closedState (emitted st its ++ [phaseOf speech e; Standalone e]) ->
    stepCase st e st'
| ResponseStart (its : list Item) :
    typeIs e SPEECH_START = false ->
    typeIs e RESPONSE_START = true ->
    aggregateDeltaEvents (cycleEvents st) = Ok its ->
    st' = {| result := emitted st its ++ [phaseOf response e];
             currentCycle := Some (openedBy e);
             cycleEvents := [e] |} ->
    stepCase st e st'
| CycleEnd (c : ResponseCycle) (its : list Item) :
    typeIs e SPEECH_START = false ->
    typeIs e RESPONSE_START = false ->
    isEnd e = true ->
    currentCycle st = Some c ->
    aggregateDeltaEvents (cycleEvents st ++ [e]) = Ok its ->
    st' = closedState (result st ++ [Cycle (endedBy c e its)]) ->
    stepCase st e st'
| OrphanEnd :
    typeIs e SPEECH_START = false ->
    typeIs e RESPONSE_START = false ->
    isEnd e = true ->
    currentCycle st = None ->
    st' = closedState (result st ++ [Standalone e]) ->
    stepCase st e st'
| InCycle (c : ResponseCycle) :
    isInner e = true ->
    currentCycle st = Some c ->
    st' = pushCycleEvent st e ->
    stepCase st e st'
| CallOutside :
    isInner e = true ->
    typeIs e FUNCTION_CALL = true ->
    currentCycle st = None ->
    st' = closedState (result st ++ [phaseOf function_call e; Standalone e]) ->
    stepCase st e st'
| Outside :
    isInner e = true ->
    typeIs e FUNCTION_CALL = false ->
    currentCycle st = None ->
    st' = closedState (result st ++ [Standalone e]) ->
    stepCase st e st'.

(** The shape of a cycle of the output: it starts with its
    [response.created] event, whose [response.id] it carries; then come
    events that open and close nothing; then its done or cancelled marker, if
    it has one, which alone decides the token usage. Its items are these
    events with their delta runs aggregated. *)
Definition cycleOk (c : ResponseCycle) : Prop :=
  typeIs (startEvent c) RESPONSE_START = true
  /\ responseId c
     = js_get_opt (js_get_opt (Some (event (startEvent c))) "response") "id"
  /\ aggregateDeltaEvents (flattenItems (items c)) = Ok (items c)
  /\ (exists inner,
        Forall (fun e => isInner e = true) inner
        /\ flattenItems (items c)
           = startEvent c :: inner
             ++ match endEvent c with Some e => [e] | None => [] end)
  /\ match endEvent c with
     | Some e => isEnd e = true /\ tokenUsage c = usageAt e
     | None => tokenUsage c = None
     end.

(** What holds of each group of the output: a cycle has the shape above, and
    a standalone event is not a response start. *)
Definition groupWf (g : EventGroup) : Prop :=
  match g with
  | Cycle c => cycleOk c
  | Standalone e => typeIs e RESPONSE_START = false
  | Phase _ => True
  end.

(** Every cycle comes right after the phase marker of its start event. *)
Definition markerBefore (gs : list EventGroup) : Prop :=
  forall a c b,
    gs = a ++ Cycle c :: b ->
    exists a', a = a' ++ [phaseOf response (startEvent c)].

(** What holds of the locals while a cycle is open: the cycle is as its start
    event opened it, the buffer holds that event and then events that open
    and close nothing, and the last group pushed is the marker of the start
    event. *)
Definition openOk (st : State) : Prop :=
  match currentCycle st with
  | Some c =>
      c = openedBy (startEvent c)
      /\ typeIs (startEvent c) RESPONSE_START = true
      /\ (exists inner,
            cycleEvents st = startEvent c :: inner
            /\ Forall (fun e => isInner e = true) inner)
      /\ exists r, result st = r ++ [phaseOf response (startEvent c)]
  | None => True
  end.

Definition shape (st : State) : Prop :=
  Forall groupWf (result st) /\ markerBefore (result st) /\ openOk st.

(** The cycles of an output, in order. *)
Definition cyclesOf (gs : list EventGroup) : list ResponseCycle :=
  flat_map (fun g => match g with Cycle c => [c] | _ => [] end) gs.

(** The start events of the cycles pushed so far and of the open one. *)
Definition starts (st : State) : list ParsedLogLine :=
  map startEvent (cyclesOf (result st))
  ++ match currentCycle st with Some c => [startEvent c] | None => [] end.

(** The phase markers of a run of events, a cycle being open or not at its
    start. *)
Fixpoint markersRun (open : bool) (events : list ParsedLogLine)
  : list PhaseMarker :=
  match events with
  | [] => []
  | e :: rest => markersOf open e ++ markersRun (nextOpen open e) rest
  end.

(** The marker a speech start or a response start gives rise to. *)
Definition startMarker (e : ParsedLogLine) : list PhaseMarker :=
  if typeIs e SPEECH_START then [markerOf speech e]
  else if typeIs e RESPONSE_START then [markerOf response e]
  else [].

Definition isCallMarker (p : PhaseMarker) : bool :=
  match pm_type p with
  | function_call => true
  | _ => false
  end.

(** The number of events a group of the output shows: the total of a cycle
    card, one for a standalone event, none for a phase marker. *)
Definition shownEvents (g : EventGroup) : nat :=
  match g with
  | Cycle c => CycleCard.totalEvents c
  | Standalone _ => 1
  | Phase _ => 0
  end.

End Shape.

Module SessionShape.

Import ParseLog Segments Shape.

(** The decoded line is a [session.created] event. *)
Definition isCreated (e : ParsedLogLine) : bool := typeIs e "session.created".

(** The nested [session] object of a [session.created] payload. *)
Definition sessionField (e : ParsedLogLine) : option json :=
  js_get_opt (Some (event e)) "session".

(** The shape of the [k]-th session returned, counted from 1: its id is
    [session-k]; it is not empty, and no event after the first is a
    [session.created] event; its start time is the timestamp of its first
    event; when that event is a [session.created] event the id, the model and
    the voice are read from its [session] object; otherwise the session is the
    first one, and has none of the three. *)
Definition sessionOk (k : nat) (s : Session) : Prop :=
  id s = sessionName k
  /\ exists e rest,
       s_events s = e :: rest
       /\ Forall (fun x => isCreated x = false) rest
       /\ startTime s = timestamp e
       /\ if isCreated e then
            s_sessionId s = js_get_opt (sessionField e) "id"
            /\ model s = js_get_opt (sessionField e) "model"
            /\ voice s = js_get_opt (sessionField e) "voice"
          else
            k = 1 /\ s_sessionId s = None /\ model s = None /\ voice s = None.

(** The sessions of a list have the shape above, the first being the [k]-th. *)
Fixpoint sessionsOk (k : nat) (ss : list Session) : Prop :=
  match ss with
  | [] => True
  | s :: rest => sessionOk k s /\ sessionsOk (S k) rest
  end.

(** The invariant of the locals of [parseLogFile]. *)
Definition pinv (st : PState) : Prop :=
  currentIsLast st
  /\ sessionCounter st = length (sessions st)
  /\ sessionsOk 1 (sessions st).

(** The warnings of a list of lines, numbered from [i + 1]. *)
Fixpoint warningsFrom (JSON_parse : string -> option json) (i : nat)
    (lines : list string) : list Warning :=
  match lines with
  | [] => []
  | l :: rest =>
      fst (parseLogLine JSON_parse l (i + 1))
      ++ warningsFrom JSON_parse (S i) rest
  end.

(** The fields of a decoded line other than [rawLine]. *)
Definition decodedFields (p : ParsedLogLine)
  : option string * option string * option LogSource * json * nat :=
  (timestamp p, sessionId p, source p, event p, lineNumber p).

(** A blank line: empty once trimmed. *)
Definition isBlankLine (l : string) : bool := String.eqb (trim l) "".

(** The carriage return, and a text whose lines end in CR LF. *)
Definition CR : string := String (ascii_of_nat 13) EmptyString.

Definition unlinesCRLF (ls : list string) : string :=
  String.concat (CR ++ LF)%string ls.

(** A line holds no line break character. *)
Fixpoint noBreak (l : string) : bool :=
  match l with
  | EmptyString => true
  | String c rest => negb ((code c =? 10) || (code c =? 13)) && noBreak rest
  end.

End SessionShape.

(** Sample log texts. *)
Module LogSamples.

Import LineGrammar Segments.

(** Two lines before the first start marker, one of them blank; a session of
    four events; a line that is not JSON; a second session of two events. *)
Definition sampleLines : list string :=
  [ dq "{'type':'rate_limits.updated'}";
    "   ";
    dq "2024-01-15T10:30:00.000Z [abc-123] {'type':'session.created','session':{'id':'s1','model':'gpt-x'}}";
    dq "{'type':'response.created','response':{'id':'r1'}}";
    dq "{'type':'response.audio.delta','delta':'AEAAwA=='}";
    dq "{'type':'response.done'}";
    "not json";
    dq "{'type':'session.created','session':{'id':'s2','voice':'alloy'}}";
    dq "[USER] {'type':'conversation.item.created'}" ]%string.

Definition sampleLog : string := unlines sampleLines.

End LogSamples.

Module StatsShape.

Import GroupEvents Props ObjectPrototype SessionStats Shape.

(** The keys the types of the events denote, in order. The conversion of a
    type that is not a string can throw; the first throw is the outcome. *)
Definition keysOf (ToString : json -> Res string) (events : list ParsedLogLine)
  : Res (list string) :=
  mapRes (fun e => keyOf ToString (typeOf e)) events.

(** The number of occurrences of the key [k] in a list of keys. *)
Definition countIn (k : string) (keys : list string) : nat :=
  length (List.filter (String.eqb k) keys).

(** The events whose type is [{"toString": 1}], an object that converts to no
    string, and [42]. *)
Definition oddType (n : nat) : ParsedLogLine :=
  Samples.line n (JObj [("type", JObj [("toString", JNum 1 0)])]).

Definition numberType (n : nat) : ParsedLogLine :=
  Samples.line n (JObj [("type", JNum 42 0)]).

(** A text delta whose [delta] is an object that converts to no string. *)
Definition oddDelta (n : nat) : ParsedLogLine :=
  Samples.line n (JObj [("type", JStr "response.text.delta");
                        ("delta", JObj [("toString", JNum 1 0)])]).

(** [n] times the digit 1. *)
Fixpoint ones (n : nat) : string :=
  match n with
  | O => EmptyString
  | S n' => (ones n' ++ "1")%string
  end.

(** What the [stats] object holds under the key [k] once [n] events of that
    key have been counted. *)
Definition held (memberText : string -> string) (k : string) (n : nat)
  : option StatValue :=
  if n =? 0 then None
  else if inherited k then
    if String.eqb k "__proto__" then None
    else Some (SStr (memberText k ++ ones n)%string)
  else Some (SNum n).

(** The hidden-payload text. *)
Definition HIDDEN : json := JStr "[audio data hidden]".

(** The own properties of a payload that is an object. *)
Definition fieldsOf (event : json) : list (string * json) :=
  match event with
  | JObj fields => fields
  | _ => []
  end.

(** The payload is an audio delta event. *)
Definition isAudio (event : json) : bool :=
  is_str (js_get_opt (Some event) "type") "response.audio.delta".

(** A session made of the given events. *)
Definition sessionOf (events : list ParsedLogLine) : Session :=
  {| id := "session-1"; s_sessionId := None; startTime := None;
     s_events := events; model := None; voice := None |}.

(** A line tagged [USER]. *)
Definition userLine : ParsedLogLine :=
  {| timestamp := None; sessionId := None; source := Some USER;
     event := JObj [("type", JStr "conversation.item.created")];
     rawLine := EmptyString; lineNumber := 1 |}.

(** The source text of a native function, as the usual hosts print it. *)
Definition nativeText (name : string) : string :=
  ("function " ++ name ++ "() { [native code] }")%string.

(** The text of the members of [Object.prototype] on such a host. *)
Definition memberTextSample (k : string) : string :=
  if String.eqb k "constructor" then nativeText "Object"
  else if String.eqb k "__proto__" then "[object Object]"
  else nativeText k.

End StatsShape.

Module AudioShape.

(** A sample is below 1 once normalized, and not below -1. *)
Definition inHalfOpenRange (q : Q) : Prop := (-1 <= q)%Q /\ (q < 1)%Q.

End AudioShape.

(* ===================================================================== *)
(** * Properties of group-events.ts *)
(* ===================================================================== *)

Module GroupEventsFacts.

Import GroupEvents Props.

(** ** Property reads *)

#[local] Arguments js_get_opt : simpl never.

Lemma js_get_record (e : ParsedLogLine) (k : string) :
  isRecord e -> js_get (event e) k = Ok (js_get_opt (Some (event e)) k).
Proof.
  unfold isRecord, js_get, js_get_opt. destruct (event e); congruence.
Qed.

Lemma hasType_record (e : ParsedLogLine) (ty : string) :
  hasType e ty -> isRecord e.
Proof.
  unfold hasType, isRecord. destruct (event e); simpl; congruence.
Qed.

Lemma js_get_ok_record (e : ParsedLogLine) (k : string) (v : option json) :
  js_get (event e) k = Ok v -> isRecord e.
Proof.
  unfold isRecord. destruct (event e); simpl; congruence.
Qed.

Lemma flattenItems_app (a b : list Item) :
  flattenItems (a ++ b) = flattenItems a ++ flattenItems b.
Proof. unfold flattenItems. now rewrite map_app, concat_app. Qed.

Lemma flatten_app (a b : list EventGroup) :
  flatten (a ++ b) = flatten a ++ flatten b.
Proof. unfold flatten. now rewrite map_app, concat_app. Qed.

(** ** The loop of aggregateDeltaEvents *)

Lemma flattenItems_pushGroup (r : list Item) (g : option DeltaGroup) :
  flattenItems (pushGroup r g)
  = flattenItems r ++ match g with Some g => events g | None => [] end.
Proof.
  destruct g; simpl.
  - rewrite flattenItems_app. unfold flattenItems. simpl. now rewrite app_nil_r.
  - now rewrite app_nil_r.
Qed.

Lemma aggOther_flat (st : AggState) (e : ParsedLogLine) :
  flattenItems (aggItems (aggOther st e)) = flattenItems (aggItems st) ++ [e].
Proof.
  unfold aggItems, aggOther. simpl.
  rewrite flattenItems_app. reflexivity.
Qed.

Lemma aggDelta_flat (st : AggState) (ty : string) (e : ParsedLogLine) :
  flattenItems (aggItems (aggDelta st ty e)) = flattenItems (aggItems st) ++ [e].
Proof.
  unfold aggItems, aggDelta.
  destruct (a_currentGroup st) as [g|] eqn:Hg;
    [destruct (String.eqb (eventType g) ty)|];
    simpl; rewrite ?flattenItems_app; unfold flattenItems; simpl;
    rewrite ?app_nil_r, <- ?app_assoc; reflexivity.
Qed.

(** The body of the loop is one of its two branches. *)
Lemma aggStep_cases (st st' : AggState) (e : ParsedLogLine) :
  aggStep st e = Ok st' ->
  st' = aggOther st e
  \/ exists ty, hasType e ty /\ isDeltaEvent ty = true /\ st' = aggDelta st ty e.
Proof.
  unfold aggStep, hasType.
  destruct (js_get (event e) "type") as [[v|]|] eqn:Hty; simpl; try congruence.
  - destruct v as [| b | m x | s | l | f]; try (intros [= <-]; now left).
    destruct (isDeltaEvent s) eqn:Hd; intros [= <-].
    + right. exists s. auto.
    + now left.
  - intros [= <-]. now left.
Qed.

Lemma aggStep_total (st : AggState) (e : ParsedLogLine) :
  isRecord e -> exists st', aggStep st e = Ok st'.
Proof.
  intros He. unfold aggStep. rewrite (js_get_record e "type" He). simpl.
  destruct (js_get_opt (Some (event e)) "type") as [[| b | m x | s | l | f]|];
    eauto.
  destruct (isDeltaEvent s); eauto.
Qed.

Lemma aggStep_delta (st : AggState) (e : ParsedLogLine) (ty : string) :
  hasType e ty -> isDeltaEvent ty = true -> aggStep st e = Ok (aggDelta st ty e).
Proof.
  unfold aggStep, hasType. intros -> Hd. simpl. now rewrite Hd.
Qed.

Lemma aggStep_other (st : AggState) (e : ParsedLogLine) (ty : string) :
  hasType e ty -> isDeltaEvent ty = false -> aggStep st e = Ok (aggOther st e).
Proof.
  unfold aggStep, hasType. intros -> Hd. simpl. now rewrite Hd.
Qed.

Lemma aggStep_flat (st st' : AggState) (e : ParsedLogLine) :
  aggStep st e = Ok st' ->
  flattenItems (aggItems st') = flattenItems (aggItems st) ++ [e].
Proof.
  intros H. destruct (aggStep_cases _ _ _ H) as [-> | (ty & _ & _ & ->)].
  - apply aggOther_flat.
  - apply aggDelta_flat.
Qed.

Lemma aggLoop_app (st : AggState) (l1 l2 : list ParsedLogLine) :
  aggLoop st (l1 ++ l2) = (st' <- aggLoop st l1 ;; aggLoop st' l2).
Proof.
  revert st. induction l1 as [|e l1 IH]; intros st; simpl; [reflexivity|].
  destruct (aggStep st e); simpl; auto.
Qed.

Lemma aggLoop_flat (events : list ParsedLogLine) (st st' : AggState) :
  aggLoop st events = Ok st' ->
  flattenItems (aggItems st') = flattenItems (aggItems st) ++ events.
Proof.
  revert st. induction events as [|e rest IH]; intros st; simpl.
  - intros [= <-]. now rewrite app_nil_r.
  - destruct (aggStep st e) as [st1|] eqn:H1; simpl; [|discriminate].
    intros H. rewrite (IH _ H), (aggStep_flat _ _ _ H1), <- app_assoc.
    reflexivity.
Qed.

Lemma aggLoop_total (events : list ParsedLogLine) (st : AggState) :
  Forall isRecord events -> exists st', aggLoop st events = Ok st'.
Proof.
  revert st. induction events as [|e rest IH]; intros st Hall; simpl.
  - eauto.
  - inversion Hall as [|? ? He Hrest]; subst.
    destruct (aggStep_total st e He) as [st1 ->]. simpl. auto.
Qed.

Lemma aggLoop_records (events : list ParsedLogLine) (st st' : AggState) :
  aggLoop st events = Ok st' -> Forall isRecord events.
Proof.
  revert st. induction events as [|e rest IH]; intros st; simpl; [constructor|].
  destruct (aggStep st e) as [st1|] eqn:H1; simpl; [|discriminate].
  intros H. constructor; [|eauto].
  unfold aggStep in H1.
  destruct (js_get (event e) "type") eqn:Hty; [|discriminate].
  eapply js_get_ok_record; eauto.
Qed.

Lemma aggregate_flat (events : list ParsedLogLine) (its : list Item) :
  aggregateDeltaEvents events = Ok its -> flattenItems its = events.
Proof.
  unfold aggregateDeltaEvents.
  destruct (aggLoop _ events) as [st|] eqn:H; simpl; [|discriminate].
  intros [= <-]. apply aggLoop_flat in H. exact H.
Qed.

Lemma aggregate_total (events : list ParsedLogLine) :
  Forall isRecord events -> exists its, aggregateDeltaEvents events = Ok its.
Proof.
  intros Hall. unfold aggregateDeltaEvents.
  destruct (aggLoop_total events {| a_result := []; a_currentGroup := None |} Hall)
    as [st ->].
  simpl. eauto.
Qed.

(** ** The invariant of the delta groups *)

Lemma groupOk_new (ty : string) (e : ParsedLogLine) :
  hasType e ty -> groupOk (newGroup ty e).
Proof.
  intros H. unfold groupOk, newGroup. simpl.
  repeat split; [discriminate | now constructor].
Qed.

Lemma groupOk_snoc (g : DeltaGroup) (e : ParsedLogLine) :
  groupOk g -> hasType e (eventType g) ->
  groupOk {| eventType := eventType g;
             events := events g ++ [e];
             firstLineNumber := firstLineNumber g;
             lastLineNumber := lineNumber e |}.
Proof.
  intros (Hne & Hty & Hfst & _) He. unfold groupOk. simpl.
  split; [|split; [|split]].
  - destruct (events g); discriminate.
  - apply Forall_app. split; [exact Hty|]. now constructor.
  - destruct (events g); [congruence|exact Hfst].
  - now rewrite last_snoc.
Qed.

Lemma aggOther_ok (st : AggState) (e : ParsedLogLine) :
  Forall itemOk (aggItems st) -> Forall itemOk (aggItems (aggOther st e)).
Proof.
  intros H. unfold aggItems, aggOther. simpl. apply Forall_app.
  split; [exact H|]. now repeat constructor.
Qed.

Lemma aggDelta_ok (st : AggState) (ty : string) (e : ParsedLogLine) :
  hasType e ty ->
  Forall itemOk (aggItems st) -> Forall itemOk (aggItems (aggDelta st ty e)).
Proof.
  intros He. unfold aggItems, aggDelta.
  destruct (a_currentGroup st) as [g|] eqn:Hg; simpl.
  - intros H. apply Forall_app in H as [Hr Hgok].
    inversion Hgok as [|? ? Hgk _]; subst. simpl in Hgk.
    destruct (String.eqb (eventType g) ty) eqn:Heq; simpl.
    + apply String.eqb_eq in Heq. subst ty.
      apply Forall_app. split; [exact Hr|].
      constructor; [|constructor]. now apply groupOk_snoc.
    + apply Forall_app. split.
      * apply Forall_app. split; [exact Hr|]. constructor; [exact Hgk|constructor].
      * constructor; [|constructor]. now apply groupOk_new.
  - intros H. apply Forall_app. split; [exact H|].
    constructor; [|constructor]. now apply groupOk_new.
Qed.

Lemma aggLoop_ok (buffer : list ParsedLogLine) (st st' : AggState) :
  Forall itemOk (aggItems st) -> aggLoop st buffer = Ok st' ->
  Forall itemOk (aggItems st').
Proof.
  revert st. induction buffer as [|e rest IH]; intros st Hok; simpl.
  - now intros [= <-].
  - destruct (aggStep st e) as [st1|] eqn:H1; simpl; [|discriminate].
    apply IH. destruct (aggStep_cases _ _ _ H1) as [-> | (ty & Hty & _ & ->)].
    + now apply aggOther_ok.
    + now apply aggDelta_ok.
Qed.

Lemma aggregate_ok (buffer : list ParsedLogLine) (its : list Item) :
  aggregateDeltaEvents buffer = Ok its -> Forall itemOk its.
Proof.
  unfold aggregateDeltaEvents.
  destruct (aggLoop _ buffer) as [st|] eqn:H; simpl; [|discriminate].
  intros [= <-]. eapply (aggLoop_ok buffer); [|exact H]. constructor.
Qed.

(** The items already pushed do not influence the rest of the loop. *)
Lemma aggStep_frame (r r0 : list Item) (c : option DeltaGroup)
    (e : ParsedLogLine) (st' : AggState) :
  aggStep {| a_result := r0; a_currentGroup := c |} e = Ok st' ->
  aggStep {| a_result := r ++ r0; a_currentGroup := c |} e
  = Ok {| a_result := r ++ a_result st'; a_currentGroup := a_currentGroup st' |}.
Proof.
  unfold aggStep. destruct (js_get (event e) "type") as [ty|]; simpl; [|discriminate].
  assert (Ho : aggOther {| a_result := r ++ r0; a_currentGroup := c |} e
               = {| a_result := r ++ a_result (aggOther {| a_result := r0; a_currentGroup := c |} e);
                    a_currentGroup := None |}).
  { unfold aggOther. simpl. f_equal. destruct c; simpl; now rewrite <- ?app_assoc. }
  destruct ty as [[| b | m x | s | l | f]|]; try (intros [= <-]; now rewrite Ho).
  destruct (isDeltaEvent s); intros [= <-]; [|now rewrite Ho].
  unfold aggDelta. simpl. destruct c as [g|]; simpl; [|reflexivity].
  destruct (String.eqb (eventType g) s); simpl; [reflexivity|].
  now rewrite <- app_assoc.
Qed.

Lemma aggLoop_frame (buffer : list ParsedLogLine) (r r0 : list Item)
    (c : option DeltaGroup) (st' : AggState) :
  aggLoop {| a_result := r0; a_currentGroup := c |} buffer = Ok st' ->
  aggLoop {| a_result := r ++ r0; a_currentGroup := c |} buffer
  = Ok {| a_result := r ++ a_result st'; a_currentGroup := a_currentGroup st' |}.
Proof.
  revert r0 c. induction buffer as [|e rest IH]; intros r0 c; simpl.
  - now intros [= <-].
  - destruct (aggStep {| a_result := r0; a_currentGroup := c |} e) as [st1|] eqn:H1;
      simpl; [|discriminate].
    rewrite (aggStep_frame r _ _ _ _ H1). simpl. destruct st1 as [r1 c1]. simpl.
    apply IH.
Qed.

(** ** The loop of groupEvents *)

Lemma inv_closed (r : list EventGroup) :
  inv {| result := r; currentCycle := None; cycleEvents := [] |}.
Proof. repeat split; simpl; auto; discriminate. Qed.

Lemma inv_init : inv initState.
Proof. apply inv_closed. Qed.

Lemma phaseMarkers_app (a b : list EventGroup) :
  phaseMarkers (a ++ b) = phaseMarkers a ++ phaseMarkers b.
Proof. unfold phaseMarkers. apply flat_map_app. Qed.

Lemma flushCycle_spec (st : State) :
  invBuf st ->
  exists st',
    flushCycle st = Ok st'
    /\ currentCycle st' = None /\ cycleEvents st' = []
    /\ flatten (result st') = placed st
    /\ phaseMarkers (result st') = phaseMarkers (result st)
    /\ exists gs, result st' = result st ++ gs.
Proof.
  intros (Hnone & Hrec). unfold flushCycle, placed.
  destruct (currentCycle st) as [c|] eqn:Hc.
  - destruct (aggregate_total _ Hrec) as [its Hits]. rewrite Hits. simpl.
    eexists. split; [reflexivity|]. simpl. repeat split.
    + rewrite flatten_app. unfold flatten at 2. simpl.
      now rewrite app_nil_r, (aggregate_flat _ _ Hits).
    + rewrite phaseMarkers_app. simpl. now rewrite app_nil_r.
    + eauto.
  - exists st. rewrite (Hnone eq_refl), app_nil_r. repeat split; auto.
    exists []. now rewrite app_nil_r.
Qed.

Lemma flushCycle_closed (st st' : State) :
  invBuf st -> flushCycle st = Ok st' ->
  st' = {| result := result st'; currentCycle := None; cycleEvents := [] |}.
Proof.
  intros Hinv H. destruct (flushCycle_spec st Hinv) as (st1 & H1 & Hc & He & _).
  rewrite H in H1. injection H1 as <-.
  destruct st' as [r c ce]. simpl in *. now subst.
Qed.

(** One iteration returns, keeps the invariant, places the event it reads,
    and only appends to [result]. *)
Lemma step_spec (st : State) (e : ParsedLogLine) :
  inv st -> isRecord e ->
  exists st', step st e = Ok st' /\ stepPost st e st'.
Proof.
  intros [Hbuf Hfresh] He. unfold step, stepPost, markersOf, nextOpen, isOpen.
  rewrite (js_get_record e "type" He). simpl.
  set (ty := js_get_opt (Some (event e)) "type").
  destruct (flushCycle_spec st Hbuf)
    as (st1 & Hfl & Hc1 & Hce1 & Hflat1 & Hpm1 & gs1 & Hgs1).
  destruct (is_str ty SPEECH_START).
  { rewrite Hfl. simpl. eexists. split; [reflexivity|].
    unfold pushResult, placed. simpl. rewrite Hc1, Hce1.
    split; [apply inv_closed|]. repeat split.
    - rewrite flatten_app, Hflat1, app_nil_r. reflexivity.
    - exists (gs1 ++ [phaseOf speech e; Standalone e]).
      now rewrite Hgs1, app_assoc.
    - now rewrite phaseMarkers_app, Hpm1. }
  destruct (is_str ty RESPONSE_START).
  { rewrite Hfl. simpl. rewrite (js_get_record e "response" He). simpl.
    eexists. split; [reflexivity|]. unfold placed. simpl. rewrite Hce1. simpl.
    split; [|repeat split].
    - split; [split|]; simpl.
      + discriminate.
      + now constructor.
      + intros c' [= <-]. simpl. auto.
    - rewrite flatten_app, Hflat1. unfold flatten at 2. simpl.
      now rewrite app_nil_r.
    - exists (gs1 ++ [phaseOf response e]). now rewrite Hgs1, app_assoc.
    - now rewrite phaseMarkers_app, Hpm1. }
  assert (Hout : cycleEvents st = [] -> currentCycle st = None ->
    forall gs ms, phaseMarkers gs = ms -> flatten gs = [e] ->
    inv (pushResult st gs)
    /\ placed (pushResult st gs) = placed st ++ [e]
    /\ (exists gs0, result (pushResult st gs) = result st ++ gs0)
    /\ phaseMarkers (result (pushResult st gs)) = phaseMarkers (result st) ++ ms
    /\ match currentCycle (pushResult st gs) with Some _ => true | None => false end
       = false).
  { intros Hce Hc gs ms Hpm Hfg. unfold pushResult, placed. simpl. rewrite Hce, Hc.
    split; [apply inv_closed|]. repeat split; eauto.
    - now rewrite flatten_app, Hfg, !app_nil_r.
    - now rewrite phaseMarkers_app, Hpm. }
  destruct (is_str ty "response.done" || is_str ty "response.cancelled").
  { destruct (currentCycle st) as [c|] eqn:Hc.
    - unfold closeCycle.
      assert (Hclose : forall c', exists st',
        flushCycle {| result := result st; currentCycle := Some c';
                      cycleEvents := cycleEvents st ++ [e] |} = Ok st'
        /\ inv st' /\ placed st' = placed st ++ [e]
        /\ (exists gs, result st' = result st ++ gs)
        /\ phaseMarkers (result st') = phaseMarkers (result st) ++ []
        /\ match currentCycle st' with Some _ => true | None => false end = false).
      { intros c'.
        set (s2 := {| result := result st; currentCycle := Some c';
                      cycleEvents := cycleEvents st ++ [e] |}).
        assert (Hb2 : invBuf s2).
        { split; simpl; [discriminate|]. apply Forall_app. split; [apply Hbuf|].
          now constructor. }
        destruct (flushCycle_spec s2 Hb2)
          as (s3 & H3 & Hc3 & Hce3 & Hflat3 & Hpm3 & Hgs3).
        exists s3. split; [exact H3|]. split.
        - rewrite (flushCycle_closed _ _ Hb2 H3). apply inv_closed.
        - repeat split.
          + unfold placed at 1. rewrite Hflat3, Hce3, app_nil_r.
            unfold placed. simpl. now rewrite app_assoc.
          + exact Hgs3.
          + now rewrite Hpm3, app_nil_r.
          + now rewrite Hc3. }
      destruct (is_str ty "response.done"); [|apply Hclose].
      rewrite (js_get_record e "response" He). simpl.
      destruct (truthy _); apply Hclose.
    - eexists. split; [reflexivity|]. apply Hout; auto. now apply Hbuf. }
  assert (Hreg :
    exists st',
      match currentCycle st with
      | Some _ => Ok (pushCycleEvent st e)
      | None => Ok (pushResult st [Standalone e])
      end = Ok st' /\ inv st'
      /\ placed st' = placed st ++ [e]
      /\ (exists gs, result st' = result st ++ gs)
      /\ phaseMarkers (result st') = phaseMarkers (result st) ++ []
      /\ match currentCycle st' with Some _ => true | None => false end
         = match currentCycle st with Some _ => true | None => false end).
  { destruct (currentCycle st) as [c|] eqn:Hc.
    - eexists. split; [reflexivity|]. unfold pushCycleEvent, placed. simpl.
      split; [|repeat split].
      + split; [split|]; simpl.
        * rewrite Hc. discriminate.
        * apply Forall_app. split; [apply Hbuf|]. now constructor.
        * rewrite Hc. intros c' [= <-]. now apply Hfresh.
      + now rewrite app_assoc.
      + exists []. now rewrite app_nil_r.
      + now rewrite app_nil_r.
      + now rewrite Hc.
    - eexists. split; [reflexivity|]. apply Hout; auto. now apply Hbuf. }
  destruct (is_str ty FUNCTION_CALL); [|exact Hreg].
  destruct (currentCycle st) as [c|] eqn:Hc; [exact Hreg|].
  eexists. split; [reflexivity|].
  apply (Hout (proj1 Hbuf Hc) eq_refl); reflexivity.
Qed.

Lemma step_ok_record (st st' : State) (e : ParsedLogLine) :
  step st e = Ok st' -> isRecord e.
Proof.
  unfold step. destruct (js_get (event e) "type") eqn:Hty; [|discriminate].
  intros _. eapply js_get_ok_record; eauto.
Qed.

Lemma loop_app (st : State) (l1 l2 : list ParsedLogLine) :
  loop st (l1 ++ l2) = (st' <- loop st l1 ;; loop st' l2).
Proof.
  revert st. induction l1 as [|e l1 IH]; intros st; simpl; [reflexivity|].
  destruct (step st e); simpl; auto.
Qed.

(** The loop returns on event records, keeps the invariant, places every event
    it reads in order, and only appends to [result]. *)
Lemma loop_spec (events : list ParsedLogLine) (st : State) :
  inv st -> Forall isRecord events ->
  exists st',
    loop st events = Ok st' /\ inv st'
    /\ placed st' = placed st ++ events
    /\ exists gs, result st' = result st ++ gs.
Proof.
  revert st. induction events as [|e rest IH]; intros st Hinv Hall; simpl.
  - exists st. rewrite !app_nil_r. split; [reflexivity|]. split; [exact Hinv|].
    split; [reflexivity|]. exists []. now rewrite app_nil_r.
  - inversion Hall as [|? ? He Hrest]; subst.
    destruct (step_spec st e Hinv He) as (st1 & -> & Hi1 & Hp1 & [g1 Hg1] & _).
    simpl. destruct (IH st1 Hi1 Hrest) as (st2 & -> & Hi2 & Hp2 & [g2 Hg2]).
    exists st2. split; [reflexivity|]. split; [exact Hi2|]. split.
    + now rewrite Hp2, Hp1, <- app_assoc.
    + exists (g1 ++ g2). now rewrite Hg2, Hg1, app_assoc.
Qed.

Lemma loop_ok_records (events : list ParsedLogLine) (st st' : State) :
  loop st events = Ok st' -> Forall isRecord events.
Proof.
  revert st. induction events as [|e rest IH]; intros st; simpl; [constructor|].
  destruct (step st e) as [st1|] eqn:H1; simpl; [|discriminate].
  intros H. constructor; [eapply step_ok_record|]; eauto.
Qed.

Lemma loop_ok_inv (events : list ParsedLogLine) (st st' : State) :
  inv st -> loop st events = Ok st' -> inv st'.
Proof.
  intros Hinv H.
  destruct (loop_spec events st Hinv (loop_ok_records _ _ _ H)) as (s & Hs & Hi & _).
  rewrite H in Hs. now injection Hs as <-.
Qed.

(** The output on [pre ++ e :: post] starts with the [result] local as it
    stands after [e]. *)
Lemma groupEvents_after (pre post : list ParsedLogLine) (e : ParsedLogLine)
    (st st1 : State) :
  loop initState pre = Ok st -> step st e = Ok st1 -> Forall isRecord post ->
  exists rest, groupEvents (pre ++ e :: post) = Ok (result st1 ++ rest).
Proof.
  intros Hpre Hstep Hpost.
  pose proof (loop_ok_inv _ _ _ inv_init Hpre) as Hinv.
  destruct (step_spec st e Hinv (step_ok_record _ _ _ Hstep)) as (s & Hs & Hi1 & _).
  rewrite Hstep in Hs. injection Hs as <-.
  destruct (loop_spec post st1 Hi1 Hpost) as (st2 & H2 & Hi2 & _ & [g2 Hg2]).
  destruct (flushCycle_spec st2 (proj1 Hi2)) as (st3 & H3 & _ & _ & _ & _ & [g3 Hg3]).
  exists (g2 ++ g3). unfold groupEvents.
  rewrite loop_app, Hpre. simpl. rewrite Hstep. simpl. rewrite H2. simpl.
  rewrite H3. simpl. now rewrite Hg3, Hg2, app_assoc.
Qed.

(** The output read back in order is the input. *)
Lemma groupEvents_flatten (events : list ParsedLogLine) :
  Forall isRecord events ->
  exists gs, groupEvents events = Ok gs /\ flatten gs = events.
Proof.
  intros Hall.
  destruct (loop_spec events initState inv_init Hall)
    as (st & Hloop & Hinv & Hplaced & _).
  destruct (flushCycle_spec st (proj1 Hinv)) as (st' & Hfl & _ & _ & Hflat & _).
  exists (result st'). unfold groupEvents. rewrite Hloop. simpl.
  rewrite Hfl. simpl. split; [reflexivity|].
  rewrite Hflat, Hplaced. reflexivity.
Qed.

End GroupEventsFacts.

(* ===================================================================== *)
(** * The grouping engine: every event exactly once *)
(* ===================================================================== *)

Module GroupEventsCover.

Import GroupEvents Props GroupEventsFacts Samples.

(** C1. On every sequence of decoded lines (lines that carry an event record),
    [groupEvents] returns, and its output read back in order (the event of
    each standalone group, the events of the items of each response cycle with
    delta groups expanded, nothing for a phase marker) is the input sequence
    itself: every input event is covered exactly once, in the original
    order. *)
Theorem groupEvents_covers_every_event_once (events : list ParsedLogLine) :
  Forall isRecord events ->
  exists gs, groupEvents events = Ok gs /\ flatten gs = events.
Proof. exact (groupEvents_flatten events). Qed.

(** The sample stream: a standalone event, a response cycle holding a run of
    two text deltas, its done marker, and a trailing standalone event. *)
Lemma groupEvents_covers_every_event_once_witness :
  Forall isRecord (typed 0 "session.updated" :: cyclePrefix
                   ++ [doneWithUsage 5; typed 6 "rate_limits.updated"])
  /\ exists gs,
       groupEvents (typed 0 "session.updated" :: cyclePrefix
                    ++ [doneWithUsage 5; typed 6 "rate_limits.updated"]) = Ok gs
       /\ flatten gs = typed 0 "session.updated" :: cyclePrefix
                       ++ [doneWithUsage 5; typed 6 "rate_limits.updated"].
Proof.
  assert (H : Forall isRecord (typed 0 "session.updated" :: cyclePrefix
                   ++ [doneWithUsage 5; typed 6 "rate_limits.updated"])).
  { repeat constructor; discriminate. }
  exact (conj H (groupEvents_covers_every_event_once _ H)).
Defined.

End GroupEventsCover.

(* ===================================================================== *)
(** * The grouping engine: closing a response cycle *)
(* ===================================================================== *)

Module GroupEventsDone.

Import GroupEvents Props GroupEventsFacts Samples.

#[local] Arguments js_get_opt : simpl never.
#[local] Arguments truthy : simpl never.

Lemma step_done_open (st : State) (c : ResponseCycle) (e : ParsedLogLine) :
  inv st -> currentCycle st = Some c -> hasType e "response.done" ->
  exists its,
    aggregateDeltaEvents (cycleEvents st ++ [e]) = Ok its
    /\ step st e = Ok {| result := result st ++ [Cycle (closedBy c e its)];
                         currentCycle := None;
                         cycleEvents := [] |}.
Proof.
  intros [[_ Hrec] Hfresh] Hc Hty.
  pose proof (hasType_record _ _ Hty) as He.
  assert (Hall : Forall isRecord (cycleEvents st ++ [e])).
  { apply Forall_app. split; [exact Hrec|]. now constructor. }
  destruct (aggregate_total _ Hall) as [its Hits]. exists its.
  split; [exact Hits|].
  destruct (Hfresh c Hc) as [_ Htu].
  unfold step. unfold hasType in Hty. rewrite Hty. simpl. rewrite Hc.
  unfold closeCycle, closedBy, usageField.
  rewrite (js_get_record e "response" He). simpl.
  destruct (truthy _); unfold flushCycle; simpl; rewrite Hits; simpl;
    rewrite ?Htu; reflexivity.
Qed.

Lemma defaultsToZero_or (v : option json) :
  defaultsToZero v (js_or v (JNum 0 0)).
Proof.
  split; [reflexivity|]. split.
  - now intros ->.
  - intros m x Hm ->. unfold js_or, truthy.
    destruct (Z.eqb_spec m 0); [contradiction|reflexivity].
Qed.

Lemma step_done_orphan (st : State) (e : ParsedLogLine) :
  currentCycle st = None -> hasType e "response.done" ->
  step st e = Ok (pushResult st [Standalone e]).
Proof.
  intros Hc Hty. unfold step. unfold hasType in Hty. rewrite Hty. simpl.
  now rewrite Hc.
Qed.

(** C2. Let a [response.done] event [e] arrive after any prefix [pre] of the
    input, [st] being the state of the loop at that point. If a cycle [c] is
    open, the output continues with that cycle closed: its [endEvent] is [e],
    its items are the aggregation of the pending buffer extended with [e],
    it has no [tokenUsage] when the payload has no nested usage object, and
    when it has one its [tokenUsage] is read from [input_tokens],
    [output_tokens] and [total_tokens], each defaulting to 0 when missing. If
    no cycle is open, the output continues with [e] as a standalone event. *)
Theorem response_done_closes_the_open_cycle
    (pre post : list ParsedLogLine) (e : ParsedLogLine) (st : State) :
  hasType e "response.done" ->
  Forall isRecord post ->
  loop initState pre = Ok st ->
  match currentCycle st with
  | Some c =>
      exists its rest,
        aggregateDeltaEvents (cycleEvents st ++ [e]) = Ok its
        /\ groupEvents (pre ++ e :: post)
           = Ok (result st ++ Cycle (closedBy c e its) :: rest)
        /\ endEvent (closedBy c e its) = Some e
        /\ (usageField e = None -> tokenUsage (closedBy c e its) = None)
        /\ (forall fields, usageField e = Some (JObj fields) ->
             exists tu,
               tokenUsage (closedBy c e its) = Some tu
               /\ defaultsToZero (assoc "input_tokens" fields) (input tu)
               /\ defaultsToZero (assoc "output_tokens" fields) (output tu)
               /\ defaultsToZero (assoc "total_tokens" fields) (total tu))
  | None =>
      exists rest,
        groupEvents (pre ++ e :: post) = Ok (result st ++ Standalone e :: rest)
  end.
Proof.
  intros Hty Hpost Hpre.
  pose proof (loop_ok_inv _ _ _ inv_init Hpre) as Hinv.
  destruct (currentCycle st) as [c|] eqn:Hc.
  - destruct (step_done_open st c e Hinv Hc Hty) as (its & Hits & Hstep).
    destruct (groupEvents_after pre post e st _ Hpre Hstep Hpost) as [rest Hg].
    exists its, rest. split; [exact Hits|]. split; [|split; [|split]].
    + rewrite Hg. simpl. now rewrite <- app_assoc.
    + reflexivity.
    + unfold closedBy. simpl. now intros ->.
    + intros fields Hu. unfold closedBy. simpl. rewrite Hu.
      eexists. split; [reflexivity|]. simpl. unfold js_get_opt.
      split; [|split]; apply defaultsToZero_or.
  - pose proof (step_done_orphan st e Hc Hty) as Hstep.
    destruct (groupEvents_after pre post e st _ Hpre Hstep Hpost) as [rest Hg].
    exists rest. rewrite Hg. simpl. now rewrite <- app_assoc.
Qed.

(** The lifecycle of the sample cycle: start marker, three events, then
    [response.done] with usage [{10, 20, 30}] gives one cycle with that token
    usage and its end event set; the same done marker with no start marker
    before it is emitted standalone. *)
Lemma response_done_closes_the_open_cycle_witness :
  (exists its,
     groupEvents (cyclePrefix ++ [doneWithUsage 5])
     = Ok [ phaseOf response (created 1);
            Cycle {| responseId := Some (JStr "resp_1");
                     startEvent := created 1;
                     endEvent := Some (doneWithUsage 5);
                     items := its;
                     tokenUsage := Some {| input := JNum 10 0;
                                           output := JNum 20 0;
                                           total := JNum 30 0 |} |} ])
  /\ groupEvents [doneWithUsage 1] = Ok [Standalone (doneWithUsage 1)].
Proof.
  split.
  - destruct (loop initState cyclePrefix) as [st|] eqn:Hl; [|discriminate].
    pose proof (response_done_closes_the_open_cycle
                  cyclePrefix [] (doneWithUsage 5) st eq_refl (List.Forall_nil isRecord) Hl) as H.
    vm_compute in Hl. injection Hl as <-. cbn [currentCycle] in H.
    destruct H as (its & rest & Hagg & Hg & _).
    exists its. rewrite Hg.
    unfold groupEvents in Hg. vm_compute in Hg. injection Hg as Hits Hrest.
    rewrite <- Hrest. reflexivity.
  - pose proof (response_done_closes_the_open_cycle
                  [] [] (doneWithUsage 1) initState eq_refl (List.Forall_nil isRecord) eq_refl) as H.
    cbn [currentCycle initState] in H. destruct H as (rest & Hg).
    change (groupEvents [doneWithUsage 1]
            = Ok (Standalone (doneWithUsage 1) :: rest)) in Hg.
    rewrite Hg. vm_compute in Hg. injection Hg as Hrest.
    rewrite <- Hrest. reflexivity.
Defined.

End GroupEventsDone.

(* ===================================================================== *)
(** * Delta aggregation *)
(* ===================================================================== *)

Module DeltaAggregation.

Import GroupEvents Props GroupEventsFacts Samples.

#[local] Arguments js_get_opt : simpl never.

(** C4. On every buffer of event records, [aggregateDeltaEvents] returns, and
    every [DeltaGroup] among the items it returns is non-empty, has members
    that all carry the group's [eventType] as their type, has
    [firstLineNumber] and [lastLineNumber] equal to the line numbers of its
    first and last member, and occupies a contiguous segment of the buffer:
    the buffer is the events of the items before the group, then the members
    of the group, then the events of the items after it. *)
Theorem delta_groups_are_well_formed (buffer : list ParsedLogLine) :
  Forall isRecord buffer ->
  exists its,
    aggregateDeltaEvents buffer = Ok its
    /\ forall its1 g its2,
         its = its1 ++ ItemGroup g :: its2 ->
         events g <> []
         /\ Forall (fun e => hasType e (eventType g)) (events g)
         /\ option_map lineNumber (head (events g)) = Some (firstLineNumber g)
         /\ option_map lineNumber (last (events g)) = Some (lastLineNumber g)
         /\ buffer = flattenItems its1 ++ events g ++ flattenItems its2.
Proof.
  intros Hall. destruct (aggregate_total buffer Hall) as [its Hits].
  exists its. split; [exact Hits|]. intros its1 g its2 ->.
  pose proof (aggregate_ok _ _ Hits) as Hok.
  apply Forall_app in Hok as [_ Hok]. apply Forall_inv in Hok. simpl in Hok.
  destruct Hok as (H1 & H2 & H3 & H4). repeat split; auto.
  rewrite <- (aggregate_flat _ _ Hits), flattenItems_app.
  unfold flattenItems at 2. simpl. reflexivity.
Qed.

(** A buffer with a run of two text deltas and a run of one audio delta. *)
Lemma delta_groups_are_well_formed_witness :
  Forall isRecord (cyclePrefix ++ [typed 5 "response.audio.delta"; typed 6 "response.audio.done"])
  /\ exists its,
       aggregateDeltaEvents
         (cyclePrefix ++ [typed 5 "response.audio.delta"; typed 6 "response.audio.done"])
       = Ok its
       /\ forall its1 g its2,
            its = its1 ++ ItemGroup g :: its2 ->
            events g <> []
            /\ Forall (fun e => hasType e (eventType g)) (events g)
            /\ option_map lineNumber (head (events g)) = Some (firstLineNumber g)
            /\ option_map lineNumber (last (events g)) = Some (lastLineNumber g)
            /\ cyclePrefix ++ [typed 5 "response.audio.delta"; typed 6 "response.audio.done"]
               = flattenItems its1 ++ events g ++ flattenItems its2.
Proof.
  assert (H : Forall isRecord
    (cyclePrefix ++ [typed 5 "response.audio.delta"; typed 6 "response.audio.done"])).
  { repeat constructor; discriminate. }
  exact (conj H (delta_groups_are_well_formed _ H)).
Defined.

(** ** A run of five text deltas closed by its done event *)

(** A group that is open after a buffer has the type of the buffer's last
    event. *)
Lemma open_group_type (pre : list ParsedLogLine) (st : AggState) (g : DeltaGroup) :
  aggLoop {| a_result := []; a_currentGroup := None |} pre = Ok st ->
  a_currentGroup st = Some g ->
  exists p, last pre = Some p /\ hasType p (eventType g).
Proof.
  intros Hloop Hg.
  pose proof (aggLoop_flat _ _ _ Hloop) as Hflat.
  assert (Hok : Forall itemOk (aggItems st)).
  { eapply aggLoop_ok; [|exact Hloop]. constructor. }
  unfold aggItems in *. rewrite Hg in *. simpl in *.
  apply Forall_app in Hok as [_ Hok]. apply Forall_inv in Hok. simpl in Hok.
  destruct Hok as (Hne & Hty & _).
  rewrite flattenItems_app in Hflat. unfold flattenItems at 2 in Hflat.
  simpl in Hflat. rewrite app_nil_r in Hflat.
  destruct (last (events g)) as [p|] eqn:Hlast.
  - exists p. split.
    + rewrite <- Hflat, last_app, Hlast. reflexivity.
    + apply last_Some in Hlast as [l' Hl']. rewrite Hl' in Hty.
      apply Forall_app in Hty as [_ Hp]. now inversion Hp.
  - apply last_None in Hlast. contradiction.
Qed.

Lemma aggDelta_fresh (st : AggState) (ty : string) (e : ParsedLogLine) :
  (forall g, a_currentGroup st = Some g -> eventType g <> ty) ->
  aggDelta st ty e
  = {| a_result := aggItems st; a_currentGroup := Some (newGroup ty e) |}.
Proof.
  intros Hne. unfold aggDelta, aggItems.
  destruct (a_currentGroup st) as [g|]; simpl; [|reflexivity].
  destruct (String.eqb (eventType g) ty) eqn:Heq; [|reflexivity].
  apply String.eqb_eq in Heq. now destruct (Hne g eq_refl).
Qed.

Lemma truthy_text (v : option json) :
  isTextField v -> truthy v = negb (String.eqb (fieldText v) "").
Proof.
  destruct v as [[| b | m x | s | l | f]|]; simpl; try contradiction; reflexivity.
Qed.

Lemma js_or_text (v : option json) :
  isTextField v -> js_or v (JStr "") = JStr (fieldText v).
Proof.
  destruct v as [[| b | m x | s | l | f]|]; simpl; try contradiction; auto.
  intros _. destruct (String.eqb s "") eqn:E; simpl; [|reflexivity].
  apply String.eqb_eq in E. now subst.
Qed.

Lemma memberText_textual (e : ParsedLogLine) :
  isRecord e -> textual e -> memberText e = Ok (JStr (memberTextField e)).
Proof.
  intros He [Hd Ht]. unfold memberText, memberTextField.
  rewrite (js_get_record e "delta" He), (js_get_record e "transcript" He). simpl.
  unfold js_or_undef. rewrite (truthy_text _ Hd).
  destruct (String.eqb (fieldText (js_get_opt (Some (event e)) "delta")) "");
    simpl; now rewrite js_or_text.
Qed.

Lemma mapRes_memberText (members : list ParsedLogLine) :
  Forall isRecord members -> Forall textual members ->
  mapRes memberText members = Ok (map (fun e => JStr (memberTextField e)) members).
Proof.
  induction members as [|e rest IH]; intros Hr Ht; simpl; [reflexivity|].
  inversion Hr; inversion Ht; subst.
  rewrite memberText_textual by assumption. simpl.
  rewrite IH by assumption. reflexivity.
Qed.

Lemma joinEmpty_strings (ToString : json -> Res string) (texts : list string) :
  joinEmpty ToString (map JStr texts) = Ok (String.concat "" texts).
Proof.
  unfold joinEmpty.
  assert (H : mapRes (joinText ToString) (map JStr texts) = Ok texts).
  { induction texts as [|t texts IH]; simpl; [reflexivity|]. now rewrite IH. }
  now rewrite H.
Qed.

(** The statistics of a group of a text-bearing type whose members carry text
    fields. *)
Lemma stats_of_text_group (ToString : json -> Res string) (g : DeltaGroup) :
  isTextBearing (eventType g) = true ->
  Forall isRecord (events g) -> Forall textual (events g) ->
  getDeltaGroupStats ToString g
  = Ok {| count := length (events g);
          aggregatedText := Some (String.concat "" (map memberTextField (events g))) |}.
Proof.
  intros Hty Hr Ht. unfold getDeltaGroupStats. rewrite Hty.
  rewrite (mapRes_memberText _ Hr Ht). simpl.
  rewrite <- map_map, (joinEmpty_strings ToString). reflexivity.
Qed.

(** C3. In every buffer where a run of five [response.text.delta] events
    [d1 .. d5] (the event before it, if any, not being one more of them) is
    immediately followed by a [response.text.done] event, aggregation yields
    the items of what precedes, then one [DeltaGroup] whose members are
    exactly [d1 .. d5], then the done event on its own, then the items of
    what follows. The statistics of that group are a count of 5 and, the
    members carrying text fields, the concatenation of their delta-or-
    transcript texts in order; more generally the aggregated text of any
    group of a transcript or text delta type is the concatenation, in member
    order, of each member's delta-or-transcript text (empty when absent). *)
Theorem five_text_deltas_then_done
    (ToString : json -> Res string)
    (pre post : list ParsedLogLine) (d1 d2 d3 d4 d5 done : ParsedLogLine)
    (ipre ipost : list Item) :
  aggregateDeltaEvents pre = Ok ipre ->
  aggregateDeltaEvents post = Ok ipost ->
  (forall p, last pre = Some p -> ~ hasType p "response.text.delta") ->
  Forall (fun d => hasType d "response.text.delta") [d1; d2; d3; d4; d5] ->
  hasType done "response.text.done" ->
  let g := runOf "response.text.delta" d1 d5 [d1; d2; d3; d4; d5] in
  aggregateDeltaEvents (pre ++ [d1; d2; d3; d4; d5] ++ done :: post)
    = Ok (ipre ++ ItemGroup g :: ItemEvent done :: ipost)
  /\ (Forall textual [d1; d2; d3; d4; d5] ->
      getDeltaGroupStats ToString g
      = Ok {| count := 5;
              aggregatedText :=
                Some (memberTextField d1 ++ memberTextField d2 ++ memberTextField d3
                      ++ memberTextField d4 ++ memberTextField d5)%string |})
  /\ (forall g' : DeltaGroup,
        isTextBearing (eventType g') = true ->
        Forall isRecord (events g') -> Forall textual (events g') ->
        getDeltaGroupStats ToString g'
        = Ok {| count := length (events g');
                aggregatedText :=
                  Some (String.concat "" (map memberTextField (events g'))) |}).
Proof.
  intros Hpre Hpost Hlast Hds Hdone g.
  inversion Hds as [|? ? H1 Hds1]; subst.
  inversion Hds1 as [|? ? H2 Hds2]; subst.
  inversion Hds2 as [|? ? H3 Hds3]; subst.
  inversion Hds3 as [|? ? H4 Hds4]; subst.
  inversion Hds4 as [|? ? H5 _]; subst.
  split; [|split].
  - unfold aggregateDeltaEvents in *.
    destruct (aggLoop _ pre) as [stp|] eqn:Hlp; simpl in Hpre; [|discriminate].
    destruct (aggLoop _ post) as [stq|] eqn:Hlq; simpl in Hpost; [|discriminate].
    injection Hpre as <-. injection Hpost as <-.
    rewrite aggLoop_app, Hlp. simpl.
    rewrite (aggStep_delta _ _ _ H1 eq_refl). simpl.
    rewrite aggDelta_fresh.
    2:{ intros g0 Hg0 Heq. destruct (open_group_type _ _ _ Hlp Hg0) as (p & Hp & Hty).
        rewrite Heq in Hty. exact (Hlast p Hp Hty). }
    rewrite (aggStep_delta _ _ _ H2 eq_refl). simpl.
    rewrite (aggStep_delta _ _ _ H3 eq_refl). simpl.
    rewrite (aggStep_delta _ _ _ H4 eq_refl). simpl.
    rewrite (aggStep_delta _ _ _ H5 eq_refl). simpl.
    rewrite (aggStep_other _ _ _ Hdone eq_refl). simpl.
    unfold aggOther, aggDelta. simpl.
    rewrite <- (app_nil_r ((_ ++ [ItemGroup _]) ++ [ItemEvent done])).
    rewrite (aggLoop_frame post _ [] None stq Hlq). simpl.
    f_equal. unfold aggItems. destruct (a_currentGroup stq); simpl;
      rewrite <- ?app_assoc; reflexivity.
  - intros Htx. rewrite (stats_of_text_group ToString g eq_refl).
    + reflexivity.
    + simpl. repeat constructor; eapply hasType_record; eassumption.
    + exact Htx.
  - intros g'. apply stats_of_text_group.
Qed.

(** The sample buffer: a start marker, five text deltas, the done event of the
    text, the done marker of the response. *)
Lemma five_text_deltas_then_done_witness :
  aggregateDeltaEvents
    ([created 1] ++ fiveDeltas
       ++ typed 7 "response.text.done" :: [typed 8 "response.done"])
  = Ok [ ItemEvent (created 1);
         ItemGroup (runOf "response.text.delta" (textDelta 2 "The ")
                      (textDelta 6 "jumps") fiveDeltas);
         ItemEvent (typed 7 "response.text.done");
         ItemEvent (typed 8 "response.done") ]
  /\ getDeltaGroupStats (fun _ => Ok EmptyString)
       (runOf "response.text.delta" (textDelta 2 "The ") (textDelta 6 "jumps")
          fiveDeltas)
     = Ok {| count := 5; aggregatedText := Some "The quick brown fox jumps" |}.
Proof.
  assert (Hlast : forall p, last [created 1] = Some p ->
                            ~ hasType p "response.text.delta").
  { intros p [= <-]. unfold hasType. simpl. discriminate. }
  assert (Hds : Forall (fun d => hasType d "response.text.delta") fiveDeltas).
  { repeat constructor. }
  assert (Htx : Forall textual fiveDeltas).
  { repeat constructor. }
  destruct (five_text_deltas_then_done (fun _ => Ok EmptyString)
              [created 1] [typed 8 "response.done"]
              (textDelta 2 "The ") (textDelta 3 "quick ") (textDelta 4 "brown ")
              (textDelta 5 "fox ") (textDelta 6 "jumps")
              (typed 7 "response.text.done")
              [ItemEvent (created 1)] [ItemEvent (typed 8 "response.done")]
              eq_refl eq_refl Hlast Hds eq_refl) as (HA & HB & _).
  split; [exact HA | exact (HB Htx)].
Defined.

End DeltaAggregation.

(* ===================================================================== *)
(** * The speech-stopped marker *)
(* ===================================================================== *)

Module SpeechStopped.

Import GroupEvents Props GroupEventsFacts Samples.

#[local] Arguments js_get_opt : simpl never.



(** Two runs of the loop over the same events, started with a cycle open in
    both or in neither, emit the same phase markers. *)
Lemma loop_same_markers (events : list ParsedLogLine) (s1 s2 : State) :
  inv s1 -> inv s2 -> isOpen s1 = isOpen s2 -> Forall isRecord events ->
  exists s1' s2' ms,
    loop s1 events = Ok s1' /\ loop s2 events = Ok s2'
    /\ inv s1' /\ inv s2' /\ isOpen s1' = isOpen s2'
    /\ phaseMarkers (result s1') = phaseMarkers (result s1) ++ ms
    /\ phaseMarkers (result s2') = phaseMarkers (result s2) ++ ms.
Proof.
  revert s1 s2. induction events as [|e rest IH]; intros s1 s2 Hi1 Hi2 Ho Hall.
  - exists s1, s2, []. simpl. rewrite !app_nil_r. auto 10.
  - inversion Hall as [|? ? He Hrest]; subst.
    destruct (step_spec s1 e Hi1 He) as (t1 & Hs1 & Hj1 & _ & _ & Hm1 & Ho1).
    destruct (step_spec s2 e Hi2 He) as (t2 & Hs2 & Hj2 & _ & _ & Hm2 & Ho2).
    assert (Ho' : isOpen t1 = isOpen t2) by (rewrite Ho1, Ho2, Ho; reflexivity).
    destruct (IH t1 t2 Hj1 Hj2 Ho' Hrest)
      as (s1' & s2' & ms & Hl1 & Hl2 & Hk1 & Hk2 & Hoo & Hp1 & Hp2).
    exists s1', s2', (markersOf (isOpen s1) e ++ ms). simpl.
    rewrite Hs1, Hs2. simpl.
    split; [exact Hl1|]. split; [exact Hl2|]. split; [exact Hk1|].
    split; [exact Hk2|]. split; [exact Hoo|]. split.
    + now rewrite Hp1, Hm1, app_assoc.
    + now rewrite Hp2, Hm2, Ho, app_assoc.
Qed.



End SpeechStopped.

(* ===================================================================== *)
(** * Properties of the host string functions *)
(* ===================================================================== *)

Module StringFacts.

Import LineGrammar.

#[local] Open Scope string_scope.

Lemma sapp_assoc (a b c : string) : (a ++ b) ++ c = a ++ (b ++ c).
Proof. induction a as [|x a IH]; simpl; [reflexivity|]. now rewrite IH. Qed.

Lemma sapp_nil_r (a : string) : a ++ "" = a.
Proof. induction a as [|x a IH]; simpl; [reflexivity|]. now rewrite IH. Qed.

Lemma slength_app (a b : string) :
  String.length (a ++ b) = (String.length a + String.length b)%nat.
Proof. induction a as [|x a IH]; simpl; [reflexivity|]. now rewrite IH. Qed.

Lemma sliceFrom_app (a b : string) : sliceFrom (String.length a) (a ++ b) = b.
Proof. induction a as [|x a IH]; simpl; [now destruct b|]. exact IH. Qed.

Lemma all_app (p : ascii -> bool) (a b : string) :
  all p (a ++ b) = all p a && all p b.
Proof.
  unfold all. induction a as [|x a IH]; simpl; [reflexivity|].
  rewrite IH. now rewrite andb_assoc.
Qed.

Lemma all_weaken (p q : ascii -> bool) (a : string) :
  (forall c, p c = true -> q c = true) -> all p a = true -> all q a = true.
Proof.
  intros Hpq. unfold all. induction a as [|x a IH]; simpl; [reflexivity|].
  intros H. apply andb_prop in H as [Hx Ha]. now rewrite (Hpq _ Hx), IH.
Qed.

Lemma span_app (p : ascii -> bool) (a r : string) :
  all p a = true -> headOut p r -> span p (a ++ r) = (a, r).
Proof.
  unfold all. induction a as [|x a IH]; simpl; intros Ha Hr.
  - destruct r as [|c r]; simpl in *; [reflexivity|]. now rewrite Hr.
  - apply andb_prop in Ha as [Hx Ha]. now rewrite Hx, IH.
Qed.

Lemma span_split (p : ascii -> bool) (s a r : string) :
  span p s = (a, r) -> s = a ++ r /\ all p a = true /\ headOut p r.
Proof.
  revert a r. induction s as [|c s IH]; simpl; intros a r.
  - intros [= <- <-]. now repeat split.
  - destruct (p c) eqn:Hc.
    + destruct (span p s) as [run tl] eqn:Hs. intros [= <- <-].
      destruct (IH run tl eq_refl) as (-> & Hall & Hh).
      repeat split; auto. unfold all in *. simpl. now rewrite Hc.
    + intros [= <- <-]. now repeat split.
Qed.

Lemma digits_app (n : nat) (d r : string) :
  String.length d = n -> all is_digit d = true -> digits n (d ++ r) = Some (d, r).
Proof.
  unfold all. revert d. induction n as [|n IH]; intros d Hlen Hd.
  - destruct d; [reflexivity|discriminate].
  - destruct d as [|c d]; [discriminate|]. simpl in *.
    apply andb_prop in Hd as [Hc Hd]. rewrite Hc, IH; auto.
Qed.

Lemma digits_split (n : nat) (s d r : string) :
  digits n s = Some (d, r) -> s = d ++ r.
Proof.
  revert s d r. induction n as [|n IH]; simpl; intros s d r.
  - now intros [= <- <-].
  - destruct s as [|c s]; [discriminate|]. destruct (is_digit c); [|discriminate].
    destruct (digits n s) as [[ds tl]|] eqn:Hd; [|discriminate].
    intros [= <- <-]. simpl. now rewrite (IH _ _ _ Hd).
Qed.

Lemma lit_split (c : ascii) (s r : string) :
  lit c s = Some r -> s = String c r.
Proof.
  destruct s as [|c' s]; simpl; [discriminate|].
  destruct (Ascii.eqb c c') eqn:E; [|discriminate].
  apply Ascii.eqb_eq in E. now intros [= <-]; subst.
Qed.

Lemma lit_here (c : ascii) (r : string) : lit c (String c r) = Some r.
Proof. simpl. now rewrite Ascii.eqb_refl. Qed.

Lemma word_ci_split (w s m r : string) :
  word_ci w s = Some (m, r) -> s = m ++ r /\ toUpperCase m = w.
Proof.
  revert s m r. induction w as [|a w IH]; simpl; intros s m r.
  - now intros [= <- <-].
  - destruct s as [|c s]; [discriminate|].
    destruct (Ascii.eqb (upper c) a) eqn:E; [|discriminate].
    destruct (word_ci w s) as [[m' tl]|] eqn:Hw; [|discriminate].
    intros [= <- <-]. destruct (IH _ _ _ Hw) as [-> <-].
    apply Ascii.eqb_eq in E. subst a. now split.
Qed.

Lemma word_ci_app (m r : string) : word_ci (toUpperCase m) (m ++ r) = Some (m, r).
Proof.
  induction m as [|c m IH]; simpl; [reflexivity|].
  now rewrite Ascii.eqb_refl, IH.
Qed.

Lemma word_ci_mismatch (a c : ascii) (w s : string) :
  Ascii.eqb (upper c) a = false -> word_ci (String a w) (String c s) = None.
Proof. simpl. now intros ->. Qed.

Lemma trimStart_blank (ws s : string) :
  isBlank ws -> headOut is_space s -> trimStart (ws ++ s) = s.
Proof.
  unfold isBlank, all. induction ws as [|c ws IH]; simpl; intros Hws Hs.
  - destruct s as [|c s]; simpl in *; [reflexivity|]. now rewrite Hs.
  - apply andb_prop in Hws as [Hc Hws]. rewrite Hc. auto.
Qed.

Lemma trimEnd_blank (ws : string) : isBlank ws -> trimEnd ws = "".
Proof.
  unfold isBlank, all. induction ws as [|c ws IH]; simpl; [reflexivity|].
  intros H. apply andb_prop in H as [Hc Hws]. now rewrite (IH Hws), Hc.
Qed.

Lemma trimEnd_app (a b : string) :
  trimEnd b <> "" -> trimEnd (a ++ b) = a ++ trimEnd b.
Proof.
  intros Hb. induction a as [|c a IH]; simpl; [reflexivity|].
  rewrite IH. destruct (a ++ trimEnd b) eqn:E; [|reflexivity].
  destruct a; simpl in E; [contradiction|discriminate].
Qed.

Lemma trimEnd_app_blank (s ws : string) :
  isBlank ws -> trimEnd (s ++ ws) = trimEnd s.
Proof.
  intros Hws. induction s as [|c s IH]; simpl.
  - now apply trimEnd_blank.
  - now rewrite IH.
Qed.

End StringFacts.

(* ===================================================================== *)
(** * Properties of the three prefix patterns *)
(* ===================================================================== *)

Module MatchFacts.

Import LineGrammar StringFacts.

#[local] Open Scope string_scope.

(** ** A match is a prefix of the text, and its group a prefix of the match *)

Lemma match_timestamp_split (s : string) (m : Match) :
  match_timestamp s = Some m ->
  exists ws, m0 m = m1 m ++ ws /\ isBlank ws
             /\ s = m0 m ++ sliceFrom (String.length (m0 m)) s.
Proof.
  unfold match_timestamp.
  destruct (digits 4 s) as [[y s1]|] eqn:H1; [|discriminate].
  destruct (lit "-" s1) as [s2|] eqn:H2; [|discriminate].
  destruct (digits 2 s2) as [[mo s3]|] eqn:H3; [|discriminate].
  destruct (lit "-" s3) as [s4|] eqn:H4; [|discriminate].
  destruct (digits 2 s4) as [[d s5]|] eqn:H5; [|discriminate].
  destruct (lit "T" s5) as [s6|] eqn:H6; [|discriminate].
  destruct (span is_time_char s6) as [run s7] eqn:H7.
  destruct run as [|c run]; [discriminate|].
  set (zs := match lit "Z" s7 with Some tl => ("Z", tl) | None => ("", s7) end).
  assert (Hz : s7 = fst zs ++ snd zs).
  { unfold zs. destruct (lit "Z" s7) as [tl|] eqn:Hl; simpl; [|reflexivity].
    now apply lit_split in Hl. }
  destruct zs as [z s8]. simpl in Hz.
  destruct (span is_space s8) as [ws s9] eqn:H9.
  intros [= <-]. cbn [m0 m1]. exists ws.
  apply span_split in H9 as (-> & Hws & _).
  split; [reflexivity|]. split; [exact Hws|].
  apply digits_split in H1, H3, H5. apply lit_split in H2, H4, H6.
  apply span_split in H7 as (H7 & _ & _).
  assert (Hs : s = (y ++ "-" ++ mo ++ "-" ++ d ++ "T" ++ String c run ++ z)
                   ++ ws ++ s9).
  { subst. repeat (simpl; rewrite ?sapp_assoc). reflexivity. }
  rewrite Hs at 2. rewrite <- sapp_assoc, sliceFrom_app.
  now rewrite sapp_assoc.
Qed.

Lemma match_uuid_split (s : string) (m : Match) :
  match_uuid s = Some m ->
  exists ws, m0 m = "[" ++ m1 m ++ "]" ++ ws /\ isBlank ws
             /\ s = m0 m ++ sliceFrom (String.length (m0 m)) s.
Proof.
  unfold match_uuid.
  destruct (lit "[" s) as [s1|] eqn:H1; [|discriminate].
  destruct (span is_tag_char s1) as [run s2] eqn:H2.
  destruct run as [|c run]; [discriminate|].
  destruct (lit "]" s2) as [s3|] eqn:H3; [|discriminate].
  destruct (span is_space s3) as [ws s4] eqn:H4.
  intros [= <-]. cbn [m0 m1]. exists ws.
  apply span_split in H4 as (-> & Hws & _).
  split; [reflexivity|]. split; [exact Hws|].
  apply lit_split in H1, H3. apply span_split in H2 as (H2 & _ & _).
  assert (Hs : s = ("[" ++ String c run ++ "]" ++ ws) ++ s4).
  { subst. repeat (simpl; rewrite ?sapp_assoc). reflexivity. }
  rewrite Hs at 2. now rewrite sliceFrom_app.
Qed.

Lemma match_source_split (s : string) (m : Match) :
  match_source s = Some m ->
  exists ws, m0 m = "[" ++ m1 m ++ "]" ++ ws /\ isBlank ws
             /\ validSource (m1 m)
             /\ s = m0 m ++ sliceFrom (String.length (m0 m)) s.
Proof.
  unfold match_source.
  destruct (lit "[" s) as [s1|] eqn:H1; [|discriminate].
  set (alt := match word_ci "OPENAI" s1 with
              | Some r => Some r
              | None => word_ci "USER" s1
              end).
  assert (Halt : forall w s2, alt = Some (w, s2) -> s1 = w ++ s2 /\ validSource w).
  { unfold alt, validSource. intros w s2.
    destruct (word_ci "OPENAI" s1) as [[w1 t1]|] eqn:Ho.
    - intros [= <- <-]. apply word_ci_split in Ho as [-> Hu]. auto.
    - intros Hu. apply word_ci_split in Hu as [-> Hu]. auto. }
  destruct alt as [[w s2]|]; [|discriminate].
  destruct (Halt w s2 eq_refl) as [-> Hv].
  destruct (lit "]" s2) as [s3|] eqn:H3; [|discriminate].
  destruct (span is_space s3) as [ws s4] eqn:H4.
  intros [= <-]. cbn [m0 m1]. exists ws.
  apply span_split in H4 as (-> & Hws & _).
  split; [reflexivity|]. split; [exact Hws|]. split; [exact Hv|].
  apply lit_split in H1, H3.
  assert (Hs : s = ("[" ++ w ++ "]" ++ ws) ++ s4).
  { subst. repeat (simpl; rewrite ?sapp_assoc). reflexivity. }
  rewrite Hs at 2. now rewrite sliceFrom_app.
Qed.

#[local] Arguments digits : simpl never.
#[local] Arguments span : simpl never.
#[local] Arguments word_ci : simpl never.

(** ** Character classes *)

Lemma space_not_time (c : ascii) : is_space c = true -> is_time_char c = false.
Proof. by_cases_on_ascii c. Qed.

Lemma space_not_Z (c : ascii) : is_space c = true -> Ascii.eqb "Z" c = false.
Proof. by_cases_on_ascii c. Qed.

Lemma space_not_digit (c : ascii) : is_space c = true -> is_digit c = false.
Proof. by_cases_on_ascii c. Qed.

Lemma digit_is_time (c : ascii) : is_digit c = true -> is_time_char c = true.
Proof. by_cases_on_ascii c. Qed.

Lemma upper_O_not_tag (c : ascii) : upper c = "O"%char -> is_tag_char c = false.
Proof. by_cases_on_ascii c. Qed.

Lemma upper_U_not_tag (c : ascii) : upper c = "U"%char -> is_tag_char c = false.
Proof. by_cases_on_ascii c. Qed.

Lemma upper_U_not_O (c : ascii) :
  upper c = "U"%char -> Ascii.eqb (upper c) "O" = false.
Proof. by_cases_on_ascii c. Qed.

Lemma headOut_blank_opens (p : ascii -> bool) (ws r : string) :
  (forall c, is_space c = true -> p c = false) ->
  p "["%char = false -> p "{"%char = false ->
  isBlank ws -> opens r -> headOut p (ws ++ r).
Proof.
  intros Hsp Hb Hc Hws [r' [-> | ->]]; destruct ws as [|c ws]; simpl; auto;
    apply Hsp; unfold isBlank, all in Hws; simpl in Hws;
    now apply andb_prop in Hws as [? _].
Qed.

Lemma opens_headOut (p : ascii -> bool) (r : string) :
  p "["%char = false -> p "{"%char = false -> opens r -> headOut p r.
Proof. intros Hb Hc [r' [-> | ->]]; simpl; auto. Qed.

Lemma lit_none (c : ascii) (s : string) :
  headOut (Ascii.eqb c) s -> lit c s = None.
Proof. destruct s as [|c' s]; simpl; [reflexivity|]. now intros ->. Qed.

(** ** The patterns on the tokens of the grammar *)

Lemma timeText_ok (t : TimestampParts) :
  validTimestamp t ->
  all is_time_char (timeText t) = true
  /\ exists c s, timeText t = String c s.
Proof.
  intros (_ & _ & _ & [Hhl Hh] & [Hml Hm] & [Hsl Hs] & Hf). unfold timeText.
  split.
  - rewrite !all_app.
    rewrite (all_weaken _ _ _ digit_is_time Hh), (all_weaken _ _ _ digit_is_time Hm),
      (all_weaken _ _ _ digit_is_time Hs). simpl.
    destruct (ts_fraction t) as [f|]; [|reflexivity].
    destruct Hf as [_ Hf]. exact (all_weaken _ _ _ digit_is_time Hf).
  - destruct (ts_hour t) as [|c h]; [discriminate|]. simpl. eauto.
Qed.

Lemma match_timestamp_valid (t : TimestampParts) (ws r : string) :
  validTimestamp t -> isBlank ws -> opens r ->
  match_timestamp ((timestampText t ++ ws) ++ r)
  = Some {| m0 := timestampText t ++ ws; m1 := timestampText t |}.
Proof.
  intros Hv Hws Hr. destruct (timeText_ok t Hv) as (Htime & c & s & Et).
  destruct Hv as ([Hyl Hy] & [Hol Ho] & [Hdl Hd] & _).
  unfold timestampText, match_timestamp.
  repeat (simpl; rewrite ?sapp_assoc).
  rewrite (digits_app 4 _ _ Hyl Hy). simpl.
  rewrite (digits_app 2 _ _ Hol Ho). simpl.
  rewrite (digits_app 2 _ _ Hdl Hd). simpl.
  assert (Hhead : headOut is_time_char ((if ts_zulu t then "Z" else "") ++ ws ++ r)).
  { destruct (ts_zulu t); simpl; [reflexivity|].
    apply headOut_blank_opens; auto using space_not_time. }
  rewrite (span_app is_time_char _ _ Htime Hhead).
  rewrite Et at 1.
  assert (Hsp : span is_space (ws ++ r) = (ws, r)).
  { apply span_app; [exact Hws|]. now apply opens_headOut. }
  destruct (ts_zulu t); simpl.
  - rewrite Hsp. repeat (simpl; rewrite ?sapp_assoc). reflexivity.
  - rewrite lit_none, Hsp.
    + repeat (simpl; rewrite ?sapp_assoc). reflexivity.
    + apply headOut_blank_opens; auto using space_not_Z.
Qed.

Lemma match_timestamp_none (r : string) : opens r -> match_timestamp r = None.
Proof. intros [r' [-> | ->]]; reflexivity. Qed.

Lemma match_uuid_valid (tag ws r : string) :
  validTag tag -> isBlank ws -> opens r ->
  match_uuid ((("[" ++ tag ++ "]") ++ ws) ++ r)
  = Some {| m0 := ("[" ++ tag ++ "]") ++ ws; m1 := tag |}.
Proof.
  intros [Hne Htag] Hws Hr. unfold match_uuid.
  repeat (simpl; rewrite ?sapp_assoc).
  rewrite (span_app is_tag_char tag _ Htag) by reflexivity.
  destruct tag as [|c tag]; [contradiction|]. simpl.
  rewrite (span_app is_space ws r Hws) by now apply opens_headOut.
  reflexivity.
Qed.

Lemma match_uuid_none_brace (r : string) : match_uuid (String "{" r) = None.
Proof. reflexivity. Qed.

Lemma match_uuid_none_source (w r : string) :
  validSource w -> match_uuid ("[" ++ w ++ r) = None.
Proof.
  intros Hv. unfold match_uuid. simpl.
  assert (Hh : headOut is_tag_char (w ++ r)).
  { destruct w as [|c w]; [destruct Hv; discriminate|]. simpl.
    destruct Hv as [Hv | Hv]; simpl in Hv; injection Hv as Hc _.
    - now apply upper_O_not_tag.
    - now apply upper_U_not_tag. }
  change (w ++ r) with ("" ++ (w ++ r)).
  now rewrite (span_app is_tag_char "" _ eq_refl Hh).
Qed.

Lemma match_source_valid (w ws r : string) :
  validSource w -> isBlank ws -> headOut is_space r ->
  match_source ((("[" ++ w ++ "]") ++ ws) ++ r)
  = Some {| m0 := ("[" ++ w ++ "]") ++ ws; m1 := w |}.
Proof.
  intros Hv Hws Hr. unfold match_source.
  repeat (simpl; rewrite ?sapp_assoc).
  assert (Halt : match word_ci "OPENAI" (w ++ String "]" (ws ++ r)) with
                 | Some r0 => Some r0
                 | None => word_ci "USER" (w ++ String "]" (ws ++ r))
                 end = Some (w, String "]" (ws ++ r))).
  { destruct Hv as [Hv | Hv].
    - rewrite <- Hv at 1. now rewrite word_ci_app.
    - assert (Hno : word_ci "OPENAI" (w ++ String "]" (ws ++ r)) = None).
      { destruct w as [|c w]; [discriminate|]. simpl in Hv.
        injection Hv as Hc _. apply word_ci_mismatch. now apply upper_U_not_O. }
      rewrite Hno. rewrite <- Hv at 1. now rewrite word_ci_app. }
  rewrite Halt. simpl.
  rewrite (span_app is_space ws r Hws Hr). reflexivity.
Qed.

Lemma match_source_none_brace (r : string) : match_source (String "{" r) = None.
Proof. reflexivity. Qed.

End MatchFacts.

(* ===================================================================== *)
(** * The line decoder: prefix extraction *)
(* ===================================================================== *)

Module LineDecoder.

Import ParseLog LineGrammar StringFacts MatchFacts.

#[local] Open Scope string_scope.

Lemma tryPrefix_timestamp_some (t : TimestampParts) (ws r : string) :
  validTimestamp t -> isBlank ws -> opens r ->
  tryPrefix match_timestamp ((timestampText t ++ ws) ++ r)
  = (Some (timestampText t), r).
Proof.
  intros Hv Hws Hr. unfold tryPrefix.
  rewrite (match_timestamp_valid t ws r Hv Hws Hr). cbn [m0 m1].
  now rewrite sliceFrom_app.
Qed.

Lemma tryPrefix_timestamp_none (r : string) :
  opens r -> tryPrefix match_timestamp r = (None, r).
Proof. intros Hr. unfold tryPrefix. now rewrite match_timestamp_none. Qed.

Lemma tryPrefix_uuid_some (tag ws r : string) :
  validTag tag -> isBlank ws -> opens r ->
  tryPrefix match_uuid ((("[" ++ tag ++ "]") ++ ws) ++ r) = (Some tag, r).
Proof.
  intros Hv Hws Hr. unfold tryPrefix.
  rewrite (match_uuid_valid tag ws r Hv Hws Hr). cbn [m0 m1].
  now rewrite sliceFrom_app.
Qed.

Lemma tryPrefix_source_some (w ws r : string) :
  validSource w -> isBlank ws -> headOut is_space r ->
  tryPrefix match_source ((("[" ++ w ++ "]") ++ ws) ++ r) = (Some w, r).
Proof.
  intros Hv Hws Hr. unfold tryPrefix.
  rewrite (match_source_valid w ws r Hv Hws Hr). cbn [m0 m1].
  now rewrite sliceFrom_app.
Qed.

(** The text that follows a token starts with a bracket or a brace. *)
Lemma opens_after_source (src : option string) (ws p : string) :
  validPayload p -> opens (tokenText (bracketed src) ws ++ p).
Proof.
  intros [[rest ->] _]. destruct src as [w|]; simpl; eexists; eauto.
Qed.

Lemma opens_after_tag (tag src : option string) (ws2 ws3 p : string) :
  validPayload p ->
  opens (tokenText (bracketed tag) ws2 ++ tokenText (bracketed src) ws3 ++ p).
Proof.
  intros Hp. destruct tag as [t|]; simpl; [eexists; eauto|].
  now apply opens_after_source.
Qed.

(** The three prefix steps on the tokens of a line of the grammar. *)
Lemma extractPrefix_valid (ts : option TimestampParts) (tag src : option string)
    (ws1 ws2 ws3 p : string) :
  validOpt validTimestamp ts -> validOpt validTag tag -> validOpt validSource src ->
  isBlank ws1 -> isBlank ws2 -> isBlank ws3 -> validPayload p ->
  extractPrefix (tokenText (option_map timestampText ts) ws1
                 ++ tokenText (bracketed tag) ws2
                 ++ tokenText (bracketed src) ws3 ++ p)
  = {| p_timestamp := option_map timestampText ts;
       p_sessionId := tag;
       p_source := option_map toUpperCase src;
       p_remaining := p |}.
Proof.
  intros Hts Htag Hsrc H1 H2 H3 Hp. unfold extractPrefix.
  pose proof (opens_after_tag tag src ws2 ws3 p Hp) as Ho1.
  pose proof (opens_after_source src ws3 p Hp) as Ho2.
  assert (Hsp : headOut is_space p).
  { destruct Hp as [[rest ->] _]. reflexivity. }
  assert (E1 : tryPrefix match_timestamp
                 (tokenText (option_map timestampText ts) ws1
                  ++ tokenText (bracketed tag) ws2
                  ++ tokenText (bracketed src) ws3 ++ p)
               = (option_map timestampText ts,
                  tokenText (bracketed tag) ws2 ++ tokenText (bracketed src) ws3 ++ p)).
  { destruct ts as [t|]; simpl.
    - now apply tryPrefix_timestamp_some.
    - now apply tryPrefix_timestamp_none. }
  rewrite E1.
  assert (E2 : tryPrefix match_uuid
                 (tokenText (bracketed tag) ws2 ++ tokenText (bracketed src) ws3 ++ p)
               = (tag, tokenText (bracketed src) ws3 ++ p)).
  { destruct tag as [t|]; simpl.
    - now apply (tryPrefix_uuid_some t ws2).
    - unfold tryPrefix. destruct src as [w|]; simpl.
      + rewrite !sapp_assoc.
        change (String "[" (w ++ "]" ++ ws3 ++ p)) with ("[" ++ w ++ "]" ++ ws3 ++ p).
        now rewrite (match_uuid_none_source w ("]" ++ ws3 ++ p) Hsrc).
      + destruct Hp as [[rest ->] _]. reflexivity. }
  rewrite E2.
  assert (E3 : tryPrefix match_source (tokenText (bracketed src) ws3 ++ p)
               = (src, p)).
  { destruct src as [w|]; simpl.
    - now apply (tryPrefix_source_some w ws3).
    - unfold tryPrefix. destruct Hp as [[rest ->] _]. reflexivity. }
  rewrite E3. reflexivity.
Qed.

Lemma digit_not_space (c : ascii) : is_digit c = true -> is_space c = false.
Proof. by_cases_on_ascii c. Qed.

(** [trim] leaves the tokens and the payload of a line of the grammar. *)
Lemma trim_lineText (ws0 : string) (ts : option TimestampParts) (ws1 : string)
    (tag : option string) (ws2 : string) (src : option string)
    (ws3 p ws4 : string) :
  validOpt validTimestamp ts -> isBlank ws0 -> isBlank ws4 -> validPayload p ->
  trim (lineText ws0 ts ws1 tag ws2 src ws3 p ws4)
  = tokenText (option_map timestampText ts) ws1
    ++ tokenText (bracketed tag) ws2 ++ tokenText (bracketed src) ws3 ++ p.
Proof.
  intros Hts H0 H4 Hp. unfold lineText, trim.
  set (body := tokenText (option_map timestampText ts) ws1
               ++ tokenText (bracketed tag) ws2 ++ tokenText (bracketed src) ws3).
  assert (Hhead : forall tl, headOut is_space (body ++ p ++ tl)).
  { intros tl. unfold body. destruct ts as [t|]; simpl.
    - destruct Hts as ([Hl Hd] & _). unfold timestampText.
      destruct (ts_year t) as [|c y]; [discriminate|]. simpl.
      unfold all in Hd. simpl in Hd. apply andb_prop in Hd as [Hc _].
      now apply digit_not_space.
    - destruct tag as [t|]; simpl; [reflexivity|].
      destruct src as [w|]; simpl; [reflexivity|].
      destruct Hp as [[rest ->] _]. reflexivity. }
  replace (tokenText (option_map timestampText ts) ws1
           ++ tokenText (bracketed tag) ws2
           ++ tokenText (bracketed src) ws3 ++ p ++ ws4)
    with (body ++ p ++ ws4) by (unfold body; now rewrite !sapp_assoc).
  rewrite (trimStart_blank ws0 _ H0 (Hhead ws4)).
  rewrite <- sapp_assoc, (trimEnd_app_blank _ ws4 H4).
  destruct Hp as [[rest Hrest] Htrim].
  rewrite trimEnd_app; rewrite Htrim.
  - unfold body. now rewrite !sapp_assoc.
  - rewrite Hrest. discriminate.
Qed.

(** The three steps consume, in the fixed order, a prefix each, and nothing
    when the pattern does not match. *)
Lemma extractPrefix_consumes (s : string) :
  let mt := match_timestamp s in
  let s1 := sliceFrom (String.length (consumed mt)) s in
  let mu := match_uuid s1 in
  let s2 := sliceFrom (String.length (consumed mu)) s1 in
  let ms := match_source s2 in
  let s3 := sliceFrom (String.length (consumed ms)) s2 in
  extractPrefix s
  = {| p_timestamp := option_map m1 mt;
       p_sessionId := option_map m1 mu;
       p_source := option_map (fun m => toUpperCase (m1 m)) ms;
       p_remaining := s3 |}
  /\ s = consumed mt ++ consumed mu ++ consumed ms ++ s3.
Proof.
  cbv zeta. unfold extractPrefix, tryPrefix.
  destruct (match_timestamp s) as [mt|] eqn:Ht; cbn [consumed option_map].
  - destruct (match_timestamp_split _ _ Ht) as (w1 & _ & _ & E1).
    set (s1 := sliceFrom (String.length (m0 mt)) s) in *.
    destruct (match_uuid s1) as [mu|] eqn:Hu; cbn [consumed option_map].
    + destruct (match_uuid_split _ _ Hu) as (w2 & _ & _ & E2).
      set (s2 := sliceFrom (String.length (m0 mu)) s1) in *.
      destruct (match_source s2) as [ms|] eqn:Hs; cbn [consumed option_map].
      * destruct (match_source_split _ _ Hs) as (w3 & _ & _ & _ & E3).
        split; [reflexivity|]. now rewrite <- E3, <- E2.
      * split; [reflexivity|]. simpl. now rewrite <- E2.
    + simpl. destruct (match_source s1) as [ms|] eqn:Hs; cbn [consumed option_map].
      * destruct (match_source_split _ _ Hs) as (w3 & _ & _ & _ & E3).
        split; [reflexivity|]. now rewrite <- E3.
      * split; [reflexivity|]. exact E1.
  - simpl. destruct (match_uuid s) as [mu|] eqn:Hu; cbn [consumed option_map].
    + destruct (match_uuid_split _ _ Hu) as (w2 & _ & _ & E2).
      set (s2 := sliceFrom (String.length (m0 mu)) s) in *.
      destruct (match_source s2) as [ms|] eqn:Hs; cbn [consumed option_map].
      * destruct (match_source_split _ _ Hs) as (w3 & _ & _ & _ & E3).
        split; [reflexivity|]. now rewrite <- E3.
      * split; [reflexivity|]. exact E2.
    + simpl. destruct (match_source s) as [ms|] eqn:Hs; cbn [consumed option_map].
      * destruct (match_source_split _ _ Hs) as (w3 & _ & _ & _ & E3).
        split; [reflexivity|]. exact E3.
      * split; reflexivity.
Qed.

(** C6. For every line of the grammar (optional timestamp, optional bracketed
    session tag, optional bracketed source tag, each possibly followed by
    whitespace, then the payload) [parseLogLine] hands the payload to
    [JSON.parse] and, when that succeeds, returns the line with exactly the
    tokens present: the timestamp text, the session tag, the source tag in
    upper case, an absent token being left unset. On every text the three
    prefix steps are tried in the fixed order timestamp, session tag, source
    tag, each on what the previous ones left, each consuming its whole match
    at the head of the text or, when its pattern does not match, nothing. *)
Theorem parseLogLine_extracts_the_tokens_present
    (JSON_parse : string -> option json)
    (ws0 : string) (ts : option TimestampParts) (ws1 : string)
    (tag : option string) (ws2 : string) (src : option string)
    (ws3 payload ws4 : string) (n : nat) :
  validOpt validTimestamp ts -> validOpt validTag tag -> validOpt validSource src ->
  isBlank ws0 -> isBlank ws1 -> isBlank ws2 -> isBlank ws3 -> isBlank ws4 ->
  validPayload payload ->
  let line := lineText ws0 ts ws1 tag ws2 src ws3 payload ws4 in
  parseLogLine JSON_parse line n
  = match JSON_parse payload with
    | Some ev =>
        ([], Some {| timestamp := option_map timestampText ts;
                     sessionId := tag;
                     source := option_map toUpperCase src;
                     event := ev;
                     rawLine := line;
                     lineNumber := n |})
    | None => ([warnJson n payload], None)
    end
  /\ forall s : string,
       let mt := match_timestamp s in
       let s1 := sliceFrom (String.length (consumed mt)) s in
       let mu := match_uuid s1 in
       let s2 := sliceFrom (String.length (consumed mu)) s1 in
       let ms := match_source s2 in
       let s3 := sliceFrom (String.length (consumed ms)) s2 in
       extractPrefix s
       = {| p_timestamp := option_map m1 mt;
            p_sessionId := option_map m1 mu;
            p_source := option_map (fun m => toUpperCase (m1 m)) ms;
            p_remaining := s3 |}
       /\ s = consumed mt ++ consumed mu ++ consumed ms ++ s3.
Proof.
  intros Hts Htag Hsrc H0 H1 H2 H3 H4 Hp line. split.
  - subst line. unfold parseLogLine. cbv zeta.
    rewrite (trim_lineText ws0 ts ws1 tag ws2 src ws3 payload ws4 Hts H0 H4 Hp).
    rewrite (extractPrefix_valid ts tag src ws1 ws2 ws3 payload Hts Htag Hsrc H1 H2 H3 Hp).
    cbn [p_timestamp p_sessionId p_source p_remaining].
    assert (Hne : String.eqb
                    (tokenText (option_map timestampText ts) ws1
                     ++ tokenText (bracketed tag) ws2
                     ++ tokenText (bracketed src) ws3 ++ payload) "" = false).
    { apply String.eqb_neq. destruct Hp as [[rest ->] _].
      destruct (tokenText (option_map timestampText ts) ws1); [|discriminate].
      destruct (tokenText (bracketed tag) ws2); [|discriminate].
      destruct (tokenText (bracketed src) ws3); discriminate. }
    rewrite Hne. reflexivity.
  - exact extractPrefix_consumes.
Qed.

(** The line of the format's documentation: all three tokens present. *)
Lemma parseLogLine_extracts_the_tokens_present_witness :
  parseLogLine JsonRef.JSON_parse
    (dq "2024-01-15T10:30:00.000Z [abc-123] [OPENAI] {'type':'session.created','event_id':'e1','session':{'id':'s1','model':'gpt-x'}}")
    1
  = ([], Some {| timestamp := Some "2024-01-15T10:30:00.000Z";
                 sessionId := Some "abc-123";
                 source := Some "OPENAI";
                 event := JObj [ ("type", JStr "session.created");
                                 ("event_id", JStr "e1");
                                 ("session", JObj [("id", JStr "s1");
                                                   ("model", JStr "gpt-x")]) ];
                 rawLine := dq "2024-01-15T10:30:00.000Z [abc-123] [OPENAI] {'type':'session.created','event_id':'e1','session':{'id':'s1','model':'gpt-x'}}";
                 lineNumber := 1 |}).
Proof.
  pose (t := {| ts_year := "2024"; ts_month := "01"; ts_day := "15";
                ts_hour := "10"; ts_minute := "30"; ts_second := "00";
                ts_fraction := Some "000"; ts_zulu := true |}).
  assert (Ht : validOpt validTimestamp (Some t)).
  { simpl. unfold validTimestamp, digitsN. simpl. repeat split; discriminate. }
  assert (Htag : validOpt validTag (Some "abc-123")).
  { simpl. split; [discriminate|reflexivity]. }
  assert (Hsrc : validOpt validSource (Some "OPENAI")).
  { simpl. left. reflexivity. }
  assert (Hp : validPayload
    (dq "{'type':'session.created','event_id':'e1','session':{'id':'s1','model':'gpt-x'}}")).
  { split; [eexists; reflexivity | reflexivity]. }
  exact (proj1 (parseLogLine_extracts_the_tokens_present JsonRef.JSON_parse
                  "" (Some t) " " (Some "abc-123") " " (Some "OPENAI") " "
                  (dq "{'type':'session.created','event_id':'e1','session':{'id':'s1','model':'gpt-x'}}")
                  "" 1 Ht Htag Hsrc eq_refl eq_refl eq_refl eq_refl eq_refl Hp)).
Defined.

End LineDecoder.

(* ===================================================================== *)
(** * The line decoder: rejection *)
(* ===================================================================== *)

Module LineRejection.

Import ParseLog LineGrammar StringFacts MatchFacts.

#[local] Open Scope string_scope.

Lemma trimEnd_empty (s : string) : trimEnd s = "" -> isBlank s.
Proof.
  unfold isBlank, all. induction s as [|c s IH]; simpl; [reflexivity|].
  destruct (trimEnd s) eqn:E; [|discriminate].
  destruct (is_space c); [|discriminate]. intros _. now rewrite IH.
Qed.

Lemma trimStart_head (s : string) : headOut is_space (trimStart s).
Proof.
  induction s as [|c s IH]; simpl; [exact I|].
  destruct (is_space c) eqn:E; [exact IH|]. exact E.
Qed.

Lemma trimStart_blank_iff (s : string) : trimStart s = "" <-> isBlank s.
Proof.
  unfold isBlank, all. induction s as [|c s IH]; simpl; [tauto|].
  destruct (is_space c); simpl; [exact IH|]. split; discriminate.
Qed.

(** A line is blank for [trim] exactly when all its characters are
    whitespace. *)
Lemma trim_blank_iff (s : string) : trim s = "" <-> isBlank s.
Proof.
  unfold trim. split.
  - intros H. apply trimEnd_empty in H. apply trimStart_blank_iff.
    pose proof (trimStart_head s) as Hh.
    destruct (trimStart s) as [|c u]; [reflexivity|].
    unfold isBlank, all in H. simpl in H, Hh. rewrite Hh in H. discriminate.
  - intros H. apply trimStart_blank_iff in H. now rewrite H.
Qed.

Lemma sliceTo_length (n : nat) (s : string) : String.length (sliceTo n s) <= n.
Proof.
  revert s. induction n as [|n IH]; intros s; simpl; [lia|].
  destruct s as [|c s]; simpl; [lia|]. specialize (IH s). lia.
Qed.

(** [parseLogLine] returns no decoded line exactly when the line is blank
    (whitespace only) or [JSON.parse] throws on what is left after the prefix
    steps; what [JSON.parse] returns is not looked at, so a payload that is
    JSON but no object is decoded. A blank line is rejected without a warning; a line rejected for its
    payload records one warning, made of the line number and of the payload
    cut to 100 characters; a line that decodes records none. In the loop of
    [parseLogFile] a rejected line changes nothing but the console: the
    sessions, the current session and the counter are as before it, and the
    lines after it are read from that state with their own numbers. *)
Theorem parseLogLine_rejects_blank_or_unparsable
    (JSON_parse : string -> option json) (line : string) (n : nat) :
  let payload := p_remaining (extractPrefix (trim line)) in
  (snd (parseLogLine JSON_parse line n) = None
   <-> isBlank line \/ JSON_parse payload = None)
  /\ (isBlank line -> parseLogLine JSON_parse line n = ([], None))
  /\ (~ isBlank line -> JSON_parse payload = None ->
      parseLogLine JSON_parse line n
      = ([ [ "Failed to parse JSON at line " ++ decimal n ++ ":";
             sliceTo 100 payload ] ], None)
      /\ String.length (sliceTo 100 payload) <= 100)
  /\ (forall parsed, snd (parseLogLine JSON_parse line n) = Some parsed ->
      fst (parseLogLine JSON_parse line n) = [])
  /\ (forall (st : PState) (i : nat) (rest : list string),
      snd (parseLogLine JSON_parse line (i + 1)) = None ->
      exists st',
        lineStep JSON_parse st i line = Ok st'
        /\ sessions st' = sessions st
        /\ currentSession st' = currentSession st
        /\ sessionCounter st' = sessionCounter st
        /\ console st' = (console st ++ fst (parseLogLine JSON_parse line (i + 1)))%list
        /\ lineLoop JSON_parse st i (line :: rest)
           = lineLoop JSON_parse st' (S i) rest).
Proof.
  intros payload.
  assert (Hcases :
    forall k, (isBlank line /\ parseLogLine JSON_parse line k = ([], None))
    \/ (~ isBlank line /\
        parseLogLine JSON_parse line k
        = match JSON_parse payload with
          | Some ev =>
              ([], Some {| timestamp := p_timestamp (extractPrefix (trim line));
                           sessionId := p_sessionId (extractPrefix (trim line));
                           source := p_source (extractPrefix (trim line));
                           event := ev; rawLine := line; lineNumber := k |})
          | None => ([warnJson k payload], None)
          end)).
  { intros k. unfold parseLogLine. cbv zeta.
    destruct (String.eqb (trim line) "") eqn:E.
    - left. apply String.eqb_eq in E. split; [now apply trim_blank_iff|reflexivity].
    - right. apply String.eqb_neq in E. split; [|reflexivity].
      intros Hb. apply E. now apply trim_blank_iff. }
  split; [|split; [|split; [|split]]].
  - destruct (Hcases n) as [[Hb ->] | [Hnb ->]]; simpl; [tauto|].
    fold payload. destruct (JSON_parse payload); simpl; split; try tauto.
    + discriminate.
    + intros [? | ?]; [contradiction|discriminate].
  - intros Hb. destruct (Hcases n) as [[_ ->] | [Hnb _]]; [reflexivity|contradiction].
  - intros Hnb Hp. destruct (Hcases n) as [[Hb _] | [_ ->]]; [contradiction|].
    rewrite Hp. split; [reflexivity|apply sliceTo_length].
  - intros parsed. destruct (Hcases n) as [[_ ->] | [_ ->]]; simpl; [discriminate|].
    destruct (JSON_parse payload); simpl; [reflexivity|discriminate].
  - intros st i rest Hrej. unfold lineLoop at 1. fold (lineLoop JSON_parse).
    unfold lineStep.
    destruct (parseLogLine JSON_parse line (i + 1)) as [warned parsed] eqn:E.
    simpl in Hrej. subst parsed. simpl.
    eexists. split; [reflexivity|]. simpl. auto 10.
Qed.

(** A blank line, and a line whose payload is not JSON. *)
Lemma parseLogLine_rejects_blank_or_unparsable_witness :
  parseLogLine JsonRef.JSON_parse "   " 3 = ([], None)
  /\ parseLogLine JsonRef.JSON_parse "2024-01-15T10:30:00Z [USER] not json" 4
     = ([ ["Failed to parse JSON at line 4:"; "not json"] ], None).
Proof.
  split.
  - exact (proj1 (proj2 (parseLogLine_rejects_blank_or_unparsable
                           JsonRef.JSON_parse "   " 3)) eq_refl).
  - refine (proj1 (proj1 (proj2 (proj2 (parseLogLine_rejects_blank_or_unparsable
              JsonRef.JSON_parse "2024-01-15T10:30:00Z [USER] not json" 4))) _ eq_refl)).
    unfold isBlank. simpl. discriminate.
Defined.

End LineRejection.

(* ===================================================================== *)
(** * The session segmenter *)
(* ===================================================================== *)

Module Segmenter.

Import ParseLog Props LineGrammar Segments GroupEventsFacts.

#[local] Arguments js_get_opt : simpl never.

Lemma alter_last {A : Type} (f : A -> A) (l : list A) (x : A) :
  alter f (length l) (l ++ [x]) = l ++ [f x].
Proof. induction l as [|y l IH]; simpl; [reflexivity|]. f_equal. exact IH. Qed.

Lemma allEvents_app (a b : list Session) :
  allEvents (a ++ b) = allEvents a ++ allEvents b.
Proof. unfold allEvents. now rewrite map_app, concat_app. Qed.

(** Placing a decoded line that carries an event record appends it to the
    events of the sessions, and keeps the earlier sessions. *)
Lemma place_spec (st : PState) (parsed : ParsedLogLine) :
  currentIsLast st -> isRecord parsed ->
  exists st',
    place st parsed = Ok st' /\ currentIsLast st'
    /\ allEvents (sessions st') = allEvents (sessions st) ++ [parsed]
    /\ console st' = console st.
Proof.
  intros Hlast Hrec. unfold place, currentIsLast in *.
  rewrite (js_get_record parsed "type" Hrec). simpl.
  destruct (is_str _ "session.created").
  - rewrite (js_get_record parsed "session" Hrec). simpl.
    eexists. split; [reflexivity|]. simpl. split; [|split; [|reflexivity]].
    + rewrite length_app. simpl. lia.
    + rewrite allEvents_app. unfold allEvents at 2. simpl. reflexivity.
  - destruct (currentSession st) as [cur|] eqn:Hc.
    + eexists. split; [reflexivity|]. simpl. split; [|split; [|reflexivity]].
      * now rewrite length_alter.
      * destruct (sessions st) as [|s0 ss0] eqn:Hss using rev_ind;
          [discriminate|]. clear IHss0.
        rewrite length_app in Hlast. simpl in Hlast.
        assert (cur = length ss0) by lia. subst cur.
        rewrite alter_last, !allEvents_app. unfold allEvents at 2 4. simpl.
        now rewrite !app_nil_r, app_assoc.
    + eexists. split; [reflexivity|]. simpl. split; [|split; [|reflexivity]].
      * rewrite Hlast. reflexivity.
      * rewrite Hlast. reflexivity.
Qed.

Lemma lineLoop_spec (JSON_parse : string -> option json)
    (lines : list string) (i : nat) (st : PState) :
  currentIsLast st -> Forall isRecord (decodedFrom JSON_parse i lines) ->
  exists st',
    lineLoop JSON_parse st i lines = Ok st' /\ currentIsLast st'
    /\ allEvents (sessions st')
       = allEvents (sessions st) ++ decodedFrom JSON_parse i lines.
Proof.
  revert i st. induction lines as [|l rest IH]; intros i st Hlast Hall; simpl.
  - exists st. now rewrite app_nil_r.
  - simpl in Hall. unfold lineStep.
    destruct (parseLogLine JSON_parse l (i + 1)) as [warned [parsed|]] eqn:E;
      simpl in Hall |- *.
    + inversion Hall as [|? ? Hrec Hrest]; subst.
      set (st1 := {| sessions := sessions st; currentSession := currentSession st;
                     sessionCounter := sessionCounter st;
                     console := console st ++ warned |}).
      destruct (place_spec st1 parsed Hlast Hrec) as (st2 & -> & Hl2 & Hev & _).
      simpl. destruct (IH (S i) st2 Hl2 Hrest) as (st3 & -> & Hl3 & Hev3).
      exists st3. split; [reflexivity|]. split; [exact Hl3|].
      rewrite Hev3, Hev. simpl. now rewrite <- app_assoc.
    + exact (IH (S i)
               {| sessions := sessions st; currentSession := currentSession st;
                  sessionCounter := sessionCounter st;
                  console := console st ++ warned |} Hlast Hall).
Qed.

Lemma decodedFrom_increasing (JSON_parse : string -> option json)
    (lines : list string) (i j : nat) :
  j <= i -> increasingFrom j (decodedFrom JSON_parse i lines).
Proof.
  revert i j. induction lines as [|l rest IH]; intros i j Hj; simpl; [exact I|].
  unfold parseLogLine. cbv zeta.
  destruct (String.eqb (trim l) ""); simpl; [apply IH; lia|].
  destruct (JSON_parse _); simpl; [|apply IH; lia].
  split; [lia|]. apply IH. lia.
Qed.

Lemma increasingFrom_weaken (ls : list ParsedLogLine) (i j : nat) :
  j <= i -> increasingFrom i ls -> increasingFrom j ls.
Proof. destruct ls as [|l ls]; simpl; [tauto|]. intros ? [? ?]. split; [lia|assumption]. Qed.

Lemma increasingFrom_app (a b : list ParsedLogLine) (i : nat) :
  increasingFrom i (a ++ b) -> increasingFrom i a /\ increasingFrom i b.
Proof.
  revert i. induction a as [|x a IH]; intros i; simpl; [tauto|].
  intros [Hx H]. destruct (IH _ H) as [Ha Hb]. repeat split; auto.
  apply (increasingFrom_weaken b (lineNumber x) i); [lia|exact Hb].
Qed.

Lemma increasing_sessions (ss : list Session) (i : nat) :
  increasingFrom i (allEvents ss) ->
  Forall (fun s => increasingFrom i (s_events s)) ss.
Proof.
  induction ss as [|s ss IH]; intros H; constructor.
  - unfold allEvents in H. simpl in H. now apply increasingFrom_app in H.
  - apply IH. unfold allEvents in H. simpl in H. now apply increasingFrom_app in H.
Qed.

(** When every line that decodes carries an event record, [parseLogFile]
    returns; the events of the sessions, read in order, are the decoded lines
    of the text, each once; the line numbers of the events of each session
    increase strictly. *)
Lemma parseLogFile_partitions_decoded_lines
    (JSON_parse : string -> option json) (content : string) :
  Forall isRecord (decodedLines JSON_parse content) ->
  exists ss,
    parseLogFile JSON_parse content = Ok ss
    /\ allEvents ss = decodedLines JSON_parse content
    /\ Forall (fun s => increasingFrom 0 (s_events s)) ss.
Proof.
  intros Hall. unfold parseLogFile, decodedLines in *.
  destruct (lineLoop_spec JSON_parse (splitLines content) 0 initPState eq_refl Hall)
    as (st & -> & _ & Hev).
  exists (sessions st). simpl in *. split; [reflexivity|]. split; [exact Hev|].
  apply increasing_sessions. rewrite Hev.
  apply decodedFrom_increasing. lia.
Qed.

Lemma place_ok_record (st st' : PState) (parsed : ParsedLogLine) :
  place st parsed = Ok st' -> isRecord parsed.
Proof.
  unfold place. destruct (js_get (event parsed) "type") eqn:Hty; [|discriminate].
  intros _. eapply js_get_ok_record; eauto.
Qed.

Lemma lineLoop_records (JSON_parse : string -> option json)
    (lines : list string) (i : nat) (st st' : PState) :
  currentIsLast st -> lineLoop JSON_parse st i lines = Ok st' ->
  Forall isRecord (decodedFrom JSON_parse i lines).
Proof.
  revert i st. induction lines as [|l rest IH]; intros i st Hlast; simpl;
    [constructor|].
  unfold lineStep.
  destruct (parseLogLine JSON_parse l (i + 1)) as [warned [parsed|]] eqn:E; simpl.
  - set (st1 := {| sessions := sessions st; currentSession := currentSession st;
                   sessionCounter := sessionCounter st;
                   console := console st ++ warned |}).
    destruct (place st1 parsed) as [st2|] eqn:Hp; simpl; [|discriminate].
    intros Hloop. pose proof (place_ok_record _ _ _ Hp) as Hrec.
    constructor; [exact Hrec|].
    destruct (place_spec st1 parsed Hlast Hrec) as (st2' & Hp' & Hl2 & _).
    rewrite Hp in Hp'. injection Hp' as <-. exact (IH (S i) st2 Hl2 Hloop).
  - exact (IH (S i)
             {| sessions := sessions st; currentSession := currentSession st;
                sessionCounter := sessionCounter st;
                console := console st ++ warned |} Hlast).
Qed.

(** [parseLogFile] returns exactly on the texts whose decoded lines all carry
    an event record, that is, on which no payload is the JSON value [null]. *)
Lemma parseLogFile_returns_iff
    (JSON_parse : string -> option json) (content : string) :
  (exists ss, parseLogFile JSON_parse content = Ok ss)
  <-> Forall isRecord (decodedLines JSON_parse content).
Proof.
  split.
  - intros [ss H]. unfold parseLogFile in H.
    destruct (lineLoop JSON_parse initPState 0 (splitLines content)) as [st|] eqn:Hl;
      [|discriminate].
    exact (lineLoop_records JSON_parse _ 0 initPState st eq_refl Hl).
  - intros Hall.
    destruct (parseLogFile_partitions_decoded_lines JSON_parse content Hall)
      as (ss & H & _).
    eauto.
Qed.

Lemma Forall_allEvents (P : ParsedLogLine -> Prop) (ss : list Session) :
  Forall P (allEvents ss) -> Forall (fun s => Forall P (s_events s)) ss.
Proof.
  induction ss as [|s ss IH]; intros H; constructor;
    unfold allEvents in H; simpl in H; apply Forall_app in H as [Hs Hr]; auto.
Qed.

(** The two stages together: on every session that [parseLogFile] returns,
    [groupEvents] returns, and its output read back in order is the events of
    the session. *)
Lemma groupEvents_on_parsed_sessions
    (JSON_parse : string -> option json) (content : string) (ss : list Session) :
  parseLogFile JSON_parse content = Ok ss ->
  Forall (fun s => exists gs, GroupEvents.groupEvents (s_events s) = Ok gs
                              /\ flatten gs = s_events s) ss.
Proof.
  intros H.
  assert (Hall : Forall isRecord (decodedLines JSON_parse content)).
  { apply parseLogFile_returns_iff. eauto. }
  destruct (parseLogFile_partitions_decoded_lines JSON_parse content Hall)
    as (ss' & H' & Hev & _).
  rewrite H in H'. injection H' as <-. rewrite <- Hev in Hall.
  apply Forall_allEvents in Hall.
  clear H Hev. induction Hall as [|s rest Hs _ IH]; [constructor|].
  constructor; [now apply groupEvents_flatten|exact IH].
Qed.

(** C5, at the input on which the code departs from it. The text has two
    lines, a session start and the JSON literal [null]. Both lines decode:
    [parseLogLine] returns a line for each, the second with the event [null].
    [parseLogFile] then reads [parsed.event.type] on that event and throws a
    [TypeError]: no session is returned, so the first line, which decoded,
    belongs to no session. *)
Theorem parseLogFile_throws_on_a_null_payload :
  (exists l1, snd (parseLogLine JsonRef.JSON_parse (dq "{'type':'session.created'}") 1)
              = Some l1 /\ isRecord l1)
  /\ snd (parseLogLine JsonRef.JSON_parse "null" 2)
     = Some {| timestamp := None; sessionId := None; source := None;
               event := JNull; rawLine := "null"; lineNumber := 2 |}
  /\ parseLogFile JsonRef.JSON_parse
       (unlines [dq "{'type':'session.created'}"; "null"])
     = Throw TypeError.
Proof.
  split; [|split]; [|reflexivity|reflexivity].
  eexists. split; [reflexivity|]. unfold isRecord. simpl. discriminate.
Qed.

(** Two start markers, on lines 1 and 5 of six lines that all decode: two
    sessions, the first with lines 1 to 4, the second with lines 5 and 6. *)
Example two_sessions_split_at_the_start_markers :
  exists s1 s2,
    parseLogFile JsonRef.JSON_parse
      (unlines [ dq "2024-01-15T10:30:00.000Z [abc-123] {'type':'session.created','session':{'id':'s1','model':'gpt-x'}}";
                 dq "{'type':'session.updated'}";
                 dq "{'type':'response.created'}";
                 dq "{'type':'response.done'}";
                 dq "{'type':'session.created','session':{'id':'s2','voice':'alloy'}}";
                 dq "[USER] {'type':'conversation.item.created'}" ])
    = Ok [s1; s2]
    /\ map lineNumber (s_events s1) = [1; 2; 3; 4]
    /\ map lineNumber (s_events s2) = [5; 6]
    /\ id s1 = "session-1" /\ id s2 = "session-2"
    /\ startTime s1 = Some "2024-01-15T10:30:00.000Z"
    /\ model s1 = Some (JStr "gpt-x") /\ voice s2 = Some (JStr "alloy").
Proof. do 2 eexists. vm_compute. repeat split. Qed.

(** Lines before the first start marker go to an implicit session, which has
    a synthetic name and no model. *)
Example lines_before_the_first_marker :
  exists s1 s2,
    parseLogFile JsonRef.JSON_parse
      (unlines [ dq "{'type':'rate_limits.updated'}";
                 "";
                 dq "{'type':'error'}";
                 dq "{'type':'session.created','session':{'id':'s1'}}";
                 dq "{'type':'session.updated'}" ])
    = Ok [s1; s2]
    /\ map lineNumber (s_events s1) = [1; 3]
    /\ map lineNumber (s_events s2) = [4; 5]
    /\ id s1 = "session-1" /\ model s1 = None /\ s_sessionId s1 = None
    /\ id s2 = "session-2" /\ s_sessionId s2 = Some (JStr "s1").
Proof. do 2 eexists. vm_compute. repeat split. Qed.

End Segmenter.

(* ===================================================================== *)
(** * Payloads that are JSON but no object *)
(* ===================================================================== *)

Module PayloadShape.

Import ParseLog Props LineGrammar Segments.

#[local] Open Scope string_scope.

(** C7, at the inputs on which the code departs from it. The payloads [123]
    and [null] are JSON texts but no JSON objects: the specification has such
    a line rejected with a warning, the lines after it read as usual.
    [parseLogLine] returns a decoded line for each of them, whose event is
    the number, resp. [null], and writes no warning. In [parseLogFile] the
    line [123] becomes an event of a session, and the line [null] makes the
    read of [parsed.event.type] throw a [TypeError], so the line after it is
    never read. The payload [not json], on which [JSON.parse] throws, takes
    the other path: one warning with the line number, no decoded line, and
    the line after it is read with its own number. *)
Theorem parseLogLine_decodes_a_payload_that_is_no_object :
  parseLogLine JsonRef.JSON_parse "123" 1
  = ([], Some {| timestamp := None; sessionId := None; source := None;
                 event := JNum 123 0; rawLine := "123"; lineNumber := 1 |})
  /\ parseLogLine JsonRef.JSON_parse "null" 1
     = ([], Some {| timestamp := None; sessionId := None; source := None;
                    event := JNull; rawLine := "null"; lineNumber := 1 |})
  /\ (exists s1 s2,
        parseLogFile JsonRef.JSON_parse
          (unlines ["123"; dq "{'type':'session.created'}"])
        = Ok [s1; s2]
        /\ map event (s_events s1) = [JNum 123 0]
        /\ map lineNumber (s_events s2) = [2])
  /\ parseLogFile JsonRef.JSON_parse
       (unlines ["null"; dq "{'type':'session.created'}"])
     = Throw TypeError
  /\ parseLogLine JsonRef.JSON_parse "not json" 1
     = ([warnJson 1 "not json"], None)
  /\ (exists s,
        parseLogFile JsonRef.JSON_parse
          (unlines ["not json"; dq "{'type':'session.created'}"])
        = Ok [s]
        /\ map lineNumber (s_events s) = [2]).
Proof.
  split; [reflexivity|]. split; [reflexivity|].
  split; [do 2 eexists; vm_compute; repeat split|].
  split; [reflexivity|]. split; [reflexivity|].
  eexists. vm_compute. repeat split.
Qed.

End PayloadShape.

(* ===================================================================== *)
(** * The audio codec *)
(* ===================================================================== *)

Module AudioCodec.

Import AudioPlayer Props Pcm GroupEventsFacts.

#[local] Arguments js_get_opt : simpl never.
#[local] Arguments decodeAudioDelta : simpl never.

(** ** Decoding one chunk *)

Lemma toInt16_int16Bytes (s : Z) :
  isInt16 s ->
  toInt16 (((s mod 65536) mod 256) + 256 * ((s mod 65536) / 256))%Z = s.
Proof.
  unfold isInt16, toInt16. intros Hs.
  destruct (Z.ltb_spec ((s mod 65536) mod 256 + 256 * (s mod 65536 / 256)) 32768)
    as [H | H]; Z.div_mod_to_equations; lia.
Qed.

Lemma int16Pairs_pcm16Bytes (samples : list Z) :
  Forall isInt16 samples -> int16Pairs (pcm16Bytes samples) = samples.
Proof.
  induction samples as [|s rest IH]; intros Hall; [reflexivity|].
  inversion Hall as [|? ? Hs Hrest]; subst.
  unfold pcm16Bytes in *. simpl. rewrite (IH Hrest).
  f_equal. now apply toInt16_int16Bytes.
Qed.

Lemma even_pcm16Bytes (samples : list Z) :
  Nat.even (length (pcm16Bytes samples)) = true.
Proof.
  induction samples as [|s rest IH]; [reflexivity|].
  unfold pcm16Bytes in *. simpl. exact IH.
Qed.

Lemma normalized_in_range (s : Z) : isInt16 s -> inUnitRange (normalized s).
Proof.
  unfold isInt16, inUnitRange, normalized, Qle, Qdiv, Qmult, Qinv. simpl.
  intros Hs. lia.
Qed.

(** ** [atob] reads back the standard encoding *)

Lemma list_ind3 {A : Type} (P : list A -> Prop) :
  P [] -> (forall a, P [a]) -> (forall a b, P [a; b]) ->
  (forall a b c l, P l -> P (a :: b :: c :: l)) ->
  forall l, P l.
Proof.
  intros H0 H1 H2 H3. fix IH 1.
  intros [|a [|b [|c l]]];
    [exact H0 | exact (H1 a) | exact (H2 a b) | exact (H3 a b c l (IH l))].
Qed.

Lemma b64_char_val (n : nat) :
  n < 64 ->
  b64_val (b64_char (Z.of_nat n)) = Some (Z.of_nat n)
  /\ is_b64_ws (b64_char (Z.of_nat n)) = false
  /\ Ascii.eqb (b64_char (Z.of_nat n)) "=" = false.
Proof.
  intros Hn. do 64 (destruct n as [|n]; [vm_compute; auto|]). lia.
Qed.

Lemma b64_char_sextet (v : Z) :
  isSextet v ->
  b64_val (b64_char v) = Some v
  /\ is_b64_ws (b64_char v) = false
  /\ Ascii.eqb (b64_char v) "=" = false.
Proof.
  intros [Hlo Hhi]. rewrite <- (Z2Nat.id v Hlo). apply b64_char_val. lia.
Qed.

Lemma sextets_range (bytes : list Z) :
  Forall isByte bytes -> Forall isSextet (sextets bytes).
Proof.
  induction bytes as [| a | a b | a b c l IH] using list_ind3; intros H; simpl.
  - constructor.
  - inversion H as [|? ? Ha _]; subst. unfold isByte, isSextet in *.
    repeat constructor; Z.div_mod_to_equations; lia.
  - inversion H as [|? ? Ha H']; subst. inversion H' as [|? ? Hb _]; subst.
    unfold isByte, isSextet in *.
    repeat constructor; Z.div_mod_to_equations; lia.
  - inversion H as [|? ? Ha H']; subst. inversion H' as [|? ? Hb H'']; subst.
    inversion H'' as [|? ? Hc Hl]; subst. unfold isByte, isSextet in *.
    repeat (constructor; [Z.div_mod_to_equations; lia|]). now apply IH.
Qed.

Lemma b64_bytes_sextets (bytes : list Z) :
  Forall isByte bytes -> b64_bytes (sextets bytes) = bytes.
Proof.
  induction bytes as [| a | a b | a b c l IH] using list_ind3; intros H.
  - reflexivity.
  - inversion H as [|? ? Ha _]; subst. unfold isByte in *. simpl.
    f_equal. Z.div_mod_to_equations; lia.
  - inversion H as [|? ? Ha H']; subst. inversion H' as [|? ? Hb _]; subst.
    unfold isByte in *. simpl.
    f_equal; [|f_equal]; Z.div_mod_to_equations; lia.
  - inversion H as [|? ? Ha H']; subst. inversion H' as [|? ? Hb H'']; subst.
    inversion H'' as [|? ? Hc Hl]; subst. unfold isByte in *.
    cbn [sextets b64_bytes]. rewrite (IH Hl).
    f_equal; [|f_equal; [|f_equal]]; Z.div_mod_to_equations; lia.
Qed.

Lemma b64_vals_chars (vs : list Z) :
  Forall isSextet vs -> b64_vals (map b64_char vs) = Some vs.
Proof.
  induction 1 as [|v vs Hv _ IH]; simpl; [reflexivity|].
  destruct (b64_char_sextet v Hv) as (-> & _). now rewrite IH.
Qed.

Lemma filter_ws_chars (vs : list Z) (pad : list ascii) :
  Forall isSextet vs -> Forall (fun c => c = "="%char) pad ->
  List.filter (fun c => negb (is_b64_ws c)) (map b64_char vs ++ pad)
  = map b64_char vs ++ pad.
Proof.
  intros Hvs Hpad. rewrite List.filter_app. f_equal.
  - induction Hvs as [|v vs Hv _ IH]; simpl; [reflexivity|].
    destruct (b64_char_sextet v Hv) as (_ & -> & _). simpl. now rewrite IH.
  - induction Hpad as [|c pad -> _ IH]; simpl; [reflexivity|]. now rewrite IH.
Qed.

(** The shape of an encoding: its length without the padding is not 1 modulo
    4, and with the padding it is a multiple of 4. *)
Lemma encode_lengths (bytes : list Z) :
  (length (sextets bytes) + length (padding bytes)) mod 4 = 0
  /\ length (sextets bytes) mod 4 <> 1.
Proof.
  induction bytes as [| a | a b | a b c l IH] using list_ind3;
    try (split; [reflexivity|discriminate]).
  destruct IH as [IH1 IH2].
  assert (Hpad : padding (a :: b :: c :: l) = padding l).
  { unfold padding. cbn [length].
    replace (S (S (S (length l)))) with (length l + 1 * 3) by lia.
    now rewrite Nat.Div0.mod_add. }
  rewrite Hpad. cbn [sextets length].
  replace (S (S (S (S (length (sextets l))))) + length (padding l))
    with ((length (sextets l) + length (padding l)) + 1 * 4) by lia.
  replace (S (S (S (S (length (sextets l))))))
    with (length (sextets l) + 1 * 4) by lia.
  rewrite !Nat.Div0.mod_add. auto.
Qed.

Lemma padding_cases (bytes : list Z) :
  padding bytes = [] \/ padding bytes = ["="%char]
  \/ padding bytes = ["="%char; "="%char].
Proof.
  unfold padding. destruct (length bytes mod 3) as [|[|[|n]]]; auto.
Qed.

Lemma strip_padding_encode (vs : list Z) (pad : list ascii) :
  Forall isSextet vs ->
  pad = [] \/ pad = ["="%char] \/ pad = ["="%char; "="%char] ->
  (length vs + length pad) mod 4 = 0 ->
  strip_padding (map b64_char vs ++ pad) = map b64_char vs.
Proof.
  intros Hvs Hpad Hlen. unfold strip_padding.
  rewrite length_app, length_map, Hlen. simpl.
  rewrite rev_app_distr.
  assert (Hbody : match rev (map b64_char vs) with
                  | c :: _ => Ascii.eqb c "=" = false
                  | [] => True
                  end).
  { destruct vs as [|v vs _] using rev_ind; [exact I|].
    rewrite map_app, rev_app_distr. simpl.
    apply Forall_app in Hvs as [_ Hv]. apply Forall_inv in Hv.
    now destruct (b64_char_sextet v Hv) as (_ & _ & ->). }
  destruct Hpad as [-> | [-> | ->]]; simpl.
  - rewrite app_nil_r.
    destruct (rev (map b64_char vs)) as [|c r] eqn:E; [reflexivity|].
    now rewrite Hbody.
  - destruct (rev (map b64_char vs)) as [|c r] eqn:E.
    + simpl. apply (f_equal (@rev ascii)) in E. rewrite rev_involutive in E.
      now rewrite E.
    + rewrite Hbody, <- E. apply rev_involutive.
  - apply rev_involutive.
Qed.

(** [atob] reads the standard encoding of a list of bytes back to it. *)
Lemma atob_btoa (bytes : list Z) :
  Forall isByte bytes -> atob (btoa bytes) = Ok bytes.
Proof.
  intros Hb. pose proof (sextets_range bytes Hb) as Hs.
  destruct (encode_lengths bytes) as [Hlen Hone].
  assert (Hpadeq : Forall (fun c => c = "="%char) (padding bytes)).
  { destruct (padding_cases bytes) as [-> | [-> | ->]]; repeat constructor. }
  unfold atob, btoa, b64_encode.
  rewrite list_ascii_of_string_of_list_ascii.
  rewrite (filter_ws_chars _ _ Hs Hpadeq).
  rewrite (strip_padding_encode _ _ Hs (padding_cases bytes) Hlen).
  rewrite length_map.
  destruct (Nat.eqb_spec (length (sextets bytes) mod 4) 1) as [E | _];
    [contradiction|].
  rewrite (b64_vals_chars _ Hs). now rewrite (b64_bytes_sextets _ Hb).
Qed.

Lemma pcm16Bytes_range (samples : list Z) : Forall isByte (pcm16Bytes samples).
Proof.
  induction samples as [|s rest IH]; [constructor|].
  unfold pcm16Bytes in *. simpl. unfold isByte.
  repeat (constructor; [Z.div_mod_to_equations; lia|]). exact IH.
Qed.

(** C9. For every list of 16-bit signed samples, the base64 text of their
    bytes, low byte first, and more generally every chunk that [atob] reads
    as those bytes (unpadded, or with whitespace), is decoded by
    [decodeAudioDelta] to one float per sample, in order, each equal to its
    sample divided by 32768 and lying between -1 and 1. (A quotient of a
    16-bit integer by 32768 is exact in binary32, so the floats are given as
    rationals.) *)
Theorem decodeAudioDelta_normalizes_the_samples (samples : list Z) :
  Forall isInt16 samples ->
  decodeAudioDelta (btoa (pcm16Bytes samples)) = Ok (map normalized samples)
  /\ (forall base64, atob base64 = Ok (pcm16Bytes samples) ->
      decodeAudioDelta base64 = Ok (map normalized samples))
  /\ length (map normalized samples) = length samples
  /\ Forall inUnitRange (map normalized samples).
Proof.
  intros Hall.
  assert (Hdec : forall base64, atob base64 = Ok (pcm16Bytes samples) ->
                 decodeAudioDelta base64 = Ok (map normalized samples)).
  { intros base64 Hatob. unfold decodeAudioDelta, Int16Array. rewrite Hatob.
    simpl. rewrite even_pcm16Bytes. simpl.
    now rewrite (int16Pairs_pcm16Bytes _ Hall). }
  split; [|split; [|split]].
  - apply Hdec. apply atob_btoa. apply pcm16Bytes_range.
  - exact Hdec.
  - apply length_map.
  - clear Hdec. induction Hall as [|s rest Hs _ IH]; simpl; [constructor|].
    constructor; [now apply normalized_in_range | exact IH].
Qed.

(** The samples [16384, -16384]: their bytes are 00 40 00 C0, their base64
    text is [AEAAwA==], and they decode to 0.5 and -0.5. *)
Lemma decodeAudioDelta_normalizes_the_samples_witness :
  Forall isInt16 [16384; -16384]%Z
  /\ btoa (pcm16Bytes [16384; -16384]%Z) = "AEAAwA=="
  /\ decodeAudioDelta "AEAAwA==" = Ok [normalized 16384; normalized (-16384)]
  /\ (normalized 16384 == 1 # 2)%Q
  /\ (normalized (-16384) == - (1 # 2))%Q.
Proof.
  assert (Hs : Forall isInt16 [16384; -16384]%Z).
  { repeat constructor; unfold isInt16; lia. }
  split; [exact Hs|]. split; [reflexivity|]. split.
  - exact (proj1 (decodeAudioDelta_normalizes_the_samples [16384; -16384]%Z Hs)).
  - split; reflexivity.
Defined.

(** ** Extracting the audio of a delta run *)

#[local] Arguments combineAudioChunks : simpl never.

Lemma combineAudioChunks_concat (cs : list Float32Array) :
  combineAudioChunks cs = concat cs.
Proof.
  unfold combineAudioChunks.
  destruct cs as [|c [|c' cs]]; simpl; auto. now rewrite app_nil_r.
Qed.

Lemma concat_nonEmpty (cs : list Float32Array) :
  concat (List.filter nonEmpty cs) = concat cs.
Proof.
  induction cs as [|c cs IH]; simpl; [reflexivity|].
  unfold nonEmpty at 1. destruct c as [|x c]; simpl; [exact IH|].
  now rewrite IH.
Qed.

Lemma filter_nonEmpty_nil (cs : list Float32Array) :
  List.filter nonEmpty cs = [] <-> Forall (fun c => c = []) cs.
Proof.
  induction cs as [|c cs IH]; simpl; [split; auto|].
  unfold nonEmpty at 1. destruct c as [|x c]; simpl.
  - rewrite IH. split; [now constructor|]. intros H. now inversion H.
  - split; [discriminate|]. intros H. inversion H. discriminate.
Qed.

(** One iteration pushes the chunk of the event when it decodes to a
    non-empty buffer, and nothing otherwise. *)
Lemma extractStep_spec (st : XState) (evt : ParsedLogLine) :
  isRecord evt ->
  exists st',
    extractStep st evt = Ok st'
    /\ chunks st' = chunks st ++ List.filter nonEmpty (decodedChunks [evt]).
Proof.
  intros Hrec. unfold extractStep. rewrite (js_get_record evt "delta" Hrec).
  simpl. unfold deltaOf.
  destruct (js_get_opt (Some (event evt)) "delta") as [[| b | m x | d | l | f]|];
    try (exists st; split; [reflexivity|now rewrite app_nil_r]).
  destruct d as [|c d]; simpl.
  - exists st. split; [reflexivity|now rewrite app_nil_r].
  - destruct (decodeAudioDelta (String c d)) as [decoded|err]; simpl.
    + unfold nonEmpty. destruct decoded as [|q decoded]; simpl.
      * exists st. split; [reflexivity|now rewrite app_nil_r].
      * eexists. split; reflexivity.
    + eexists. split; [reflexivity|]. simpl. now rewrite app_nil_r.
Qed.

Lemma decodedChunks_cons (evt : ParsedLogLine) (rest : list ParsedLogLine) :
  decodedChunks (evt :: rest) = decodedChunks [evt] ++ decodedChunks rest.
Proof.
  simpl. destruct (deltaOf evt) as [d|]; [|reflexivity].
  destruct (decodeAudioDelta d); reflexivity.
Qed.

Lemma extractLoop_spec (events : list ParsedLogLine) (st : XState) :
  Forall isRecord events ->
  exists st',
    extractLoop st events = Ok st'
    /\ chunks st' = chunks st ++ List.filter nonEmpty (decodedChunks events).
Proof.
  revert st. induction events as [|evt rest IH]; intros st Hall.
  - exists st. simpl. now rewrite app_nil_r.
  - inversion Hall as [|? ? Hrec Hrest]; subst.
    destruct (extractStep_spec st evt Hrec) as (st1 & H1 & Hc1).
    destruct (IH st1 Hrest) as (st2 & H2 & Hc2).
    exists st2. rewrite (decodedChunks_cons evt rest), List.filter_app.
    cbn [extractLoop]. rewrite H1. cbn [bind]. split; [exact H2|].
    rewrite Hc2, Hc1, app_assoc. reflexivity.
Qed.

(** C8, as the code has it. On every list of event records
    [extractAudioFromDeltaGroup] returns without an exception. It returns
    [null] exactly when no chunk decodes to a non-empty buffer: every event
    has no non-empty delta string, or its string fails to decode, or decodes
    to zero samples. Otherwise it returns the concatenation, in input order,
    of the chunks that decode among the events with a non-empty delta
    string. *)
Theorem extractAudio_null_iff_no_samples (events : list ParsedLogLine) :
  Forall isRecord events ->
  exists r,
    extractAudioFromDeltaGroup events = Ok r
    /\ (r = None <-> Forall (fun chunk => chunk = []) (decodedChunks events))
    /\ (forall buffer, r = Some buffer -> buffer = concat (decodedChunks events)).
Proof.
  intros Hall. unfold extractAudioFromDeltaGroup.
  destruct (extractLoop_spec events {| chunks := []; x_console := [] |} Hall)
    as (st & -> & Hc).
  simpl in Hc. cbn [bind]. rewrite Hc.
  destruct (List.filter nonEmpty (decodedChunks events)) as [|c cs] eqn:E; simpl.
  - exists None. split; [reflexivity|]. split.
    + split; [|reflexivity]. intros _. now apply filter_nonEmpty_nil.
    + discriminate.
  - eexists. split; [reflexivity|]. split.
    + split; [discriminate|]. intros H. apply filter_nonEmpty_nil in H.
      rewrite H in E. discriminate.
    + intros buffer [= <-]. rewrite combineAudioChunks_concat, <- E.
      apply concat_nonEmpty.
Qed.

(** A run of three deltas: the samples [16384, -16384], a text that is not
    base64, and one sample 0. The second is skipped. *)
Lemma extractAudio_null_iff_no_samples_witness :
  Forall isRecord [audioDelta 1 "AEAAwA=="; audioDelta 2 "!"; audioDelta 3 "AAA"]
  /\ exists r,
       extractAudioFromDeltaGroup
         [audioDelta 1 "AEAAwA=="; audioDelta 2 "!"; audioDelta 3 "AAA"] = Ok r
       /\ (r = None <->
           Forall (fun chunk => chunk = [])
             (decodedChunks [audioDelta 1 "AEAAwA=="; audioDelta 2 "!"; audioDelta 3 "AAA"]))
       /\ (forall buffer, r = Some buffer ->
           buffer = concat (decodedChunks
                      [audioDelta 1 "AEAAwA=="; audioDelta 2 "!"; audioDelta 3 "AAA"])).
Proof.
  assert (H : Forall isRecord
                [audioDelta 1 "AEAAwA=="; audioDelta 2 "!"; audioDelta 3 "AAA"]).
  { repeat constructor; discriminate. }
  exact (conj H (extractAudio_null_iff_no_samples _ H)).
Defined.

(** C8 as stated fails on a delta made of one space: [atob] strips the space
    and yields no byte, so the chunk decodes, to an empty buffer; one chunk
    has decoded, yet the result is [null]. *)
Lemma extractAudio_null_although_a_chunk_decodes :
  decodeAudioDelta " " = Ok []
  /\ decodedChunks [audioDelta 1 " "] = [[]]
  /\ extractAudioFromDeltaGroup [audioDelta 1 " "] = Ok None.
Proof. repeat split. Qed.

End AudioCodec.

(* ===================================================================== *)
(** * Further properties of group-events.ts *)
(* ===================================================================== *)

Module ListFacts.

(** A list with one element appended, split around an element: the element is
    the appended one, or the split is one of the list. *)
Lemma snoc_split {A : Type} (l a b : list A) (x y : A) :
  l ++ [x] = a ++ y :: b ->
  (b = [] /\ a = l /\ y = x) \/ (exists b', b = b' ++ [x] /\ l = a ++ y :: b').
Proof.
  destruct (List.exists_last (l := y :: b)) as (b0 & z & Hb); [discriminate|].
  intros H. rewrite Hb, app_assoc in H.
  apply app_inj_tail in H as [Hl Hz]. subst z.
  destruct b0 as [|y0 b0].
  - left. simpl in Hb. injection Hb as -> ->. rewrite app_nil_r in Hl. auto.
  - right. simpl in Hb. injection Hb as <- ->. exists b0. split; [reflexivity|].
    exact Hl.
Qed.

End ListFacts.

Module AggregationShape.

Import GroupEvents Props Shape GroupEventsFacts ListFacts Samples.

#[local] Arguments js_get_opt : simpl never.

Lemma isDelta_hasType (e : ParsedLogLine) (ty : string) :
  hasType e ty -> isDelta e = isDeltaEvent ty.
Proof.
  intros H. unfold isDelta, typeOf.
  pose proof (js_get_record e "type" (hasType_record _ _ H)) as Hr.
  unfold hasType in H. rewrite H in Hr. injection Hr as <-. reflexivity.
Qed.

Lemma aggStep_isDelta (st : AggState) (e : ParsedLogLine) :
  isRecord e ->
  aggStep st e
  = Ok (match typeOf e with
        | Some (JStr ty) => if isDeltaEvent ty then aggDelta st ty e else aggOther st e
        | _ => aggOther st e
        end).
Proof.
  intros He. unfold aggStep, typeOf. rewrite (js_get_record e "type" He). simpl.
  destruct (js_get_opt (Some (event e)) "type") as [[| b | m x | ty | l | f]|];
    try reflexivity.
  destruct (isDeltaEvent ty); reflexivity.
Qed.

Lemma aggStep_nonDelta (st : AggState) (e : ParsedLogLine) :
  isRecord e -> isDelta e = false -> aggStep st e = Ok (aggOther st e).
Proof.
  intros He Hd. rewrite (aggStep_isDelta st e He). unfold isDelta in Hd.
  destruct (typeOf e) as [[| b | m x | ty | l | f]|]; try reflexivity.
  now rewrite Hd.
Qed.

Lemma maximalRuns_snoc_event (its : list Item) (e : ParsedLogLine) :
  maximalRuns its -> isDelta e = false -> maximalRuns (its ++ [ItemEvent e]).
Proof.
  intros (H1 & H2 & H3) He. split; [|split].
  - intros e' [Hin|[[= <-]|[]]]%in_app_or; auto.
  - intros g [Hin|[[=]|[]]]%in_app_or; auto.
  - intros a g1 g2 b Heq. change (ItemGroup g1 :: ItemGroup g2 :: b)
      with ([ItemGroup g1] ++ ItemGroup g2 :: b) in Heq.
    rewrite app_assoc in Heq.
    apply snoc_split in Heq as [(_ & _ & [=])|(b' & -> & Heq)].
    apply (H3 a g1 g2 b'). rewrite Heq, <- app_assoc. reflexivity.
Qed.

Lemma maximalRuns_snoc_group (its : list Item) (g : DeltaGroup) :
  maximalRuns its -> isDeltaEvent (eventType g) = true ->
  (forall r g0, its = r ++ [ItemGroup g0] -> eventType g0 <> eventType g) ->
  maximalRuns (its ++ [ItemGroup g]).
Proof.
  intros (H1 & H2 & H3) Hg Hlast. split; [|split].
  - intros e' [Hin|[[=]|[]]]%in_app_or; auto.
  - intros g' [Hin|[[= <-]|[]]]%in_app_or; auto.
  - intros a g1 g2 b Heq. change (ItemGroup g1 :: ItemGroup g2 :: b)
      with ([ItemGroup g1] ++ ItemGroup g2 :: b) in Heq.
    rewrite app_assoc in Heq.
    apply snoc_split in Heq as [(-> & <- & [= ->])|(b' & -> & Heq)].
    + eapply Hlast; eauto.
    + apply (H3 a g1 g2 b'). rewrite Heq, <- app_assoc. reflexivity.
Qed.

(** Dropping the last item keeps the runs maximal. *)
Lemma maximalRuns_init (its : list Item) (it : Item) :
  maximalRuns (its ++ [it]) -> maximalRuns its.
Proof.
  intros (H1 & H2 & H3). split; [|split].
  - intros e Hin. apply H1, in_or_app. auto.
  - intros g Hin. apply H2, in_or_app. auto.
  - intros a g1 g2 b ->. apply (H3 a g1 g2 (b ++ [it])).
    now rewrite <- app_assoc.
Qed.

Lemma aggOther_max (st : AggState) (e : ParsedLogLine) :
  aggMax st -> isDelta e = false -> aggMax (aggOther st e).
Proof.
  intros [Hm _] He. split.
  - unfold aggItems, aggOther. simpl. now apply maximalRuns_snoc_event.
  - intros _ r g Heq. simpl in Heq. now apply app_inj_tail in Heq as [_ [=]].
Qed.

Lemma aggDelta_max (st : AggState) (ty : string) (e : ParsedLogLine) :
  aggMax st -> isDeltaEvent ty = true -> aggMax (aggDelta st ty e).
Proof.
  intros [Hm Hlast] Hty. unfold aggDelta, aggItems in *.
  destruct (a_currentGroup st) as [g|] eqn:Hg; simpl in *.
  - destruct (String.eqb (eventType g) ty) eqn:Heq; simpl.
    + split; [|discriminate].
      apply maximalRuns_snoc_group.
      * eapply maximalRuns_init; eauto.
      * simpl. apply Hm. apply in_or_app. right. now left.
      * intros r g0 Hr. simpl in *.
        destruct Hm as (_ & _ & H3). apply (H3 r g0 g []).
        rewrite Hr, <- app_assoc. reflexivity.
    + split; [|discriminate].
      apply maximalRuns_snoc_group; auto.
      intros r g0 Hr. apply app_inj_tail in Hr as [_ [= <-]]. simpl.
      intros E. rewrite E, String.eqb_refl in Heq. discriminate.
  - split; [|discriminate].
    apply maximalRuns_snoc_group; auto.
    intros r g0 Hr. exfalso. eapply Hlast; eauto.
Qed.

Lemma aggLoop_max (buffer : list ParsedLogLine) (st st' : AggState) :
  aggMax st -> aggLoop st buffer = Ok st' -> aggMax st'.
Proof.
  revert st. induction buffer as [|e rest IH]; intros st Hm; simpl.
  - now intros [= <-].
  - destruct (aggStep st e) as [s1|] eqn:H1; simpl; [|discriminate].
    apply IH.
    pose proof (js_get_ok_record e "type") as Hrec.
    assert (He : isRecord e).
    { unfold aggStep in H1. destruct (js_get (event e) "type") eqn:Hty;
        [|discriminate]. eapply Hrec; eauto. }
    rewrite (aggStep_isDelta st e He) in H1. injection H1 as <-.
    destruct (typeOf e) as [[| b | m x | ty | l | f]|] eqn:Hty;
      try (apply aggOther_max; [exact Hm | unfold isDelta; now rewrite Hty]).
    destruct (isDeltaEvent ty) eqn:Hd.
    + now apply aggDelta_max.
    + apply aggOther_max; [exact Hm | unfold isDelta; now rewrite Hty].
Qed.

Lemma aggMax_init : aggMax {| a_result := []; a_currentGroup := None |}.
Proof.
  split.
  - split; [|split]; simpl.
    + intros e [].
    + intros g [].
    + intros a g1 g2 b H. now destruct a.
  - intros _ r g H. now destruct r.
Qed.

Lemma aggregate_max (buffer : list ParsedLogLine) (its : list Item) :
  aggregateDeltaEvents buffer = Ok its -> maximalRuns its.
Proof.
  unfold aggregateDeltaEvents.
  destruct (aggLoop _ buffer) as [st|] eqn:Hl; [|discriminate].
  simpl. intros [= <-]. apply (aggLoop_max buffer _ st aggMax_init Hl).
Qed.

(** X1. The runs [aggregateDeltaEvents] forms are maximal. On a buffer of
    event records it returns, and in the items returned no event of a delta
    type stands alone, every group is of one of the five delta types, and two
    groups that follow each other differ in type: neighbouring delta events
    of one type are always merged. *)
Theorem aggregateDeltaEvents_runs_are_maximal (buffer : list ParsedLogLine) :
  Forall isRecord buffer ->
  exists its,
    aggregateDeltaEvents buffer = Ok its /\ maximalRuns its.
Proof.
  intros Hall. destruct (aggregate_total buffer Hall) as [its Hits].
  exists its. split; [exact Hits|]. exact (aggregate_max _ _ Hits).
Qed.

(** A buffer with two runs of text deltas on both sides of an audio delta and
    a closing event: three groups, then one event. *)
Lemma aggregateDeltaEvents_runs_are_maximal_witness :
  Forall isRecord (fiveDeltas ++ [typed 7 "response.audio.delta";
                                  textDelta 8 "!"; typed 9 "response.text.done"])
  /\ exists its,
       aggregateDeltaEvents
         (fiveDeltas ++ [typed 7 "response.audio.delta";
                         textDelta 8 "!"; typed 9 "response.text.done"]) = Ok its
       /\ maximalRuns its.
Proof.
  assert (H : Forall isRecord
    (fiveDeltas ++ [typed 7 "response.audio.delta";
                    textDelta 8 "!"; typed 9 "response.text.done"])).
  { repeat constructor; discriminate. }
  exact (conj H (aggregateDeltaEvents_runs_are_maximal _ H)).
Defined.

Lemma pushGroup_app (r r0 : list Item) (c : option DeltaGroup) :
  pushGroup (r ++ r0) c = r ++ pushGroup r0 c.
Proof. destruct c; simpl; [now rewrite app_assoc | reflexivity]. Qed.

Lemma aggregate_cut
    (a b : list ParsedLogLine) (e : ParsedLogLine) (ia ib : list Item) :
  isRecord e -> isDelta e = false ->
  aggregateDeltaEvents a = Ok ia ->
  aggregateDeltaEvents b = Ok ib ->
  aggregateDeltaEvents (a ++ e :: b) = Ok (ia ++ ItemEvent e :: ib).
Proof.
  intros He Hd Ha Hb. unfold aggregateDeltaEvents in *.
  destruct (aggLoop _ a) as [sa|] eqn:Hla; [|discriminate].
  destruct (aggLoop _ b) as [sb|] eqn:Hlb; [|discriminate].
  simpl in Ha, Hb. injection Ha as <-. injection Hb as <-.
  rewrite aggLoop_app, Hla. simpl.
  rewrite (aggStep_nonDelta sa e He Hd). simpl. unfold aggOther.
  pose proof (aggLoop_frame b (pushGroup (a_result sa) (a_currentGroup sa)
                               ++ [ItemEvent e]) [] None sb Hlb) as Hf.
  rewrite app_nil_r in Hf. rewrite Hf. simpl.
  rewrite pushGroup_app, <- app_assoc. reflexivity.
Qed.

(** X2. An event that is not of a delta type cuts the buffer in two for
    [aggregateDeltaEvents]: the items of [a ++ e :: b] are the items of [a],
    then [e] on its own, then the items of [b]. No run extends across it. *)
Theorem aggregateDeltaEvents_splits_at_other_events
    (a b : list ParsedLogLine) (e : ParsedLogLine) (ia ib : list Item) :
  isRecord e -> isDelta e = false ->
  aggregateDeltaEvents a = Ok ia ->
  aggregateDeltaEvents b = Ok ib ->
  aggregateDeltaEvents (a ++ e :: b) = Ok (ia ++ ItemEvent e :: ib).
Proof. apply aggregate_cut. Qed.

Lemma aggregateDeltaEvents_splits_at_other_events_witness :
  isRecord (typed 7 "response.text.done")
  /\ isDelta (typed 7 "response.text.done") = false
  /\ aggregateDeltaEvents fiveDeltas
     = Ok [ItemGroup (runOf "response.text.delta" (textDelta 2 "The ")
                        (textDelta 6 "jumps") fiveDeltas)]
  /\ aggregateDeltaEvents [textDelta 8 "!"]
     = Ok [ItemGroup (newGroup "response.text.delta" (textDelta 8 "!"))]
  /\ aggregateDeltaEvents (fiveDeltas ++ typed 7 "response.text.done" :: [textDelta 8 "!"])
     = Ok ([ItemGroup (runOf "response.text.delta" (textDelta 2 "The ")
                         (textDelta 6 "jumps") fiveDeltas)]
           ++ ItemEvent (typed 7 "response.text.done")
              :: [ItemGroup (newGroup "response.text.delta" (textDelta 8 "!"))]).
Proof.
  assert (He : isRecord (typed 7 "response.text.done")) by discriminate.
  split; [exact He|]. split; [reflexivity|]. split; [reflexivity|].
  split; [reflexivity|].
  exact (aggregateDeltaEvents_splits_at_other_events
           fiveDeltas [textDelta 8 "!"] (typed 7 "response.text.done") _ _
           He eq_refl eq_refl eq_refl).
Defined.

(** X3. A buffer that holds no event of a delta type is returned by
    [aggregateDeltaEvents] item for item, in order: no group is formed, and
    the empty buffer gives no item. *)
Theorem aggregateDeltaEvents_keeps_other_events (buffer : list ParsedLogLine) :
  Forall isRecord buffer ->
  Forall (fun e => isDelta e = false) buffer ->
  aggregateDeltaEvents buffer = Ok (map ItemEvent buffer).
Proof.
  induction buffer as [|e rest IH]; intros Hrec Hd; [reflexivity|].
  apply Forall_cons in Hrec as [He Hrec]. apply Forall_cons in Hd as [Hde Hd].
  exact (aggregate_cut [] rest e [] _ He Hde eq_refl (IH Hrec Hd)).
Qed.

Lemma aggregateDeltaEvents_keeps_other_events_witness :
  Forall isRecord [typed 1 "response.output_item.added"; line 2 (JObj []);
                   typed 3 "response.text.done"]
  /\ Forall (fun e => isDelta e = false)
       [typed 1 "response.output_item.added"; line 2 (JObj []);
        typed 3 "response.text.done"]
  /\ aggregateDeltaEvents [typed 1 "response.output_item.added"; line 2 (JObj []);
                           typed 3 "response.text.done"]
     = Ok [ItemEvent (typed 1 "response.output_item.added");
           ItemEvent (line 2 (JObj []));
           ItemEvent (typed 3 "response.text.done")].
Proof.
  assert (H1 : Forall isRecord
    [typed 1 "response.output_item.added"; line 2 (JObj []);
     typed 3 "response.text.done"]) by (repeat constructor; discriminate).
  assert (H2 : Forall (fun e => isDelta e = false)
    [typed 1 "response.output_item.added"; line 2 (JObj []);
     typed 3 "response.text.done"]) by (repeat constructor).
  exact (conj H1 (conj H2 (aggregateDeltaEvents_keeps_other_events _ H1 H2))).
Defined.

End AggregationShape.

Module GroupingSteps.

Import GroupEvents Props Shape GroupEventsFacts ListFacts Samples.

#[local] Arguments js_get_opt : simpl never.

Lemma closedState_eq (st : State) :
  currentCycle st = None -> cycleEvents st = [] -> st = closedState (result st).
Proof. destruct st as [r c ce]. simpl. now intros -> ->. Qed.

(** [flushCycle] returns: the open cycle, if any, is pushed with the
    aggregated buffer, and no cycle is open afterwards. *)
Lemma flushCycle_emitted (st : State) :
  invBuf st ->
  exists its,
    aggregateDeltaEvents (cycleEvents st) = Ok its
    /\ flushCycle st = Ok (closedState (emitted st its)).
Proof.
  intros (Hnone & Hrec). destruct (aggregate_total _ Hrec) as [its Hits].
  exists its. split; [exact Hits|]. unfold flushCycle, emitted.
  destruct (currentCycle st) as [c|] eqn:Hc.
  - rewrite Hits. reflexivity.
  - f_equal. apply closedState_eq; auto.
Qed.

(** One iteration returns, in one of the seven ways. *)
Lemma step_inv (st : State) (e : ParsedLogLine) :
  inv st -> isRecord e ->
  exists st', step st e = Ok st' /\ stepCase st e st'.
Proof.
  intros [Hbuf Hfresh] He. unfold step.
  rewrite (js_get_record e "type" He). simpl.
  change (js_get_opt (Some (event e)) "type") with (typeOf e).
  change (is_str (typeOf e) SPEECH_START) with (typeIs e SPEECH_START).
  change (is_str (typeOf e) RESPONSE_START) with (typeIs e RESPONSE_START).
  change (is_str (typeOf e) "response.done" || is_str (typeOf e) "response.cancelled")
    with (isEnd e).
  change (is_str (typeOf e) FUNCTION_CALL) with (typeIs e FUNCTION_CALL).
  change (is_str (typeOf e) "response.done") with (typeIs e "response.done").
  destruct (flushCycle_emitted st Hbuf) as (its & Hits & Hfl).
  destruct (typeIs e SPEECH_START) eqn:Hs.
  { rewrite Hfl. simpl. eexists. split; [reflexivity|].
    eapply SpeechStart; eauto. }
  destruct (typeIs e RESPONSE_START) eqn:Hr.
  { rewrite Hfl. simpl. rewrite (js_get_record e "response" He). simpl.
    eexists. split; [reflexivity|]. eapply ResponseStart; eauto. }
  destruct (isEnd e) eqn:Hend.
  { destruct (currentCycle st) as [c|] eqn:Hc.
    - destruct (Hfresh c eq_refl) as [Hnoend Hnouse].
      assert (Hrec' : Forall isRecord (cycleEvents st ++ [e])).
      { apply Forall_app. split; [apply Hbuf|]. now constructor. }
      destruct (aggregate_total _ Hrec') as [its' Hits'].
      exists (closedState (result st ++ [Cycle (endedBy c e its')])).
      split; [|eapply CycleEnd; eauto].
      unfold closeCycle, flushCycle, endedBy, usageAt. simpl. rewrite Hnouse.
      destruct (typeIs e "response.done") eqn:Hd; simpl.
      + rewrite (js_get_record e "response" He). simpl.
        change (js_get_opt (js_get_opt (Some (event e)) "response") "usage")
          with (usageField e).
        destruct (truthy (usageField e)); simpl; rewrite Hits'; reflexivity.
      + rewrite Hits'. reflexivity.
    - eexists. split; [reflexivity|]. apply OrphanEnd; auto.
      unfold pushResult. rewrite Hc, (proj1 Hbuf Hc). reflexivity. }
  assert (Hin : isInner e = true) by (unfold isInner; now rewrite Hs, Hr, Hend).
  destruct (currentCycle st) as [c|] eqn:Hc.
  - exists (pushCycleEvent st e). split.
    + destruct (typeIs e FUNCTION_CALL); reflexivity.
    + eapply InCycle; eauto.
  - destruct (typeIs e FUNCTION_CALL) eqn:Hf.
    + eexists. split; [reflexivity|]. apply CallOutside; auto.
      unfold pushResult. rewrite Hc, (proj1 Hbuf Hc). reflexivity.
    + eexists. split; [reflexivity|]. apply Outside; auto.
      unfold pushResult. rewrite Hc, (proj1 Hbuf Hc). reflexivity.
Qed.

End GroupingSteps.

Module GroupingShape.

Import GroupEvents Props Shape GroupEventsFacts ListFacts GroupingSteps Samples.

#[local] Arguments js_get_opt : simpl never.

Lemma typeIs_other (e : ParsedLogLine) (a b : string) :
  typeIs e a = true -> a <> b -> typeIs e b = false.
Proof.
  unfold typeIs, is_str.
  destruct (typeOf e) as [[| x | m x | ty | l | f]|]; try discriminate.
  intros ->%String.eqb_eq Hab. now apply String.eqb_neq.
Qed.

Lemma isInner_not_start (e : ParsedLogLine) :
  isInner e = true -> typeIs e RESPONSE_START = false.
Proof.
  unfold isInner. destruct (typeIs e SPEECH_START), (typeIs e RESPONSE_START);
    simpl; congruence.
Qed.

Lemma openedBy_fields (c : ResponseCycle) :
  c = openedBy (startEvent c) ->
  responseId c
  = js_get_opt (js_get_opt (Some (event (startEvent c))) "response") "id"
  /\ endEvent c = None /\ tokenUsage c = None.
Proof. intros H. rewrite H. simpl. auto. Qed.

Lemma markerBefore_snoc_other (gs : list EventGroup) (g : EventGroup) :
  markerBefore gs -> (forall c, g <> Cycle c) -> markerBefore (gs ++ [g]).
Proof.
  intros Hm Hg a c b Heq.
  apply snoc_split in Heq as [(_ & _ & E)|(b' & _ & Heq)].
  - now destruct (Hg c).
  - eapply Hm; eauto.
Qed.

Lemma markerBefore_snoc_cycle (r : list EventGroup) (c : ResponseCycle) :
  markerBefore (r ++ [phaseOf response (startEvent c)]) ->
  markerBefore ((r ++ [phaseOf response (startEvent c)]) ++ [Cycle c]).
Proof.
  intros Hm a c0 b Heq.
  apply snoc_split in Heq as [(_ & -> & [= ->])|(b' & _ & Heq)].
  - eauto.
  - eapply Hm; eauto.
Qed.

(** Pushing the open cycle keeps the shape of the output. *)
Lemma emitted_shape (st : State) (its : list Item) :
  shape st -> aggregateDeltaEvents (cycleEvents st) = Ok its ->
  Forall groupWf (emitted st its) /\ markerBefore (emitted st its).
Proof.
  intros (Hwf & Hm & Ho) Hits. unfold emitted, openOk in *.
  destruct (currentCycle st) as [c|]; [|auto].
  destruct Ho as (Hc & Hty & (inner & Hce & Hin) & r & Hr).
  split.
  - apply Forall_app. split; [exact Hwf|]. constructor; [|constructor].
    destruct (openedBy_fields c Hc) as (Hid & Hend & Huse).
    simpl. unfold cycleOk. simpl. rewrite Hend.
    split; [exact Hty|]. split; [exact Hid|].
    split; [now rewrite (aggregate_flat _ _ Hits)|]. split; [|exact Huse].
    exists inner. split; [exact Hin|].
    rewrite (aggregate_flat _ _ Hits), Hce, app_nil_r. reflexivity.
  - rewrite Hr in *.
    apply (markerBefore_snoc_cycle r (withItems c its)). exact Hm.
Qed.

Lemma step_shape (st st' : State) (e : ParsedLogLine) :
  shape st -> stepCase st e st' -> shape st'.
Proof.
  intros Hsh Hcase. pose proof Hsh as (Hwf & Hm & Ho).
  destruct Hcase as [its Hs Hits -> | its Hs Hr Hits -> | c its Hs Hr He Hc Hits ->
                    | Hs Hr He Hc -> | c Hin Hc -> | Hin Hf Hc -> | Hin Hf Hc ->].
  - destruct (emitted_shape st its Hsh Hits) as [Hwf' Hm'].
    split; [|split]; simpl; [| |exact I].
    + apply Forall_app. split; [exact Hwf'|].
      constructor; [exact I|]. constructor; [|constructor]. simpl.
      apply (typeIs_other e SPEECH_START); [exact Hs | discriminate].
    + change [phaseOf speech e; Standalone e]
        with ([phaseOf speech e] ++ [Standalone e]).
      rewrite app_assoc.
      apply markerBefore_snoc_other; [|discriminate].
      apply markerBefore_snoc_other; [exact Hm'|discriminate].
  - destruct (emitted_shape st its Hsh Hits) as [Hwf' Hm'].
    split; [|split]; simpl.
    + apply Forall_app. split; [exact Hwf'|]. constructor; [exact I|constructor].
    + apply markerBefore_snoc_other; [exact Hm'|discriminate].
    + unfold openOk. simpl. split; [reflexivity|]. split; [exact Hr|].
      split; [exists []; auto|]. eauto.
  - unfold openOk in Ho. rewrite Hc in Ho.
    destruct Ho as (Hc0 & Hty & (inner & Hce & Hinner) & r & Hres).
    split; [|split]; simpl; [| |exact I].
    + apply Forall_app. split; [exact Hwf|]. constructor; [|constructor].
      destruct (openedBy_fields c Hc0) as (Hid & _ & _).
      simpl. unfold cycleOk. simpl.
      split; [exact Hty|]. split; [exact Hid|].
      split; [now rewrite (aggregate_flat _ _ Hits)|]. split; [|auto].
      exists inner. split; [exact Hinner|].
      rewrite (aggregate_flat _ _ Hits), Hce. reflexivity.
    + rewrite Hres in *.
      apply (markerBefore_snoc_cycle r (endedBy c e its)). exact Hm.
  - split; [|split]; simpl; [| |exact I].
    + apply Forall_app. split; [exact Hwf|]. constructor; [exact Hr|constructor].
    + apply markerBefore_snoc_other; [exact Hm|discriminate].
  - unfold openOk in Ho. rewrite Hc in Ho.
    destruct Ho as (Hc0 & Hty & (inner & Hce & Hinner) & r & Hres).
    split; [exact Hwf|]. split; [exact Hm|].
    unfold openOk. simpl. rewrite Hc.
    split; [exact Hc0|]. split; [exact Hty|]. split; [|eauto].
    exists (inner ++ [e]). split; [now rewrite Hce|].
    apply Forall_app. split; [exact Hinner|]. now constructor.
  - split; [|split]; simpl; [| |exact I].
    + apply Forall_app. split; [exact Hwf|]. constructor; [exact I|].
      constructor; [|constructor]. simpl. now apply isInner_not_start.
    + change [phaseOf function_call e; Standalone e]
        with ([phaseOf function_call e] ++ [Standalone e]).
      rewrite app_assoc.
      apply markerBefore_snoc_other; [|discriminate].
      apply markerBefore_snoc_other; [exact Hm|discriminate].
  - split; [|split]; simpl; [| |exact I].
    + apply Forall_app. split; [exact Hwf|].
      constructor; [|constructor]. simpl. now apply isInner_not_start.
    + apply markerBefore_snoc_other; [exact Hm|discriminate].
Qed.

Lemma shape_init : shape initState.
Proof.
  split; [constructor|]. split; [|exact I].
  intros a c b H. now destruct a.
Qed.

(** The loop returns on event records and keeps both invariants. *)
Lemma loop_shape (events : list ParsedLogLine) (st : State) :
  inv st -> shape st -> Forall isRecord events ->
  exists st', loop st events = Ok st' /\ inv st' /\ shape st'.
Proof.
  revert st. induction events as [|e rest IH]; intros st Hinv Hsh Hall; simpl.
  - eauto.
  - apply Forall_cons in Hall as [He Hrest].
    destruct (step_inv st e Hinv He) as (st1 & Hs1 & Hcase).
    destruct (step_spec st e Hinv He) as (st2 & Hs2 & Hi2 & _).
    rewrite Hs1 in Hs2. injection Hs2 as <-. rewrite Hs1. simpl.
    apply IH; auto. eapply step_shape; eauto.
Qed.

(** The output on event records: every group is well formed and every cycle
    follows its marker. *)
Lemma groupEvents_shape (events : list ParsedLogLine) :
  Forall isRecord events ->
  exists gs,
    groupEvents events = Ok gs /\ Forall groupWf gs /\ markerBefore gs.
Proof.
  intros Hall.
  destruct (loop_shape events initState inv_init shape_init Hall)
    as (st & Hl & Hinv & Hsh).
  destruct (flushCycle_emitted st (proj1 Hinv)) as (its & Hits & Hfl).
  exists (emitted st its). unfold groupEvents. rewrite Hl. simpl.
  rewrite Hfl. simpl. split; [reflexivity|].
  now apply emitted_shape.
Qed.

(** X4. Every response cycle [groupEvents] returns has the shape of the
    lifecycle: its start event is a [response.created] event whose
    [response.id] is the cycle's id; its items are the aggregation of the
    events they stand for, which are, in order, the start event, then events
    that are neither a speech start, a response start nor a done or cancelled
    marker, then the end event if there is one; an end event is a
    [response.done] or [response.cancelled] event and decides the token
    usage, which is absent when there is no end event. *)
Theorem groupEvents_cycles_follow_the_lifecycle (events : list ParsedLogLine) :
  Forall isRecord events ->
  exists gs,
    groupEvents events = Ok gs
    /\ forall c, In (Cycle c) gs -> cycleOk c.
Proof.
  intros Hall. destruct (groupEvents_shape events Hall) as (gs & Hg & Hwf & _).
  exists gs. split; [exact Hg|]. intros c Hin.
  rewrite List.Forall_forall in Hwf. exact (Hwf _ Hin).
Qed.

Lemma groupEvents_cycles_follow_the_lifecycle_witness :
  Forall isRecord (typed 1 SPEECH_START :: cyclePrefix
                   ++ [doneWithUsage 5; created 6; typed 7 "response.cancelled"])
  /\ exists gs,
       groupEvents (typed 1 SPEECH_START :: cyclePrefix
                    ++ [doneWithUsage 5; created 6; typed 7 "response.cancelled"])
       = Ok gs
       /\ forall c, In (Cycle c) gs -> cycleOk c.
Proof.
  assert (H : Forall isRecord
    (typed 1 SPEECH_START :: cyclePrefix
     ++ [doneWithUsage 5; created 6; typed 7 "response.cancelled"])).
  { repeat constructor; discriminate. }
  exact (conj H (groupEvents_cycles_follow_the_lifecycle _ H)).
Defined.

(** X5. In the output of [groupEvents] every response cycle comes right
    after the phase marker of its own start event: the group before a cycle
    is the [response] marker carrying the line number and the timestamp of the
    cycle's [response.created] event. *)
Theorem groupEvents_cycle_follows_its_marker (events : list ParsedLogLine) :
  Forall isRecord events ->
  exists gs,
    groupEvents events = Ok gs
    /\ forall a c b,
         gs = a ++ Cycle c :: b ->
         exists a', a = a' ++ [phaseOf response (startEvent c)].
Proof.
  intros Hall. destruct (groupEvents_shape events Hall) as (gs & Hg & _ & Hm).
  exists gs. split; [exact Hg | exact Hm].
Qed.

Lemma groupEvents_cycle_follows_its_marker_witness :
  Forall isRecord (typed 1 SPEECH_START :: cyclePrefix
                   ++ [doneWithUsage 5; created 6; typed 7 "response.cancelled"])
  /\ exists gs,
       groupEvents (typed 1 SPEECH_START :: cyclePrefix
                    ++ [doneWithUsage 5; created 6; typed 7 "response.cancelled"])
       = Ok gs
       /\ forall a c b,
            gs = a ++ Cycle c :: b ->
            exists a', a = a' ++ [phaseOf response (startEvent c)].
Proof.
  assert (H : Forall isRecord
    (typed 1 SPEECH_START :: cyclePrefix
     ++ [doneWithUsage 5; created 6; typed 7 "response.cancelled"])).
  { repeat constructor; discriminate. }
  exact (conj H (groupEvents_cycle_follows_its_marker _ H)).
Defined.

(** ** One cycle for each response start *)

Lemma cyclesOf_app (a b : list EventGroup) :
  cyclesOf (a ++ b) = cyclesOf a ++ cyclesOf b.
Proof. apply flat_map_app. Qed.

Lemma starts_emitted (st : State) (its : list Item) :
  map startEvent (cyclesOf (emitted st its)) = starts st.
Proof.
  unfold emitted, starts. destruct (currentCycle st) as [c|].
  - rewrite cyclesOf_app, map_app. reflexivity.
  - now rewrite app_nil_r.
Qed.

Lemma starts_closed (r gs : list EventGroup) :
  cyclesOf gs = [] ->
  starts (closedState (r ++ gs)) = map startEvent (cyclesOf r).
Proof.
  intros H. unfold starts. simpl. now rewrite cyclesOf_app, H, !app_nil_r.
Qed.

Lemma step_starts (st st' : State) (e : ParsedLogLine) :
  invBuf st -> stepCase st e st' ->
  starts st' = starts st ++ (if typeIs e RESPONSE_START then [e] else []).
Proof.
  intros Hbuf Hcase.
  assert (Hnone : currentCycle st = None ->
                  starts st = map startEvent (cyclesOf (result st))).
  { intros Hc. unfold starts. now rewrite Hc, app_nil_r. }
  destruct Hcase as [its Hs Hits -> | its Hs Hr Hits -> | c its Hs Hr He Hc Hits ->
                    | Hs Hr He Hc -> | c Hin Hc -> | Hin Hf Hc -> | Hin Hf Hc ->].
  - rewrite (typeIs_other e SPEECH_START RESPONSE_START Hs); [|discriminate].
    rewrite starts_closed, starts_emitted, app_nil_r; reflexivity.
  - rewrite Hr. unfold starts at 1. simpl.
    rewrite cyclesOf_app, map_app, starts_emitted. simpl.
    now rewrite app_nil_r.
  - rewrite Hr, app_nil_r. unfold starts. simpl. rewrite Hc.
    rewrite cyclesOf_app, map_app, app_nil_r. reflexivity.
  - rewrite Hr, app_nil_r, starts_closed, Hnone; auto.
  - rewrite (isInner_not_start e Hin), app_nil_r. reflexivity.
  - rewrite (isInner_not_start e Hin), app_nil_r, starts_closed, Hnone; auto.
  - rewrite (isInner_not_start e Hin), app_nil_r, starts_closed, Hnone; auto.
Qed.

Lemma loop_starts (events : list ParsedLogLine) (st : State) :
  inv st -> Forall isRecord events ->
  exists st',
    loop st events = Ok st' /\ inv st'
    /\ starts st'
       = starts st ++ List.filter (fun e => typeIs e RESPONSE_START) events.
Proof.
  revert st. induction events as [|e rest IH]; intros st Hinv Hall; simpl.
  - exists st. now rewrite app_nil_r.
  - apply Forall_cons in Hall as [He Hrest].
    destruct (step_inv st e Hinv He) as (st1 & Hs1 & Hcase).
    destruct (step_spec st e Hinv He) as (st2 & Hs2 & Hi2 & _).
    rewrite Hs1 in Hs2. injection Hs2 as <-. rewrite Hs1. simpl.
    destruct (IH st1 Hi2 Hrest) as (st' & Hl & Hi' & Hst).
    exists st'. split; [exact Hl|]. split; [exact Hi'|].
    rewrite Hst, (step_starts st st1 e (proj1 Hinv) Hcase), <- app_assoc.
    destruct (typeIs e RESPONSE_START); reflexivity.
Qed.

(** X6. [groupEvents] returns one response cycle for each [response.created]
    event of its input: the start events of the cycles of the output, in
    order, are the [response.created] events of the input, in order. No such
    event is ever emitted as a standalone group. *)
Theorem groupEvents_one_cycle_per_response_start (events : list ParsedLogLine) :
  Forall isRecord events ->
  exists gs,
    groupEvents events = Ok gs
    /\ map startEvent (cyclesOf gs)
       = List.filter (fun e => typeIs e RESPONSE_START) events
    /\ forall e, In (Standalone e) gs -> typeIs e RESPONSE_START = false.
Proof.
  intros Hall. destruct (groupEvents_shape events Hall) as (gs & Hg & Hwf & _).
  exists gs. split; [exact Hg|]. split.
  - destruct (loop_starts events initState inv_init Hall) as (st & Hl & Hinv & Hst).
    destruct (flushCycle_emitted st (proj1 Hinv)) as (its & Hits & Hfl).
    unfold groupEvents in Hg. rewrite Hl in Hg. simpl in Hg.
    rewrite Hfl in Hg. simpl in Hg. injection Hg as <-.
    rewrite starts_emitted, Hst. reflexivity.
  - intros e Hin. rewrite List.Forall_forall in Hwf. exact (Hwf _ Hin).
Qed.

Lemma groupEvents_one_cycle_per_response_start_witness :
  Forall isRecord (typed 1 SPEECH_START :: cyclePrefix
                   ++ [doneWithUsage 5; created 6; typed 7 "response.cancelled"])
  /\ exists gs,
       groupEvents (typed 1 SPEECH_START :: cyclePrefix
                    ++ [doneWithUsage 5; created 6; typed 7 "response.cancelled"])
       = Ok gs
       /\ map startEvent (cyclesOf gs)
          = List.filter (fun e => typeIs e RESPONSE_START)
              (typed 1 SPEECH_START :: cyclePrefix
               ++ [doneWithUsage 5; created 6; typed 7 "response.cancelled"])
       /\ forall e, In (Standalone e) gs -> typeIs e RESPONSE_START = false.
Proof.
  assert (H : Forall isRecord
    (typed 1 SPEECH_START :: cyclePrefix
     ++ [doneWithUsage 5; created 6; typed 7 "response.cancelled"])).
  { repeat constructor; discriminate. }
  exact (conj H (groupEvents_one_cycle_per_response_start _ H)).
Defined.

End GroupingShape.

Module GroupingEdges.

Import GroupEvents Props Shape GroupEventsFacts ListFacts GroupingSteps
       GroupingShape Samples.

#[local] Arguments js_get_opt : simpl never.
#[local] Arguments truthy : simpl never.

(** A list of lines holds event records only, or has a first [null] event. *)
Lemma first_null (events : list ParsedLogLine) :
  Forall isRecord events
  \/ exists pre e post,
       events = pre ++ e :: post /\ Forall isRecord pre /\ event e = JNull.
Proof.
  induction events as [|e rest [IH|(pre & x & post & -> & Hpre & Hx)]].
  - left. constructor.
  - destruct (event e) as [| b | m x | s | l | f] eqn:He;
      try (left; constructor; [unfold isRecord; rewrite He; discriminate | exact IH]).
    right. exists [], e, rest. auto.
  - destruct (event e) as [| b | m y | s | l | f] eqn:He;
      try (right; exists (e :: pre), x, post; split; [reflexivity|];
           split; [constructor; [unfold isRecord; rewrite He; discriminate | exact Hpre]
                  | exact Hx]).
    right. exists [], e, (pre ++ x :: post). auto.
Qed.

Lemma step_null (st : State) (e : ParsedLogLine) :
  event e = JNull -> step st e = Throw TypeError.
Proof. intros He. unfold step. rewrite He. reflexivity. Qed.

(** X7. [groupEvents] throws exactly when one of the lines carries the event
    [null], and then with a [TypeError], raised when the type of that event is
    read; on any other input it returns. *)
Theorem groupEvents_throws_exactly_on_a_null_event (events : list ParsedLogLine) :
  match groupEvents events with
  | Ok _ => Forall isRecord events
  | Throw err =>
      err = TypeError /\ Exists (fun e => event e = JNull) events
  end.
Proof.
  destruct (first_null events) as [Hall|(pre & e & post & -> & Hpre & He)].
  - destruct (groupEvents_flatten events Hall) as (gs & -> & _). exact Hall.
  - destruct (loop_spec pre initState inv_init Hpre) as (st & Hl & _).
    unfold groupEvents. rewrite loop_app, Hl. simpl.
    rewrite (step_null st e He). simpl. split; [reflexivity|].
    apply Exists_app. right. now constructor.
Qed.

(** ** Phase markers *)

Lemma loop_markers (events : list ParsedLogLine) (st : State) :
  inv st -> Forall isRecord events ->
  exists st',
    loop st events = Ok st' /\ inv st'
    /\ phaseMarkers (result st')
       = phaseMarkers (result st) ++ markersRun (isOpen st) events.
Proof.
  revert st. induction events as [|e rest IH]; intros st Hinv Hall; simpl.
  - exists st. now rewrite app_nil_r.
  - apply Forall_cons in Hall as [He Hrest].
    destruct (step_spec st e Hinv He) as (st1 & -> & Hi1 & _ & _ & Hm1 & Ho1).
    simpl. destruct (IH st1 Hi1 Hrest) as (st' & Hl & Hi' & Hm').
    exists st'. split; [exact Hl|]. split; [exact Hi'|].
    now rewrite Hm', Hm1, Ho1, <- app_assoc.
Qed.

Lemma groupEvents_markers (events : list ParsedLogLine) :
  Forall isRecord events ->
  exists gs,
    groupEvents events = Ok gs /\ phaseMarkers gs = markersRun false events.
Proof.
  intros Hall.
  destruct (loop_markers events initState inv_init Hall) as (st & Hl & Hinv & Hm).
  destruct (flushCycle_spec st (proj1 Hinv)) as (st' & Hfl & _ & _ & _ & Hpm & _).
  exists (result st'). unfold groupEvents. rewrite Hl. simpl. rewrite Hfl. simpl.
  split; [reflexivity|]. now rewrite Hpm, Hm.
Qed.

Lemma markersOf_starts (open : bool) (e : ParsedLogLine) :
  List.filter (fun p => negb (isCallMarker p)) (markersOf open e) = startMarker e.
Proof.
  unfold markersOf, startMarker, typeIs, typeOf.
  destruct (is_str _ SPEECH_START); [reflexivity|].
  destruct (is_str _ RESPONSE_START); [reflexivity|].
  destruct (is_str _ "response.done" || is_str _ "response.cancelled");
    [reflexivity|].
  destruct (is_str _ FUNCTION_CALL); [|reflexivity].
  destruct open; reflexivity.
Qed.

Lemma markersRun_starts (events : list ParsedLogLine) (open : bool) :
  List.filter (fun p => negb (isCallMarker p)) (markersRun open events)
  = flat_map startMarker events.
Proof.
  revert open. induction events as [|e rest IH]; intros open; simpl;
    [reflexivity|].
  now rewrite List.filter_app, markersOf_starts, IH.
Qed.

Lemma markersOf_calls (open : bool) (e : ParsedLogLine) (p : PhaseMarker) :
  In p (markersOf open e) -> isCallMarker p = true ->
  typeIs e FUNCTION_CALL = true /\ p = markerOf function_call e.
Proof.
  unfold markersOf, typeIs, typeOf.
  destruct (is_str _ SPEECH_START); [intros [<-|[]]; discriminate|].
  destruct (is_str _ RESPONSE_START); [intros [<-|[]]; discriminate|].
  destruct (is_str _ "response.done" || is_str _ "response.cancelled");
    [intros []|].
  destruct (is_str _ FUNCTION_CALL); [|intros []].
  destruct open; [intros []|]. intros [<-|[]]. auto.
Qed.

Lemma markersRun_calls (events : list ParsedLogLine) (open : bool)
    (p : PhaseMarker) :
  In p (markersRun open events) -> isCallMarker p = true ->
  exists e,
    In e events /\ typeIs e FUNCTION_CALL = true /\ p = markerOf function_call e.
Proof.
  revert open. induction events as [|e rest IH]; intros open; simpl; [intros []|].
  intros [Hin|Hin]%in_app_or Hp.
  - exists e. split; [now left|]. eapply markersOf_calls; eauto.
  - destruct (IH _ Hin Hp) as (x & Hx & H). exists x. split; [now right|exact H].
Qed.

(** X8. The phase markers of the output of [groupEvents]. Every
    [input_audio_buffer.speech_started] event and every [response.created]
    event of the input gives one marker, of type [speech] and [response], with
    the line number and the timestamp of the event, and these markers are in
    the order of the input; the only other markers are of type
    [function_call], each carrying the line number and the timestamp of a
    [response.function_call_arguments.done] event of the input. *)
Theorem groupEvents_marks_every_speech_and_response_start
    (events : list ParsedLogLine) :
  Forall isRecord events ->
  exists gs,
    groupEvents events = Ok gs
    /\ List.filter (fun p => negb (isCallMarker p)) (phaseMarkers gs)
       = flat_map startMarker events
    /\ forall p,
         In p (phaseMarkers gs) -> isCallMarker p = true ->
         exists e,
           In e events /\ typeIs e FUNCTION_CALL = true
           /\ p = markerOf function_call e.
Proof.
  intros Hall. destruct (groupEvents_markers events Hall) as (gs & Hg & Hm).
  exists gs. split; [exact Hg|]. rewrite Hm. split.
  - apply markersRun_starts.
  - apply markersRun_calls.
Qed.

Lemma groupEvents_marks_every_speech_and_response_start_witness :
  Forall isRecord (typed 1 SPEECH_START :: typed 2 FUNCTION_CALL :: cyclePrefix
                   ++ [typed 5 FUNCTION_CALL; doneWithUsage 6])
  /\ exists gs,
       groupEvents (typed 1 SPEECH_START :: typed 2 FUNCTION_CALL :: cyclePrefix
                    ++ [typed 5 FUNCTION_CALL; doneWithUsage 6]) = Ok gs
       /\ List.filter (fun p => negb (isCallMarker p)) (phaseMarkers gs)
          = flat_map startMarker
              (typed 1 SPEECH_START :: typed 2 FUNCTION_CALL :: cyclePrefix
               ++ [typed 5 FUNCTION_CALL; doneWithUsage 6])
       /\ forall p,
            In p (phaseMarkers gs) -> isCallMarker p = true ->
            exists e,
              In e (typed 1 SPEECH_START :: typed 2 FUNCTION_CALL :: cyclePrefix
                    ++ [typed 5 FUNCTION_CALL; doneWithUsage 6])
              /\ typeIs e FUNCTION_CALL = true
              /\ p = markerOf function_call e.
Proof.
  assert (H : Forall isRecord
    (typed 1 SPEECH_START :: typed 2 FUNCTION_CALL :: cyclePrefix
     ++ [typed 5 FUNCTION_CALL; doneWithUsage 6])).
  { repeat constructor; discriminate. }
  exact (conj H (groupEvents_marks_every_speech_and_response_start _ H)).
Defined.

(** ** Events that close, interrupt or join a cycle *)

Lemma typeIs_hasType (e : ParsedLogLine) (ty : string) :
  hasType e ty -> typeIs e ty = true.
Proof.
  intros H. unfold typeIs, typeOf.
  pose proof (js_get_record e "type" (hasType_record _ _ H)) as Hr.
  unfold hasType in H. rewrite H in Hr. injection Hr as <-.
  simpl. apply String.eqb_refl.
Qed.

Lemma step_state (st st1 : State) (e : ParsedLogLine) :
  inv st -> step st e = Ok st1 -> stepCase st e st1.
Proof.
  intros Hinv Hs.
  destruct (step_inv st e Hinv (step_ok_record _ _ _ Hs)) as (s & Hs' & Hcase).
  rewrite Hs in Hs'. now injection Hs' as <-.
Qed.

Lemma isInner_cases (e : ParsedLogLine) :
  isInner e = true ->
  typeIs e SPEECH_START = false /\ typeIs e RESPONSE_START = false
  /\ isEnd e = false.
Proof.
  unfold isInner.
  destruct (typeIs e SPEECH_START), (typeIs e RESPONSE_START), (isEnd e); auto.
Qed.

(** X9. Let a [response.cancelled] event [e] arrive after any prefix [pre] of
    the input. If a cycle is open, the output continues with that cycle
    closed: [e] is its end event and its last item, and it has no token usage,
    whatever the payload of [e] holds. If no cycle is open, [e] is emitted as
    a standalone event. *)
Theorem response_cancelled_closes_without_usage
    (pre post : list ParsedLogLine) (e : ParsedLogLine) (st : State) :
  hasType e "response.cancelled" ->
  Forall isRecord post ->
  loop initState pre = Ok st ->
  match currentCycle st with
  | Some c =>
      exists its rest,
        aggregateDeltaEvents (cycleEvents st ++ [e]) = Ok its
        /\ groupEvents (pre ++ e :: post)
           = Ok (result st
                 ++ Cycle {| responseId := responseId c;
                             startEvent := startEvent c;
                             endEvent := Some e;
                             items := its;
                             tokenUsage := None |} :: rest)
  | None =>
      exists rest,
        groupEvents (pre ++ e :: post) = Ok (result st ++ Standalone e :: rest)
  end.
Proof.
  intros Hty Hpost Hpre.
  pose proof (loop_ok_inv _ _ _ inv_init Hpre) as Hinv.
  pose proof (typeIs_hasType _ _ Hty) as Hc.
  assert (Hnd : typeIs e "response.done" = false).
  { apply (typeIs_other e "response.cancelled"); [exact Hc|discriminate]. }
  assert (Hend : isEnd e = true) by (unfold isEnd; now rewrite Hc, orb_true_r).
  destruct (step_inv st e Hinv (hasType_record _ _ Hty)) as (st1 & Hs & Hcase).
  destruct (groupEvents_after pre post e st st1 Hpre Hs Hpost) as [rest Hg].
  destruct Hcase as [its H1 Hits -> | its H1 H2 Hits -> | c its H1 H2 H3 Hcur Hits ->
                    | H1 H2 H3 Hcur -> | c Hin Hcur -> | Hin Hf Hcur -> | Hin Hf Hcur ->];
    try (rewrite (typeIs_other e "response.cancelled" _ Hc) in *; discriminate);
    try (apply isInner_cases in Hin as (_ & _ & Hin); congruence).
  - rewrite Hcur. exists its, rest. split; [exact Hits|].
    rewrite Hg. simpl. rewrite <- app_assoc. unfold endedBy, usageAt.
    rewrite Hnd. reflexivity.
  - rewrite Hcur. exists rest. rewrite Hg. simpl. now rewrite <- app_assoc.
Qed.

(** A cancelled marker that carries a usage object closes the sample cycle
    with no token usage. *)
Lemma response_cancelled_closes_without_usage_witness :
  hasType (line 5 (JObj [("type", JStr "response.cancelled");
                         ("response", JObj [("usage", JObj [("total_tokens", JNum 7 0)])])]))
          "response.cancelled"
  /\ exists its rest,
       groupEvents (cyclePrefix
                    ++ line 5 (JObj [("type", JStr "response.cancelled");
                                     ("response",
                                      JObj [("usage", JObj [("total_tokens", JNum 7 0)])])])
                       :: [])
       = Ok ([phaseOf response (created 1)]
             ++ Cycle {| responseId := Some (JStr "resp_1");
                         startEvent := created 1;
                         endEvent :=
                           Some (line 5 (JObj [("type", JStr "response.cancelled");
                                               ("response",
                                                JObj [("usage",
                                                       JObj [("total_tokens", JNum 7 0)])])]));
                         items := its;
                         tokenUsage := None |} :: rest).
Proof.
  split; [reflexivity|].
  destruct (loop initState cyclePrefix) as [st|] eqn:Hl; [|discriminate].
  pose proof (response_cancelled_closes_without_usage cyclePrefix []
                (line 5 (JObj [("type", JStr "response.cancelled");
                               ("response",
                                JObj [("usage", JObj [("total_tokens", JNum 7 0)])])]))
                st eq_refl (List.Forall_nil isRecord) Hl) as H.
  vm_compute in Hl. injection Hl as <-. cbn [currentCycle] in H.
  destruct H as (its & rest & _ & Hg). exists its, rest. exact Hg.
Defined.

(** X10. A [response.function_call_arguments.done] event [e] arriving after
    any prefix [pre] of the input gives a phase marker only when no cycle is
    open: then the output continues with the [function_call] marker of [e]
    and [e] as a standalone event. While a cycle is open, [e] only joins the
    pending buffer of that cycle, and the phase markers of the output are
    those of the output on the input without [e]. *)
Theorem function_call_is_marked_only_outside_a_cycle
    (pre post : list ParsedLogLine) (e : ParsedLogLine) (st : State) :
  hasType e FUNCTION_CALL ->
  Forall isRecord post ->
  loop initState pre = Ok st ->
  if isOpen st then
    loop initState (pre ++ [e]) = Ok (pushCycleEvent st e)
    /\ exists gs gs',
         groupEvents (pre ++ e :: post) = Ok gs
         /\ groupEvents (pre ++ post) = Ok gs'
         /\ phaseMarkers gs = phaseMarkers gs'
  else
    exists rest,
      groupEvents (pre ++ e :: post)
      = Ok (result st ++ phaseOf function_call e :: Standalone e :: rest).
Proof.
  intros Hty Hpost Hpre.
  pose proof (loop_ok_inv _ _ _ inv_init Hpre) as Hinv.
  pose proof (typeIs_hasType _ _ Hty) as Hc.
  pose proof (hasType_record _ _ Hty) as He.
  destruct (step_spec st e Hinv He) as (st1 & Hs & Hi1 & _ & _ & Hm1 & Ho1).
  pose proof (step_state st st1 e Hinv Hs) as Hcase.
  destruct (groupEvents_after pre post e st st1 Hpre Hs Hpost) as [rest Hg].
  unfold isOpen in *.
  destruct Hcase as [its H1 Hits -> | its H1 H2 Hits -> | c its H1 H2 H3 Hcur Hits ->
                    | H1 H2 H3 Hcur -> | c Hin Hcur -> | Hin Hf Hcur -> | Hin Hf Hcur ->];
    try (rewrite (typeIs_other e FUNCTION_CALL _ Hc) in *; discriminate);
    try (unfold isEnd in H3;
         rewrite !(typeIs_other e FUNCTION_CALL _ Hc) in H3; discriminate);
    try congruence.
  - rewrite Hcur in *. split.
    + rewrite loop_app, Hpre. simpl. rewrite Hs. reflexivity.
    + assert (Hm : phaseMarkers (result (pushCycleEvent st e))
                   = phaseMarkers (result st)) by reflexivity.
      assert (Ho : isOpen (pushCycleEvent st e) = isOpen st) by reflexivity.
      destruct (SpeechStopped.loop_same_markers post _ st Hi1 Hinv Ho Hpost)
        as (s1' & s2' & ms & Hl1 & Hl2 & Hk1 & Hk2 & _ & Hp1 & Hp2).
      destruct (flushCycle_spec s1' (proj1 Hk1)) as (f1 & Hf1 & _ & _ & _ & Hq1 & _).
      destruct (flushCycle_spec s2' (proj1 Hk2)) as (f2 & Hf2 & _ & _ & _ & Hq2 & _).
      exists (result f1), (result f2). unfold groupEvents.
      rewrite !loop_app, Hpre. simpl. rewrite Hs. simpl.
      rewrite Hl1, Hl2. simpl. rewrite Hf1, Hf2. simpl.
      repeat split. now rewrite Hq1, Hq2, Hp1, Hp2, Hm.
  - rewrite Hcur. exists rest. rewrite Hg. simpl. now rewrite <- app_assoc.
Qed.

Lemma function_call_is_marked_only_outside_a_cycle_witness :
  (loop initState (cyclePrefix ++ [typed 5 FUNCTION_CALL])
   = Ok {| result := [phaseOf response (created 1)];
           currentCycle := Some (openedBy (created 1));
           cycleEvents := cyclePrefix ++ [typed 5 FUNCTION_CALL] |}
   /\ exists gs gs',
        groupEvents (cyclePrefix ++ typed 5 FUNCTION_CALL :: [doneWithUsage 6]) = Ok gs
        /\ groupEvents (cyclePrefix ++ [doneWithUsage 6]) = Ok gs'
        /\ phaseMarkers gs = phaseMarkers gs')
  /\ exists rest,
       groupEvents ([] ++ typed 1 FUNCTION_CALL :: [typed 2 "response.text.done"])
       = Ok ([] ++ phaseOf function_call (typed 1 FUNCTION_CALL)
                :: Standalone (typed 1 FUNCTION_CALL) :: rest).
Proof.
  split.
  - destruct (loop initState cyclePrefix) as [st|] eqn:Hl; [|discriminate].
    assert (Hpost : Forall isRecord [doneWithUsage 6]).
    { repeat constructor; discriminate. }
    pose proof (function_call_is_marked_only_outside_a_cycle
                  cyclePrefix [doneWithUsage 6] (typed 5 FUNCTION_CALL) st
                  eq_refl Hpost Hl) as H.
    vm_compute in Hl. injection Hl as <-. exact H.
  - assert (Hpost : Forall isRecord [typed 2 "response.text.done"]).
    { repeat constructor; discriminate. }
    exact (function_call_is_marked_only_outside_a_cycle
             [] [typed 2 "response.text.done"] (typed 1 FUNCTION_CALL) initState
             eq_refl Hpost eq_refl).
Defined.

(** X11. A cycle that is still open is never lost, and is emitted without an
    end event. If the cycle [c] is open after the prefix [pre], then it has no
    end event and no token usage; at the end of the input it is the last group
    of the output, its items being the aggregated pending buffer; and a
    speech start or another response start arriving next pushes it in the
    same way before its own marker. *)
Theorem open_cycle_is_emitted_without_an_end
    (pre : list ParsedLogLine) (st : State) (c : ResponseCycle) :
  loop initState pre = Ok st ->
  currentCycle st = Some c ->
  exists its,
    aggregateDeltaEvents (cycleEvents st) = Ok its
    /\ endEvent c = None /\ tokenUsage c = None
    /\ groupEvents pre
       = Ok (result st
             ++ [Cycle {| responseId := responseId c;
                          startEvent := startEvent c;
                          endEvent := None;
                          items := its;
                          tokenUsage := None |}])
    /\ forall e post,
         isRecord e -> Forall isRecord post ->
         (typeIs e SPEECH_START = true ->
          exists rest,
            groupEvents (pre ++ e :: post)
            = Ok (result st
                  ++ Cycle {| responseId := responseId c;
                              startEvent := startEvent c;
                              endEvent := None;
                              items := its;
                              tokenUsage := None |}
                     :: phaseOf speech e :: Standalone e :: rest))
         /\ (typeIs e RESPONSE_START = true ->
             exists rest,
               groupEvents (pre ++ e :: post)
               = Ok (result st
                     ++ Cycle {| responseId := responseId c;
                                 startEvent := startEvent c;
                                 endEvent := None;
                                 items := its;
                                 tokenUsage := None |}
                        :: phaseOf response e :: rest)).
Proof.
  intros Hpre Hcur.
  pose proof (loop_ok_inv _ _ _ inv_init Hpre) as Hinv.
  destruct (proj2 Hinv c Hcur) as [Hend Huse].
  destruct (flushCycle_emitted st (proj1 Hinv)) as (its & Hits & Hfl).
  assert (Hem : emitted st its
                = result st ++ [Cycle {| responseId := responseId c;
                                         startEvent := startEvent c;
                                         endEvent := None;
                                         items := its;
                                         tokenUsage := None |}]).
  { unfold emitted, withItems. now rewrite Hcur, Hend, Huse. }
  exists its. split; [exact Hits|]. split; [exact Hend|]. split; [exact Huse|].
  split.
  - unfold groupEvents. rewrite Hpre. simpl. rewrite Hfl. simpl. now rewrite Hem.
  - intros e post He Hpost.
    destruct (step_inv st e Hinv He) as (st1 & Hs & Hcase).
    destruct (groupEvents_after pre post e st st1 Hpre Hs Hpost) as [rest Hg].
    split; intros Hty.
    + destruct Hcase as [its' H1 Hits' -> | its' H1 H2 Hits' -> | c' its' H1 H2 H3 Hc' Hits' ->
                        | H1 H2 H3 Hc' -> | c' Hin Hc' -> | Hin Hf Hc' -> | Hin Hf Hc' ->];
        try congruence;
        try (apply isInner_cases in Hin as (E1 & _ & _); congruence).
      rewrite Hits in Hits'. injection Hits' as <-.
      exists rest. rewrite Hg. simpl. rewrite Hem, <- !app_assoc. reflexivity.
    + destruct Hcase as [its' H1 Hits' -> | its' H1 H2 Hits' -> | c' its' H1 H2 H3 Hc' Hits' ->
                        | H1 H2 H3 Hc' -> | c' Hin Hc' -> | Hin Hf Hc' -> | Hin Hf Hc' ->];
        try congruence;
        try (apply isInner_cases in Hin as (_ & E2 & _); congruence).
      * rewrite (typeIs_other e SPEECH_START RESPONSE_START H1) in Hty;
          [discriminate|discriminate].
      * rewrite Hits in Hits'. injection Hits' as <-.
        exists rest. rewrite Hg. simpl. rewrite Hem, <- !app_assoc. reflexivity.
Qed.

Lemma open_cycle_is_emitted_without_an_end_witness :
  exists its,
    aggregateDeltaEvents cyclePrefix = Ok its
    /\ groupEvents cyclePrefix
       = Ok ([phaseOf response (created 1)]
             ++ [Cycle {| responseId := Some (JStr "resp_1");
                          startEvent := created 1;
                          endEvent := None;
                          items := its;
                          tokenUsage := None |}]).
Proof.
  destruct (open_cycle_is_emitted_without_an_end cyclePrefix
              {| result := [phaseOf response (created 1)];
                 currentCycle := Some (openedBy (created 1));
                 cycleEvents := cyclePrefix |}
              (openedBy (created 1)) eq_refl eq_refl)
    as (its & Hits & _ & _ & Hg & _).
  exists its. split; [exact Hits | exact Hg].
Defined.

End GroupingEdges.

Module CycleCardFacts.

Import GroupEvents Props Shape CycleCard StatsShape GroupEventsFacts
       AggregationShape GroupingShape Samples.

#[local] Arguments js_get_opt : simpl never.

Lemma fold_left_add {A : Type} (f : A -> nat) (l : list A) (n : nat) :
  fold_left (fun sum x => sum + f x) l n = n + list_sum (map f l).
Proof.
  revert n. induction l as [|x l IH]; intros n; simpl; [lia|].
  rewrite IH. lia.
Qed.

Lemma totalEvents_flatten (c : ResponseCycle) :
  totalEvents c = length (flattenItems (items c)).
Proof.
  unfold totalEvents.
  assert (H : forall l n,
    fold_left (fun sum item =>
                 match item with
                 | ItemGroup g => sum + length (events g)
                 | ItemEvent _ => sum + 1
                 end) l n
    = n + length (flattenItems l)).
  { clear. induction l as [|it l IH]; intros n; simpl; [unfold flattenItems; simpl; lia|].
    rewrite IH. unfold flattenItems. simpl. rewrite length_app.
    destruct it as [e|g]; simpl; lia. }
  now rewrite H.
Qed.

Lemma shownEvents_members (g : EventGroup) :
  shownEvents g = length (groupMembers g).
Proof. destruct g as [p|c|e]; simpl; [reflexivity|apply totalEvents_flatten|reflexivity]. Qed.

Lemma shownEvents_sum (gs : list EventGroup) :
  list_sum (map shownEvents gs) = length (flatten gs).
Proof.
  unfold flatten. induction gs as [|g gs IH]; simpl; [reflexivity|].
  now rewrite length_app, IH, shownEvents_members.
Qed.

(** X12. The event totals shown add up. The total of a response cycle card
    is the number of events its items stand for, and over the output of
    [groupEvents] the totals of the cycles and one for each standalone event
    sum to the number of events of the input. *)
Theorem event_totals_add_up_to_the_input (events : list ParsedLogLine) :
  Forall isRecord events ->
  exists gs,
    groupEvents events = Ok gs
    /\ (forall c, In (Cycle c) gs ->
          totalEvents c = length (flattenItems (items c)))
    /\ list_sum (map shownEvents gs) = length events.
Proof.
  intros Hall. destruct (groupEvents_flatten events Hall) as (gs & Hg & Hflat).
  exists gs. split; [exact Hg|]. split.
  - intros c _. apply totalEvents_flatten.
  - now rewrite shownEvents_sum, Hflat.
Qed.

Lemma event_totals_add_up_to_the_input_witness :
  Forall isRecord (typed 1 SPEECH_START :: cyclePrefix
                   ++ [doneWithUsage 5; typed 6 SPEECH_STOP])
  /\ exists gs,
       groupEvents (typed 1 SPEECH_START :: cyclePrefix
                    ++ [doneWithUsage 5; typed 6 SPEECH_STOP]) = Ok gs
       /\ (forall c, In (Cycle c) gs ->
             totalEvents c = length (flattenItems (items c)))
       /\ list_sum (map shownEvents gs) = 7.
Proof.
  assert (H : Forall isRecord
    (typed 1 SPEECH_START :: cyclePrefix
     ++ [doneWithUsage 5; typed 6 SPEECH_STOP])).
  { repeat constructor; discriminate. }
  exact (conj H (event_totals_add_up_to_the_input _ H)).
Defined.

(** ** The audio of a cycle *)

Lemma typeIs_isDelta (e : ParsedLogLine) (ty : string) :
  typeIs e ty = true -> isDelta e = isDeltaEvent ty.
Proof.
  unfold typeIs, isDelta, is_str.
  destruct (typeOf e) as [[| b | m x | s | l | f]|]; try discriminate.
  now intros ->%String.eqb_eq.
Qed.

Lemma typeIs_of_hasType (e : ParsedLogLine) (ty ty' : string) :
  hasType e ty -> typeIs e ty' = String.eqb ty ty'.
Proof.
  intros H. unfold typeIs, typeOf.
  pose proof (js_get_record e "type" (hasType_record _ _ H)) as Hr.
  unfold hasType in H. rewrite H in Hr. injection Hr as <-. reflexivity.
Qed.

Lemma filter_all {A : Type} (f : A -> bool) (l : list A) :
  Forall (fun x => f x = true) l -> List.filter f l = l.
Proof.
  induction l as [|x l IH]; intros H; [reflexivity|].
  apply Forall_cons in H as [Hx Hl]. simpl. now rewrite Hx, IH.
Qed.

Lemma filter_none {A : Type} (f : A -> bool) (l : list A) :
  Forall (fun x => f x = false) l -> List.filter f l = [].
Proof.
  induction l as [|x l IH]; intros H; [reflexivity|].
  apply Forall_cons in H as [Hx Hl]. simpl. now rewrite Hx, IH.
Qed.

(** In items with maximal, well-formed runs the events of the audio groups
    are the audio delta events. *)
Lemma audio_of_items (its : list Item) :
  (forall e, In (ItemEvent e) its -> isDelta e = false) ->
  Forall itemOk its ->
  flat_map events
    (flat_map (fun item =>
                 match item with
                 | ItemGroup g =>
                     if String.eqb (eventType g) "response.audio.delta" then [g]
                     else []
                 | ItemEvent _ => []
                 end) its)
  = List.filter (fun e => typeIs e "response.audio.delta") (flattenItems its).
Proof.
  induction its as [|it its IH]; intros Hev Hok; [reflexivity|].
  apply Forall_cons in Hok as [Hit Hok].
  assert (IH' := IH (fun e H => Hev e (or_intror H)) Hok).
  unfold flattenItems in *. simpl. rewrite List.filter_app, <- IH'.
  destruct it as [e|g]; simpl.
  - destruct (typeIs e "response.audio.delta") eqn:Hty; [|reflexivity].
    specialize (Hev e (or_introl eq_refl)).
    rewrite (typeIs_isDelta _ _ Hty) in Hev. discriminate.
  - destruct Hit as (_ & Hall & _).
    destruct (String.eqb (eventType g) "response.audio.delta") eqn:Hg; simpl.
    + f_equal. symmetry. apply filter_all.
      eapply List.Forall_impl; [|exact Hall]. simpl. intros e He.
      now rewrite (typeIs_of_hasType _ _ _ He).
    + rewrite filter_none; [reflexivity|].
      eapply List.Forall_impl; [|exact Hall]. simpl. intros e He.
      now rewrite (typeIs_of_hasType _ _ _ He).
Qed.

Lemma totalChunks_length (groups : list DeltaGroup) :
  totalChunks groups = length (allAudioEvents groups).
Proof.
  unfold totalChunks, allAudioEvents. rewrite fold_left_add. simpl.
  induction groups as [|g l IH]; simpl; [reflexivity|].
  now rewrite length_app, IH.
Qed.

(** X13. The audio block of a response cycle gets all the audio of the
    cycle. For every cycle [groupEvents] returns, the events handed to
    [extractAudioFromDeltaGroup] at a [response.audio.done] item (the events
    of all the audio delta groups of the cycle) are exactly the
    [response.audio.delta] events of the cycle, each once and in the order of
    the input, and the chunk count shown is their number. *)
Theorem audio_block_gets_every_audio_delta_of_the_cycle
    (events : list ParsedLogLine) :
  Forall isRecord events ->
  exists gs,
    groupEvents events = Ok gs
    /\ forall c,
         In (Cycle c) gs ->
         allAudioEvents (audioDeltaGroups c)
         = List.filter (fun e => typeIs e "response.audio.delta")
             (flattenItems (items c))
         /\ totalChunks (audioDeltaGroups c)
            = length (List.filter (fun e => typeIs e "response.audio.delta")
                        (flattenItems (items c))).
Proof.
  intros Hall. destruct (groupEvents_shape events Hall) as (gs & Hg & Hwf & _).
  exists gs. split; [exact Hg|]. intros c Hin.
  rewrite List.Forall_forall in Hwf. destruct (Hwf _ Hin) as (_ & _ & Hagg & _).
  assert (E : allAudioEvents (audioDeltaGroups c)
              = List.filter (fun e => typeIs e "response.audio.delta")
                  (flattenItems (items c))).
  { apply audio_of_items.
    - apply (aggregate_max _ _ Hagg).
    - apply (aggregate_ok _ _ Hagg). }
  split; [exact E|]. now rewrite totalChunks_length, E.
Qed.

Lemma audio_block_gets_every_audio_delta_of_the_cycle_witness :
  Forall isRecord [created 1; typed 2 "response.audio.delta";
                   typed 3 "response.audio.delta"; textDelta 4 "Hi";
                   typed 5 "response.audio.delta"; typed 6 "response.audio.done";
                   doneWithUsage 7]
  /\ exists gs,
       groupEvents [created 1; typed 2 "response.audio.delta";
                    typed 3 "response.audio.delta"; textDelta 4 "Hi";
                    typed 5 "response.audio.delta"; typed 6 "response.audio.done";
                    doneWithUsage 7] = Ok gs
       /\ forall c,
            In (Cycle c) gs ->
            allAudioEvents (audioDeltaGroups c)
            = List.filter (fun e => typeIs e "response.audio.delta")
                (flattenItems (items c))
            /\ totalChunks (audioDeltaGroups c)
               = length (List.filter (fun e => typeIs e "response.audio.delta")
                           (flattenItems (items c))).
Proof.
  assert (H : Forall isRecord
    [created 1; typed 2 "response.audio.delta";
     typed 3 "response.audio.delta"; textDelta 4 "Hi";
     typed 5 "response.audio.delta"; typed 6 "response.audio.done";
     doneWithUsage 7]).
  { repeat constructor; discriminate. }
  exact (conj H (audio_block_gets_every_audio_delta_of_the_cycle _ H)).
Defined.

(** ** Statistics of the groups formed *)

Lemma memberText_total (e : ParsedLogLine) :
  isRecord e -> exists v, memberText e = Ok v.
Proof.
  intros He. unfold memberText.
  rewrite (js_get_record e "delta" He), (js_get_record e "transcript" He).
  simpl. eauto.
Qed.

Lemma mapRes_total (l : list ParsedLogLine) :
  Forall isRecord l -> exists vs, mapRes memberText l = Ok vs.
Proof.
  induction l as [|e l IH]; intros H; simpl; [eauto|].
  apply Forall_cons in H as [He Hl].
  destruct (memberText_total e He) as [v ->]. destruct (IH Hl) as [vs ->].
  simpl. eauto.
Qed.

Lemma isDeltaEvent_cases (ty : string) :
  isDeltaEvent ty = true ->
  ty = "response.audio.delta"
  \/ ty = "response.audio_transcript.delta"
  \/ ty = "response.text.delta"
  \/ ty = "response.function_call_arguments.delta"
  \/ ty = "conversation.item.input_audio_transcription.delta".
Proof.
  unfold isDeltaEvent. intros (x & Hin & ->%String.eqb_eq)%existsb_exists.
  simpl in Hin. intuition auto.
Qed.

(** A failed join comes from the conversion of one member text. *)
Lemma join_failure (ToString : json -> Res string)
    (members : list ParsedLogLine) (vs : list json) (err : JsError) :
  mapRes memberText members = Ok vs ->
  mapRes (joinText ToString) vs = Throw err ->
  Exists (fun e => exists v,
            memberText e = Ok v /\ (forall s, v <> JStr s)
            /\ ToString v = Throw err) members.
Proof.
  revert vs. induction members as [|e rest IH]; intros vs; simpl.
  - intros [= <-]. discriminate.
  - destruct (memberText e) as [v|] eqn:Hv; simpl; [|discriminate].
    destruct (mapRes memberText rest) as [vs'|] eqn:Hrest; simpl; [|discriminate].
    intros [= <-]. simpl.
    destruct (joinText ToString v) as [t|err'] eqn:Ht; simpl.
    + destruct (mapRes (joinText ToString) vs') as [ts|err'] eqn:Hj; simpl;
        [discriminate|].
      intros [= ->]. apply Exists_cons_tl. now apply (IH vs').
    + intros [= ->]. apply Exists_cons_hd. exists v. split; [exact Hv|].
      destruct v as [| b | m x | s | l | f]; simpl in Ht; try discriminate;
        (split; [discriminate|exact Ht]).
Qed.

(** X14. [getDeltaGroupStats] on the groups [aggregateDeltaEvents] forms.
    Every group among the items of a buffer of event records has at least one
    member. Whenever the statistics are returned, the count is the number of
    members and the aggregated text is absent exactly for the two delta types
    that carry no text, [response.audio.delta] and
    [response.function_call_arguments.delta]. They are returned for every
    group of these two types, and for every group whose members carry text
    fields (strings, or nothing). The only failure is in [join]: for a group
    of a text type, one of whose members has a delta-or-transcript value that
    is not a string and whose conversion to a string throws; the exception is
    the one of that conversion. *)
Theorem getDeltaGroupStats_on_aggregated_groups
    (ToString : json -> Res string) (buffer : list ParsedLogLine) :
  Forall isRecord buffer ->
  exists its,
    aggregateDeltaEvents buffer = Ok its
    /\ forall g,
         In (ItemGroup g) its ->
         1 <= length (events g)
         /\ (isTextBearing (eventType g) = false \/ Forall textual (events g) ->
             exists st, getDeltaGroupStats ToString g = Ok st)
         /\ match getDeltaGroupStats ToString g with
            | Ok st =>
                count st = length (events g)
                /\ (aggregatedText st = None
                    <-> eventType g = "response.audio.delta"
                        \/ eventType g = "response.function_call_arguments.delta")
            | Throw err =>
                isTextBearing (eventType g) = true
                /\ Exists (fun e => exists v,
                             memberText e = Ok v /\ (forall s, v <> JStr s)
                             /\ ToString v = Throw err) (events g)
            end.
Proof.
  intros Hall. destruct (aggregate_total buffer Hall) as [its Hits].
  exists its. split; [exact Hits|]. intros g Hin.
  pose proof (aggregate_ok _ _ Hits) as Hok.
  rewrite List.Forall_forall in Hok. destruct (Hok _ Hin) as (Hne & Hty & _).
  destruct (aggregate_max _ _ Hits) as (_ & Hd & _). specialize (Hd g Hin).
  assert (Hrec : Forall isRecord (events g)).
  { eapply List.Forall_impl; [|exact Hty]. intros e. apply hasType_record. }
  destruct (mapRes_total _ Hrec) as [vs Hvs].
  split; [destruct (events g); [contradiction|simpl; lia]|].
  split.
  - intros [Hnt|Htx].
    + unfold getDeltaGroupStats. rewrite Hnt. eauto.
    + destruct (isTextBearing (eventType g)) eqn:Htb.
      * rewrite (DeltaAggregation.stats_of_text_group ToString g Htb Hrec Htx).
        eauto.
      * unfold getDeltaGroupStats. rewrite Htb. eauto.
  - unfold getDeltaGroupStats. rewrite Hvs. unfold joinEmpty. simpl.
    destruct (mapRes (joinText ToString) vs) as [ts|err] eqn:Hj.
    + destruct (isDeltaEvent_cases _ Hd) as [E|[E|[E|[E|E]]]]; rewrite E; simpl;
        (split; [reflexivity|]);
        split; try discriminate; auto; intros [H|H]; discriminate.
    + destruct (isTextBearing (eventType g)) eqn:Htb; simpl.
      * split; [reflexivity|]. exact (join_failure ToString _ vs err Hvs Hj).
      * split; [reflexivity|].
        destruct (isDeltaEvent_cases _ Hd) as [E|[E|[E|[E|E]]]];
          rewrite E in Htb |- *; try discriminate Htb;
          split; auto.
Qed.

(** Two runs of the sample deltas and of audio deltas, and a run of text
    deltas one of which carries an object that converts to no string. *)
Lemma getDeltaGroupStats_on_aggregated_groups_witness :
  (exists its,
     aggregateDeltaEvents (fiveDeltas ++ [typed 7 "response.audio.delta";
                                          typed 8 "response.audio.delta"]) = Ok its
     /\ forall g,
          In (ItemGroup g) its ->
          exists st, getDeltaGroupStats
                       (HostRef.ToString HostRef.formatInteger) g = Ok st)
  /\ aggregateDeltaEvents [textDelta 1 "a"; oddDelta 2]
     = Ok [ItemGroup (runOf "response.text.delta" (textDelta 1 "a") (oddDelta 2)
                        [textDelta 1 "a"; oddDelta 2])]
  /\ getDeltaGroupStats (HostRef.ToString HostRef.formatInteger)
       (runOf "response.text.delta" (textDelta 1 "a") (oddDelta 2)
          [textDelta 1 "a"; oddDelta 2])
     = Throw TypeError.
Proof.
  assert (H : Forall isRecord
    (fiveDeltas ++ [typed 7 "response.audio.delta"; typed 8 "response.audio.delta"])).
  { repeat constructor; discriminate. }
  split; [|split; reflexivity].
  destruct (getDeltaGroupStats_on_aggregated_groups
              (HostRef.ToString HostRef.formatInteger) _ H) as (its & Hits & Hg).
  exists its. split; [exact Hits|]. intros g Hin.
  destruct (Hg g Hin) as (_ & Hret & _). apply Hret.
  vm_compute in Hits. injection Hits as <-.
  destruct Hin as [E|[E|[]]]; injection E as <-;
    [right; repeat constructor | left; reflexivity].
Defined.

End CycleCardFacts.

(* ===================================================================== *)
(** * Further properties of parse-log.ts *)
(* ===================================================================== *)

Module SessionFacts.

Import ParseLog Props LineGrammar Segments Shape SessionShape LogSamples
       GroupEventsFacts Segmenter.

#[local] Arguments js_get_opt : simpl never.
#[local] Open Scope string_scope.

Lemma sessionsOk_snoc (k : nat) (ss : list Session) (s : Session) :
  sessionsOk k (ss ++ [s]) <-> sessionsOk k ss /\ sessionOk (k + length ss) s.
Proof.
  revert k. induction ss as [|x ss IH]; intros k; simpl.
  - rewrite Nat.add_0_r. tauto.
  - rewrite IH. replace (S k + length ss) with (k + S (length ss)) by lia. tauto.
Qed.

Lemma sessionOk_push (k : nat) (s : Session) (parsed : ParsedLogLine) :
  isCreated parsed = false -> sessionOk k s -> sessionOk k (pushEvent parsed s).
Proof.
  intros Hp (Hid & e & rest & Hev & Hrest & Hst & Hf).
  split; [exact Hid|]. exists e, (rest ++ [parsed])%list. simpl.
  split; [now rewrite Hev|]. split; [|auto].
  apply Forall_app. split; [exact Hrest|]. now constructor.
Qed.

(** Placing a decoded line keeps the invariant and writes no warning. *)
Lemma place_pinv (st : PState) (parsed : ParsedLogLine) :
  pinv st -> isRecord parsed ->
  exists st',
    place st parsed = Ok st' /\ pinv st' /\ console st' = console st.
Proof.
  intros (Hlast & Hcount & Hok) Hrec.
  destruct (place_spec st parsed Hlast Hrec) as (st' & Hp & Hlast' & _ & Hcons).
  exists st'. split; [exact Hp|]. split; [|exact Hcons].
  split; [exact Hlast'|].
  unfold place in Hp. rewrite (js_get_record parsed "type" Hrec) in Hp.
  simpl in Hp.
  change (is_str (js_get_opt (Some (event parsed)) "type") "session.created")
    with (isCreated parsed) in Hp.
  destruct (isCreated parsed) eqn:Hc.
  - rewrite (js_get_record parsed "session" Hrec) in Hp. simpl in Hp.
    injection Hp as <-. simpl. split; [rewrite length_app; simpl; lia|].
    apply sessionsOk_snoc. split; [exact Hok|].
    rewrite Hcount. split; [reflexivity|]. simpl.
    exists parsed, []. rewrite Hc. auto 10.
  - unfold currentIsLast in Hlast.
    destruct (currentSession st) as [cur|] eqn:Hcur.
    + injection Hp as <-. simpl. split; [now rewrite length_alter|].
      destruct (sessions st) as [|s0 ss0] eqn:Hss using rev_ind;
        [discriminate|]. clear IHss0.
      rewrite length_app in Hlast. simpl in Hlast.
      assert (cur = length ss0) by lia. subst cur.
      rewrite alter_last. apply sessionsOk_snoc in Hok as [Hok0 Hs0].
      apply sessionsOk_snoc. split; [exact Hok0|].
      now apply sessionOk_push.
    + injection Hp as <-. simpl. rewrite Hlast in *. simpl in *.
      split; [lia|]. split; [|exact I]. rewrite Hcount.
      split; [reflexivity|]. simpl. exists parsed, []. rewrite Hc. auto 10.
Qed.

Lemma pinv_console (st : PState) (ws : list Warning) :
  pinv st ->
  pinv {| sessions := sessions st; currentSession := currentSession st;
          sessionCounter := sessionCounter st; console := ws |}.
Proof. intros H. exact H. Qed.

(** The loop on lines whose payloads are event records: it returns, keeps the
    invariant, appends the decoded lines to the sessions and the warnings of
    the lines to the console. *)
Lemma lineLoop_full (JSON_parse : string -> option json)
    (lines : list string) (i : nat) (st : PState) :
  pinv st -> Forall isRecord (decodedFrom JSON_parse i lines) ->
  exists st',
    lineLoop JSON_parse st i lines = Ok st' /\ pinv st'
    /\ console st' = (console st ++ warningsFrom JSON_parse i lines)%list.
Proof.
  revert i st. induction lines as [|l rest IH]; intros i st Hinv Hall; simpl.
  - exists st. now rewrite app_nil_r.
  - simpl in Hall. unfold lineStep.
    destruct (parseLogLine JSON_parse l (i + 1)) as [warned [parsed|]] eqn:E;
      simpl in Hall |- *.
    + apply Forall_cons in Hall as [Hrec Hrest].
      destruct (place_pinv _ parsed (pinv_console st (console st ++ warned) Hinv) Hrec)
        as (st2 & -> & Hi2 & Hc2).
      simpl. destruct (IH (S i) st2 Hi2 Hrest) as (st3 & -> & Hi3 & Hc3).
      exists st3. split; [reflexivity|]. split; [exact Hi3|].
      rewrite Hc3, Hc2. simpl. now rewrite <- app_assoc.
    + destruct (IH (S i) _ (pinv_console st (console st ++ warned) Hinv) Hall)
        as (st3 & -> & Hi3 & Hc3).
      exists st3. split; [reflexivity|]. split; [exact Hi3|].
      rewrite Hc3. simpl. now rewrite <- app_assoc.
Qed.

Lemma pinv_init : pinv initPState.
Proof. split; [reflexivity|]. split; [reflexivity|exact I]. Qed.

Lemma sessionsOk_nth (ss : list Session) (k j : nat) (s : Session) :
  sessionsOk k ss -> nth_error ss j = Some s -> sessionOk (k + j) s.
Proof.
  revert k j. induction ss as [|x ss IH]; intros k j Hok Hn.
  - now destruct j.
  - destruct Hok as [Hx Hrest]. destruct j as [|j]; simpl in Hn.
    + injection Hn as <-. now rewrite Nat.add_0_r.
    + replace (k + S j) with (S k + j) by lia. eapply IH; eauto.
Qed.

(** What a call that returns has done. *)
Lemma parseLogFile_full (JSON_parse : string -> option json)
    (content : string) (ss : list Session) :
  parseLogFile JSON_parse content = Ok ss ->
  Forall isRecord (decodedLines JSON_parse content)
  /\ allEvents ss = decodedLines JSON_parse content
  /\ sessionsOk 1 ss
  /\ parseLogFileWarnings JSON_parse content
     = Ok (warningsFrom JSON_parse 0 (splitLines content)).
Proof.
  intros H.
  assert (Hall : Forall isRecord (decodedLines JSON_parse content)).
  { apply parseLogFile_returns_iff. eauto. }
  split; [exact Hall|].
  destruct (parseLogFile_partitions_decoded_lines JSON_parse content Hall)
    as (ss' & H' & Hev & _).
  rewrite H in H'. injection H' as <-. split; [exact Hev|].
  unfold parseLogFile, parseLogFileWarnings, decodedLines in *.
  destruct (lineLoop_full JSON_parse (splitLines content) 0 initPState pinv_init Hall)
    as (st & Hl & (_ & _ & Hok) & Hc).
  rewrite Hl in *. simpl in *. injection H as <-. split; [exact Hok|].
  now rewrite Hc.
Qed.

(** X15. The sessions [parseLogFile] returns. The [k]-th session, counted
    from 1, has the id [session-k]. It holds at least one event, its start
    time is the timestamp of its first event, and no event after the first is
    a [session.created] event. If the first event is a [session.created]
    event, the session id, the model and the voice are read from its
    [session] object; if not, the session is the first one (the implicit
    session of the lines before the first start marker) and has no session
    id, model or voice. *)
Theorem parseLogFile_sessions_start_at_the_markers
    (JSON_parse : string -> option json) (content : string) (ss : list Session) :
  parseLogFile JSON_parse content = Ok ss ->
  forall k s, nth_error ss k = Some s -> sessionOk (S k) s.
Proof.
  intros H k s Hn.
  destruct (parseLogFile_full JSON_parse content ss H) as (_ & _ & Hok & _).
  exact (sessionsOk_nth ss 1 k s Hok Hn).
Qed.

Lemma parseLogFile_sessions_start_at_the_markers_witness :
  exists ss,
    parseLogFile JsonRef.JSON_parse sampleLog = Ok ss
    /\ length ss = 3
    /\ forall k s, nth_error ss k = Some s -> sessionOk (S k) s.
Proof.
  destruct (parseLogFile JsonRef.JSON_parse sampleLog) as [ss|] eqn:H;
    [|vm_compute in H; discriminate].
  exists ss. split; [reflexivity|]. split.
  - vm_compute in H. injection H as <-. reflexivity.
  - exact (parseLogFile_sessions_start_at_the_markers _ _ _ H).
Defined.

(** ** Failure *)

Lemma place_null (st : PState) (parsed : ParsedLogLine) :
  event parsed = JNull -> place st parsed = Throw TypeError.
Proof. intros H. unfold place. rewrite H. reflexivity. Qed.

Lemma isRecord_dec (e : ParsedLogLine) : isRecord e \/ event e = JNull.
Proof.
  unfold isRecord. destruct (event e); auto; left; discriminate.
Qed.

(** The loop either returns, every decoded line carrying an event record, or
    throws a [TypeError], a decoded line carrying [null]. *)
Lemma lineLoop_outcome (JSON_parse : string -> option json)
    (lines : list string) (i : nat) (st : PState) :
  currentIsLast st ->
  match lineLoop JSON_parse st i lines with
  | Ok _ => Forall isRecord (decodedFrom JSON_parse i lines)
  | Throw err =>
      err = TypeError
      /\ Exists (fun e => event e = JNull) (decodedFrom JSON_parse i lines)
  end.
Proof.
  revert i st. induction lines as [|l rest IH]; intros i st Hlast; simpl;
    [constructor|].
  unfold lineStep.
  destruct (parseLogLine JSON_parse l (i + 1)) as [warned [parsed|]] eqn:E; simpl.
  - set (st1 := {| sessions := sessions st; currentSession := currentSession st;
                   sessionCounter := sessionCounter st;
                   console := console st ++ warned |}).
    destruct (isRecord_dec parsed) as [Hrec|Hnull].
    + destruct (place_spec st1 parsed Hlast Hrec) as (st2 & -> & Hl2 & _).
      simpl. specialize (IH (S i) st2 Hl2).
      destruct (lineLoop JSON_parse st2 (S i) rest) as [st3|err].
      * now constructor.
      * destruct IH as [-> Hex]. split; [reflexivity|]. now apply Exists_cons_tl.
    + rewrite (place_null st1 parsed Hnull). simpl.
      split; [reflexivity|]. now apply Exists_cons_hd.
  - apply IH. exact Hlast.
Qed.

(** X16. The two outcomes of [parseLogFile]. Either it returns: then no
    decoded line carries the payload [null], the events of the sessions read
    in order are the decoded lines of the text, each once, and the line
    numbers of the events of each session increase strictly. Or it throws:
    then the exception is a [TypeError] and some line of the text decodes to
    the payload [null]. Nothing else makes it fail. *)
Theorem parseLogFile_returns_or_meets_a_null_payload
    (JSON_parse : string -> option json) (content : string) :
  match parseLogFile JSON_parse content with
  | Ok ss =>
      Forall isRecord (decodedLines JSON_parse content)
      /\ allEvents ss = decodedLines JSON_parse content
      /\ Forall (fun s => increasingFrom 0 (s_events s)) ss
  | Throw err =>
      err = TypeError
      /\ Exists (fun e => event e = JNull) (decodedLines JSON_parse content)
  end.
Proof.
  destruct (parseLogFile JSON_parse content) as [ss|err] eqn:H.
  - destruct (parseLogFile_full JSON_parse content ss H) as (Hall & Hev & _).
    split; [exact Hall|]. split; [exact Hev|].
    destruct (parseLogFile_partitions_decoded_lines JSON_parse content Hall)
      as (ss' & H' & _ & Hinc).
    rewrite H in H'. now injection H' as <-.
  - unfold parseLogFile in H.
    pose proof (lineLoop_outcome JSON_parse (splitLines content) 0 initPState
                  eq_refl) as Hout.
    destruct (lineLoop JSON_parse initPState 0 (splitLines content)) as [st|e];
      [discriminate|].
    simpl in H. injection H as <-. exact Hout.
Qed.

(** ** Line numbers *)

Lemma parseLogLine_fields (JSON_parse : string -> option json)
    (l : string) (n : nat) (p : ParsedLogLine) :
  snd (parseLogLine JSON_parse l n) = Some p -> rawLine p = l /\ lineNumber p = n.
Proof.
  unfold parseLogLine. cbv zeta.
  destruct (String.eqb (trim l) ""); simpl; [discriminate|].
  destruct (JSON_parse _); simpl; [|discriminate].
  intros [= <-]. auto.
Qed.

Lemma decodedFrom_In (JSON_parse : string -> option json)
    (lines : list string) (i : nat) (e : ParsedLogLine) :
  In e (decodedFrom JSON_parse i lines) ->
  exists j,
    lineNumber e = i + j + 1
    /\ nth_error lines j = Some (rawLine e)
    /\ snd (parseLogLine JSON_parse (rawLine e) (lineNumber e)) = Some e.
Proof.
  revert i. induction lines as [|l rest IH]; intros i; simpl; [intros []|].
  destruct (snd (parseLogLine JSON_parse l (i + 1))) as [p|] eqn:E.
  - intros [<-|Hin].
    + destruct (parseLogLine_fields _ _ _ _ E) as [Hr Hn].
      exists 0. rewrite Hr, Hn. simpl. split; [lia|]. split; [reflexivity|exact E].
    + destruct (IH _ Hin) as (j & Hn & Hl & Hp).
      exists (S j). split; [lia|]. split; [exact Hl|exact Hp].
  - intros Hin. destruct (IH _ Hin) as (j & Hn & Hl & Hp).
    exists (S j). split; [lia|]. split; [exact Hl|exact Hp].
Qed.

Lemma In_allEvents (ss : list Session) (s : Session) (e : ParsedLogLine) :
  In s ss -> In e (s_events s) -> In e (allEvents ss).
Proof.
  intros Hs He. unfold allEvents. apply in_concat.
  exists (s_events s). split; [|exact He]. now apply in_map.
Qed.

(** X17. The line number of an event is the place of its line in the text.
    Every event of every session [parseLogFile] returns has a line number
    [n >= 1]; the [n]-th line of the text, split at LF or CR LF, is its
    [rawLine], untrimmed; and the event is what [parseLogLine] returns for
    that line and that number. *)
Theorem parsed_events_point_at_their_lines
    (JSON_parse : string -> option json) (content : string) (ss : list Session) :
  parseLogFile JSON_parse content = Ok ss ->
  forall s e,
    In s ss -> In e (s_events s) ->
    1 <= lineNumber e
    /\ nth_error (splitLines content) (lineNumber e - 1) = Some (rawLine e)
    /\ snd (parseLogLine JSON_parse (rawLine e) (lineNumber e)) = Some e.
Proof.
  intros H s e Hs He.
  destruct (parseLogFile_full JSON_parse content ss H) as (_ & Hev & _).
  pose proof (In_allEvents ss s e Hs He) as Hin. rewrite Hev in Hin.
  destruct (decodedFrom_In _ _ _ _ Hin) as (j & Hn & Hl & Hp).
  split; [lia|]. split; [|exact Hp].
  replace (lineNumber e - 1) with j by lia. exact Hl.
Qed.

Lemma parsed_events_point_at_their_lines_witness :
  exists ss,
    parseLogFile JsonRef.JSON_parse sampleLog = Ok ss
    /\ forall s e,
         In s ss -> In e (s_events s) ->
         1 <= lineNumber e
         /\ nth_error (splitLines sampleLog) (lineNumber e - 1) = Some (rawLine e)
         /\ snd (parseLogLine JsonRef.JSON_parse (rawLine e) (lineNumber e)) = Some e.
Proof.
  destruct (parseLogFile JsonRef.JSON_parse sampleLog) as [ss|] eqn:H;
    [|vm_compute in H; discriminate].
  exists ss. split; [reflexivity|].
  exact (parsed_events_point_at_their_lines _ _ _ H).
Defined.

(** ** Every line is accounted for *)

Lemma lines_accounted (JSON_parse : string -> option json)
    (lines : list string) (i : nat) :
  length lines
  = length (List.filter isBlankLine lines)
    + length (warningsFrom JSON_parse i lines)
    + length (decodedFrom JSON_parse i lines).
Proof.
  revert i. induction lines as [|l rest IH]; intros i; simpl; [reflexivity|].
  rewrite length_app, (IH (S i)). unfold parseLogLine, isBlankLine. cbv zeta.
  destruct (String.eqb (trim l) ""); simpl; [lia|].
  destruct (JSON_parse _); simpl; lia.
Qed.

(** X18. Every line of the text is accounted for. When [parseLogFile]
    returns, the number of lines of the text is the number of blank lines,
    plus the number of warnings written, plus the number of events of the
    sessions returned: a line is skipped silently only when it is blank, and
    a line that is not blank is either an event of a session or warned about,
    once. *)
Theorem parseLogFile_accounts_for_every_line
    (JSON_parse : string -> option json) (content : string) (ss : list Session) :
  parseLogFile JSON_parse content = Ok ss ->
  exists ws,
    parseLogFileWarnings JSON_parse content = Ok ws
    /\ length (splitLines content)
       = length (List.filter isBlankLine (splitLines content))
         + length ws + length (allEvents ss).
Proof.
  intros H.
  destruct (parseLogFile_full JSON_parse content ss H) as (_ & Hev & _ & Hw).
  eexists. split; [exact Hw|]. rewrite Hev. apply lines_accounted.
Qed.

Lemma parseLogFile_accounts_for_every_line_witness :
  exists ss ws,
    parseLogFile JsonRef.JSON_parse sampleLog = Ok ss
    /\ parseLogFileWarnings JsonRef.JSON_parse sampleLog = Ok ws
    /\ length ws = 1
    /\ length (splitLines sampleLog)
       = length (List.filter isBlankLine (splitLines sampleLog))
         + length ws + length (allEvents ss).
Proof.
  destruct (parseLogFile JsonRef.JSON_parse sampleLog) as [ss|] eqn:H;
    [|vm_compute in H; discriminate].
  destruct (parseLogFile_accounts_for_every_line _ _ _ H) as (ws & Hw & Hlen).
  exists ss, ws. split; [reflexivity|]. split; [exact Hw|]. split; [|exact Hlen].
  vm_compute in Hw. injection Hw as <-. reflexivity.
Defined.

(** ** Line ends *)

Lemma splitLines_cons (c : ascii) (rest : string) :
  splitLines (String c rest)
  = let keep := match splitLines rest with
                | l :: ls => String c l :: ls
                | [] => [String c EmptyString]
                end in
    if (code c =? 10)%nat then EmptyString :: splitLines rest
    else if (code c =? 13)%nat then
      match rest with
      | String c' rest' =>
          if (code c' =? 10)%nat then EmptyString :: splitLines rest' else keep
      | EmptyString => keep
      end
    else keep.
Proof. reflexivity. Qed.

Lemma splitLines_line (sep rest : string) (l : string) :
  splitLines (sep ++ rest) = EmptyString :: splitLines rest ->
  noBreak l = true ->
  splitLines (l ++ sep ++ rest) = l :: splitLines rest.
Proof.
  intros Hsep. induction l as [|c l IH]; intros Hl; [exact Hsep|].
  simpl in Hl. apply andb_prop in Hl as [Hc Hl].
  apply negb_true_iff, orb_false_elim in Hc as [H10 H13].
  change ((String c l ++ sep ++ rest)) with (String c (l ++ sep ++ rest)).
  rewrite splitLines_cons. cbv zeta. rewrite H10, H13, (IH Hl). reflexivity.
Qed.

Lemma splitLines_last (l : string) :
  noBreak l = true -> splitLines l = [l].
Proof.
  induction l as [|c l IH]; intros Hl; [reflexivity|].
  simpl in Hl. apply andb_prop in Hl as [Hc Hl].
  apply negb_true_iff, orb_false_elim in Hc as [H10 H13].
  rewrite splitLines_cons. cbv zeta. rewrite H10, H13, (IH Hl). reflexivity.
Qed.

Lemma splitLines_joined (sep : string) (ls : list string) :
  (forall rest, splitLines (sep ++ rest) = EmptyString :: splitLines rest) ->
  ls <> [] -> Forall (fun l => noBreak l = true) ls ->
  splitLines (String.concat sep ls) = ls.
Proof.
  intros Hsep. induction ls as [|l ls IH]; intros Hne Hall; [contradiction|].
  apply Forall_cons in Hall as [Hl Hls].
  destruct ls as [|l' ls'].
  - simpl. now apply splitLines_last.
  - change (String.concat sep (l :: l' :: ls'))
      with (l ++ sep ++ String.concat sep (l' :: ls')).
    rewrite (splitLines_line sep _ l (Hsep _) Hl), IH; [reflexivity|discriminate|exact Hls].
Qed.

Lemma splitLines_unlines (ls : list string) :
  ls <> [] -> Forall (fun l => noBreak l = true) ls ->
  splitLines (unlines ls) = ls.
Proof. apply splitLines_joined. reflexivity. Qed.

Lemma splitLines_unlinesCRLF (ls : list string) :
  ls <> [] -> Forall (fun l => noBreak l = true) ls ->
  splitLines (unlinesCRLF ls) = ls.
Proof. apply splitLines_joined. reflexivity. Qed.

(** X19. [parseLogFile] reads a text with CR LF line ends as the same text
    with LF line ends. For lines that hold no line break character, the text
    of these lines joined by CR LF and the text of these lines joined by LF
    split into the same lines (the lines themselves, when there is one at
    least), and give the same sessions, the same exception and the same
    warnings. *)
Theorem parseLogFile_reads_CRLF_as_LF
    (JSON_parse : string -> option json) (ls : list string) :
  Forall (fun l => noBreak l = true) ls ->
  (ls <> [] -> splitLines (unlinesCRLF ls) = ls)
  /\ parseLogFile JSON_parse (unlinesCRLF ls)
     = parseLogFile JSON_parse (unlines ls)
  /\ parseLogFileWarnings JSON_parse (unlinesCRLF ls)
     = parseLogFileWarnings JSON_parse (unlines ls).
Proof.
  intros Hall.
  assert (E : splitLines (unlinesCRLF ls) = splitLines (unlines ls)).
  { destruct ls as [|l ls']; [reflexivity|].
    rewrite splitLines_unlinesCRLF, splitLines_unlines; auto; discriminate. }
  split; [intros Hne; now apply splitLines_unlinesCRLF|].
  unfold parseLogFile, parseLogFileWarnings. now rewrite E.
Qed.

Lemma parseLogFile_reads_CRLF_as_LF_witness :
  Forall (fun l => noBreak l = true) sampleLines
  /\ splitLines (unlinesCRLF sampleLines) = sampleLines
  /\ parseLogFile JsonRef.JSON_parse (unlinesCRLF sampleLines)
     = parseLogFile JsonRef.JSON_parse (unlines sampleLines).
Proof.
  assert (H : Forall (fun l => noBreak l = true) sampleLines).
  { repeat constructor. }
  destruct (parseLogFile_reads_CRLF_as_LF JsonRef.JSON_parse sampleLines H)
    as (H1 & H2 & _).
  split; [exact H|]. split; [apply H1; discriminate | exact H2].
Defined.

End SessionFacts.

Module LineFacts.

Import ParseLog Props LineGrammar Segments SessionShape StringFacts
       LineRejection LogSamples.

#[local] Open Scope string_scope.

Lemma trimStart_app_blank (ws s : string) :
  isBlank ws -> trimStart (ws ++ s) = trimStart s.
Proof.
  unfold isBlank, all. induction ws as [|c ws IH]; simpl; intros H; [reflexivity|].
  apply andb_prop in H as [Hc Hws]. rewrite Hc. auto.
Qed.

Lemma trimStart_app (s t : string) :
  trimStart s <> "" -> trimStart (s ++ t) = trimStart s ++ t.
Proof.
  induction s as [|c s IH]; simpl; intros H; [contradiction|].
  destruct (is_space c); [auto|reflexivity].
Qed.

Lemma isBlank_app (a b : string) : isBlank a -> isBlank b -> isBlank (a ++ b).
Proof.
  unfold isBlank, all. induction a as [|c a IH]; simpl; intros Ha Hb; [exact Hb|].
  apply andb_prop in Ha as [Hc Ha]. rewrite Hc. simpl. auto.
Qed.

(** Whitespace around a text is invisible to [trim]. *)
Lemma trim_padded (ws0 l ws1 : string) :
  isBlank ws0 -> isBlank ws1 -> trim (ws0 ++ l ++ ws1) = trim l.
Proof.
  intros H0 H1. unfold trim. rewrite (trimStart_app_blank ws0 _ H0).
  destruct (trimStart l) as [|c u] eqn:E.
  - apply trimStart_blank_iff in E.
    pose proof (isBlank_app l ws1 E H1) as Hb.
    apply trimStart_blank_iff in Hb. now rewrite Hb.
  - rewrite trimStart_app by (rewrite E; discriminate).
    rewrite E. apply trimEnd_app_blank. exact H1.
Qed.

(** X30. Whitespace around a line does not change how it is decoded. For a
    line [l] and whitespace [ws0] and [ws1], [parseLogLine] on
    [ws0 ++ l ++ ws1] writes the same warnings as on [l], rejects it exactly
    when it rejects [l], and otherwise returns the same timestamp, session
    tag, source, event and line number; only [rawLine] differs, being the
    line as given, whitespace included. *)
Theorem parseLogLine_ignores_surrounding_whitespace
    (JSON_parse : string -> option json) (ws0 l ws1 : string) (n : nat) :
  isBlank ws0 -> isBlank ws1 ->
  fst (parseLogLine JSON_parse (ws0 ++ l ++ ws1) n)
  = fst (parseLogLine JSON_parse l n)
  /\ option_map decodedFields (snd (parseLogLine JSON_parse (ws0 ++ l ++ ws1) n))
     = option_map decodedFields (snd (parseLogLine JSON_parse l n))
  /\ option_map rawLine (snd (parseLogLine JSON_parse (ws0 ++ l ++ ws1) n))
     = option_map (fun _ => ws0 ++ l ++ ws1) (snd (parseLogLine JSON_parse l n)).
Proof.
  intros H0 H1. unfold parseLogLine. cbv zeta.
  rewrite (trim_padded ws0 l ws1 H0 H1).
  destruct (String.eqb (trim l) ""); [auto|].
  destruct (JSON_parse _); auto.
Qed.

Lemma parseLogLine_ignores_surrounding_whitespace_witness :
  isBlank "  " /\ isBlank " "
  /\ option_map decodedFields
       (snd (parseLogLine JsonRef.JSON_parse
               ("  " ++ dq "[user] {'type':'error'}" ++ " ") 3))
     = Some (None, None, Some USER, JObj [("type", JStr "error")], 3)
  /\ option_map rawLine
       (snd (parseLogLine JsonRef.JSON_parse
               ("  " ++ dq "[user] {'type':'error'}" ++ " ") 3))
     = Some ("  " ++ dq "[user] {'type':'error'}" ++ " ").
Proof.
  assert (H0 : isBlank "  ") by reflexivity.
  assert (H1 : isBlank " ") by reflexivity.
  destruct (parseLogLine_ignores_surrounding_whitespace JsonRef.JSON_parse
              "  " (dq "[user] {'type':'error'}") " " 3 H0 H1)
    as (_ & Hf & Hr).
  split; [exact H0|]. split; [exact H1|]. split.
  - rewrite Hf. vm_compute. reflexivity.
  - rewrite Hr. vm_compute. reflexivity.
Defined.

End LineFacts.

(* ===================================================================== *)
(** * Statistics, display helpers and tables *)
(* ===================================================================== *)

Module SessionStatsFacts.

Import GroupEvents ObjectPrototype SessionStats Props Shape StatsShape
       GroupEventsFacts StringFacts Samples.

#[local] Arguments js_get_opt : simpl never.

Lemma own_setOwn (k k0 : string) (v : StatValue) (stats : list (string * StatValue)) :
  own k (setOwn k0 v stats) = if String.eqb k k0 then Some v else own k stats.
Proof.
  induction stats as [|[k' v'] rest IH]; simpl.
  - reflexivity.
  - destruct (String.eqb_spec k0 k') as [->|Hne]; simpl.
    + destruct (String.eqb k k'); reflexivity.
    + rewrite IH. destruct (String.eqb_spec k k0) as [->|Hk].
      * destruct (String.eqb_spec k0 k'); [contradiction|reflexivity].
      * reflexivity.
Qed.

Lemma ones_not_empty (s : string) (n : nat) :
  n <> 0 -> String.eqb (s ++ ones n)%string "" = false.
Proof.
  intros Hn. destruct n as [|n]; [contradiction|]. simpl.
  apply String.eqb_neq. intros H.
  apply (f_equal String.length) in H. rewrite !slength_app in H. simpl in H. lia.
Qed.

(** Counting one more event of key [k0] updates what is held under every
    key. *)
Lemma step_held (memberText : string -> string)
    (stats : list (string * StatValue)) (c : string -> nat) (k0 : string) :
  (forall k, own k stats = held memberText k (c k)) ->
  forall k,
    own k (assign stats k0 (bump memberText stats k0))
    = held memberText k (c k + if String.eqb k k0 then 1 else 0).
Proof.
  intros H k. unfold assign.
  destruct (String.eqb_spec k k0) as [->|Hk].
  - unfold bump. rewrite (H k0). unfold held.
    replace (c k0 + 1 =? 0) with false by (symmetry; apply Nat.eqb_neq; lia).
    destruct (String.eqb_spec k0 "__proto__") as [->|Hp].
    + simpl. rewrite (H "__proto__"). unfold held. simpl.
      destruct (c "__proto__" =? 0); reflexivity.
    + rewrite own_setOwn, String.eqb_refl.
      destruct (Nat.eqb_spec (c k0) 0) as [E|E].
      * rewrite E. simpl. destruct (inherited k0); reflexivity.
      * destruct (inherited k0).
        -- rewrite (ones_not_empty _ _ E). rewrite Nat.add_1_r. simpl.
           now rewrite sapp_assoc.
        -- reflexivity.
  - rewrite Nat.add_0_r.
    destruct (String.eqb k0 "__proto__"); [apply H|].
    rewrite own_setOwn.
    destruct (String.eqb_spec k k0); [contradiction|apply H].
Qed.

(** The keys of a list of events whose types are strings or absent. *)
Lemma keysOf_strings (ToString : json -> Res string)
    (events : list ParsedLogLine) :
  Forall (fun e => isTextField (typeOf e)) events ->
  exists keys, keysOf ToString events = Ok keys.
Proof.
  unfold keysOf. induction events as [|e rest IH]; intros H; simpl; [eauto|].
  apply Forall_cons in H as [He Hrest]. destruct (IH Hrest) as [keys ->].
  unfold isTextField in He.
  destruct (typeOf e) as [[| b | m x | ty | l | f]|]; try contradiction;
    simpl; eauto.
Qed.

Lemma statsLoop_held (ToString : json -> Res string)
    (memberText : string -> string)
    (events : list ParsedLogLine) (stats : list (string * StatValue))
    (c : string -> nat) :
  Forall isRecord events ->
  (forall k, own k stats = held memberText k (c k)) ->
  match keysOf ToString events with
  | Ok keys =>
      exists stats',
        statsLoop ToString memberText stats events = Ok stats'
        /\ forall k, own k stats' = held memberText k (c k + countIn k keys)
  | Throw err => statsLoop ToString memberText stats events = Throw err
  end.
Proof.
  unfold keysOf.
  revert stats c. induction events as [|e rest IH]; intros stats c Hall H; simpl.
  - exists stats. split; [reflexivity|]. intros k. unfold countIn. simpl.
    now rewrite Nat.add_0_r.
  - apply Forall_cons in Hall as [He Hrest]. unfold statsStep.
    rewrite (js_get_record e "type" He). simpl.
    change (js_get_opt (Some (event e)) "type") with (typeOf e).
    destruct (keyOf ToString (typeOf e)) as [k0|err]; simpl; [|reflexivity].
    specialize (IH _ (fun k => c k + if String.eqb k k0 then 1 else 0)
                  Hrest (step_held memberText stats c k0 H)).
    destruct (mapRes _ rest) as [keys|err]; simpl; [|exact IH].
    destruct IH as (stats' & Hl & Hk).
    exists stats'. split; [exact Hl|]. intros k. rewrite Hk. f_equal.
    unfold countIn. simpl. destruct (String.eqb k k0); simpl; lia.
Qed.

Lemma getSessionStats_held (ToString : json -> Res string)
    (memberText : string -> string) (session : Session) :
  Forall isRecord (s_events session) ->
  match keysOf ToString (s_events session) with
  | Ok keys =>
      exists stats,
        getSessionStats ToString memberText session = Ok stats
        /\ forall k, own k stats = held memberText k (countIn k keys)
  | Throw err => getSessionStats ToString memberText session = Throw err
  end.
Proof.
  intros Hall.
  exact (statsLoop_held ToString memberText (s_events session) []
           (fun _ => 0) Hall (fun k => eq_refl)).
Qed.

(** X20. [getSessionStats] counts the events of a session by type. On a
    session of event records its only failure is the conversion of a type
    to a property key: it throws what the first such conversion throws, and
    the conversion never throws when every type is a string or absent.
    Otherwise it returns, and for every key that is not the name of a member
    of [Object.prototype] the object returned holds the number of events whose
    type denotes that key, and has no such property when there is none. An
    event without a type counts under [undefined]. *)
Theorem getSessionStats_counts_by_type
    (ToString : json -> Res string) (memberText : string -> string)
    (session : Session) :
  Forall isRecord (s_events session) ->
  (Forall (fun e => isTextField (typeOf e)) (s_events session) ->
   exists keys, keysOf ToString (s_events session) = Ok keys)
  /\ match keysOf ToString (s_events session) with
     | Ok keys =>
         exists stats,
           getSessionStats ToString memberText session = Ok stats
           /\ forall k,
                inherited k = false ->
                own k stats
                = if countIn k keys =? 0 then None
                  else Some (SNum (countIn k keys))
     | Throw err => getSessionStats ToString memberText session = Throw err
     end.
Proof.
  intros Hall. split; [apply keysOf_strings|].
  pose proof (getSessionStats_held ToString memberText session Hall) as H.
  destruct (keysOf ToString (s_events session)) as [keys|err]; [|exact H].
  destruct H as (stats & Hs & Hk).
  exists stats. split; [exact Hs|]. intros k Hin. rewrite Hk. unfold held.
  now rewrite Hin.
Qed.

(** A session of four events, one of them without a type; a session whose
    second event has the type [42]; a session whose second event has a type
    that converts to no string. *)
Lemma getSessionStats_counts_by_type_witness :
  (exists stats,
     getSessionStats (HostRef.ToString HostRef.formatInteger) memberTextSample
       (sessionOf [created 1; textDelta 2 "a"; textDelta 3 "b"; line 4 (JObj [])])
     = Ok stats
     /\ own "response.text.delta" stats = Some (SNum 2)
     /\ own "undefined" stats = Some (SNum 1)
     /\ own "response.done" stats = None)
  /\ (exists stats,
        getSessionStats (HostRef.ToString HostRef.formatInteger) memberTextSample
          (sessionOf [created 1; numberType 2; numberType 3])
        = Ok stats
        /\ own "42" stats = Some (SNum 2))
  /\ getSessionStats (HostRef.ToString HostRef.formatInteger) memberTextSample
       (sessionOf [created 1; oddType 2; textDelta 3 "b"])
     = Throw TypeError.
Proof.
  assert (H1 : Forall isRecord
    (s_events (sessionOf [created 1; textDelta 2 "a"; textDelta 3 "b";
                          line 4 (JObj [])]))).
  { repeat constructor; discriminate. }
  assert (H2 : Forall isRecord
    (s_events (sessionOf [created 1; numberType 2; numberType 3]))).
  { repeat constructor; discriminate. }
  assert (H3 : Forall isRecord
    (s_events (sessionOf [created 1; oddType 2; textDelta 3 "b"]))).
  { repeat constructor; discriminate. }
  split; [|split].
  - destruct (getSessionStats_counts_by_type
                (HostRef.ToString HostRef.formatInteger) memberTextSample _ H1)
      as (_ & stats & Hs & Hk).
    exists stats. split; [exact Hs|].
    split; [exact (Hk "response.text.delta" eq_refl)|].
    split; [exact (Hk "undefined" eq_refl) | exact (Hk "response.done" eq_refl)].
  - destruct (getSessionStats_counts_by_type
                (HostRef.ToString HostRef.formatInteger) memberTextSample _ H2)
      as (_ & stats & Hs & Hk).
    exists stats. split; [exact Hs|]. exact (Hk "42" eq_refl).
  - exact (proj2 (getSessionStats_counts_by_type
                    (HostRef.ToString HostRef.formatInteger) memberTextSample
                    _ H3)).
Defined.

(** X21. [getSessionStats] does not count the events whose type is the name
    of a member of [Object.prototype], such as [constructor] or [toString]:
    the value read before the first increment is the inherited member, not
    [undefined]. Whenever it returns (it throws only what the conversion of a
    type to a property key throws), the object returned holds under such a key
    a string, the text of the member followed by one digit 1 for each event,
    and never a number; under [__proto__] it holds no own property at all. *)
Theorem getSessionStats_miscounts_inherited_names
    (ToString : json -> Res string) (memberText : string -> string)
    (session : Session) :
  Forall isRecord (s_events session) ->
  match keysOf ToString (s_events session) with
  | Ok keys =>
      exists stats,
        getSessionStats ToString memberText session = Ok stats
        /\ own "__proto__" stats = None
        /\ forall k,
             inherited k = true -> k <> "__proto__" ->
             countIn k keys <> 0 ->
             own k stats
             = Some (SStr (memberText k ++ ones (countIn k keys))%string)
  | Throw err => getSessionStats ToString memberText session = Throw err
  end.
Proof.
  intros Hall.
  pose proof (getSessionStats_held ToString memberText session Hall) as H.
  destruct (keysOf ToString (s_events session)) as [keys|err]; [|exact H].
  destruct H as (stats & Hs & Hk).
  exists stats. split; [exact Hs|]. split.
  - rewrite Hk. unfold held. simpl. now destruct (_ =? 0).
  - intros k Hin Hp Hn. rewrite Hk. unfold held. rewrite Hin.
    destruct (Nat.eqb_spec (countIn k keys) 0); [contradiction|].
    destruct (String.eqb_spec k "__proto__"); [contradiction|reflexivity].
Qed.

Lemma getSessionStats_miscounts_inherited_names_witness :
  exists stats,
    getSessionStats (HostRef.ToString HostRef.formatInteger) memberTextSample
      (sessionOf [typed 1 "constructor"; typed 2 "error";
                  typed 3 "constructor"; typed 4 "__proto__"])
    = Ok stats
    /\ own "__proto__" stats = None
    /\ own "constructor" stats
       = Some (SStr "function Object() { [native code] }11").
Proof.
  assert (H : Forall isRecord
    (s_events (sessionOf [typed 1 "constructor"; typed 2 "error";
                          typed 3 "constructor"; typed 4 "__proto__"]))).
  { repeat constructor; discriminate. }
  destruct (getSessionStats_miscounts_inherited_names
              (HostRef.ToString HostRef.formatInteger) memberTextSample _ H)
    as (stats & Hs & Hp & Hk).
  exists stats. split; [exact Hs|]. split; [exact Hp|].
  apply (Hk "constructor" eq_refl); [discriminate|]. vm_compute. discriminate.
Defined.

End SessionStatsFacts.

Module DisplayFacts.

Import ObjectPrototype SessionStats Categories EventCard Props Shape StatsShape
       GroupEventsFacts Samples.

#[local] Arguments js_get_opt : simpl never.

(** ** getSanitizedEventData *)

Lemma assoc_withField (k k0 : string) (v : json) (fields : list (string * json)) :
  assoc k (withField k0 v fields)
  = if String.eqb k k0 then Some v else assoc k fields.
Proof.
  induction fields as [|[k' v'] rest IH]; simpl.
  - reflexivity.
  - destruct (String.eqb_spec k0 k') as [->|Hne]; simpl.
    + destruct (String.eqb k k'); reflexivity.
    + rewrite IH. destruct (String.eqb_spec k k0) as [->|Hk].
      * destruct (String.eqb_spec k0 k'); [contradiction|reflexivity].
      * reflexivity.
Qed.

Lemma withField_twice (k : string) (v : json) (fields : list (string * json)) :
  withField k v (withField k v fields) = withField k v fields.
Proof.
  induction fields as [|[k' v'] rest IH]; simpl.
  - now rewrite String.eqb_refl.
  - destruct (String.eqb k k') eqn:E; simpl; rewrite E; [reflexivity|].
    now rewrite IH.
Qed.

Lemma isAudioDeltaEvent_value (event : json) :
  event <> JNull -> isAudioDeltaEvent event = Ok (isAudio event).
Proof.
  intros H. unfold isAudioDeltaEvent, isAudio.
  destruct event as [| b | m x | s | l | f]; try reflexivity. contradiction.
Qed.

Lemma isAudio_object (event : json) :
  isAudio event = true -> exists fields, event = JObj fields.
Proof.
  unfold isAudio. destruct event as [| b | m x | s | l | f]; try discriminate.
  eauto.
Qed.

(** X22. [getSanitizedEventData] hides the audio payload and nothing else. On
    a payload other than [null] it returns. A payload that is not a
    [response.audio.delta] event is returned as it is. For an audio delta
    event, which is an object, the result is an object that has the text
    [[audio data hidden]] as its own property [delta], and whose other own
    properties are those of the payload, with the same values, the type
    included. Sanitizing the result again changes nothing. *)
Theorem getSanitizedEventData_hides_only_the_audio_payload (event : json) :
  event <> JNull ->
  exists shown,
    getSanitizedEventData event = Ok shown
    /\ (isAudio event = false -> shown = event)
    /\ (isAudio event = true ->
        event = JObj (fieldsOf event)
        /\ shown = JObj (fieldsOf shown)
        /\ assoc "delta" (fieldsOf shown) = Some HIDDEN
        /\ forall k, k <> "delta" ->
                     assoc k (fieldsOf shown) = assoc k (fieldsOf event))
    /\ getSanitizedEventData shown = Ok shown.
Proof.
  intros Hnn. unfold getSanitizedEventData.
  rewrite (isAudioDeltaEvent_value event Hnn). simpl.
  destruct (isAudio event) eqn:Ha.
  - destruct (isAudio_object event Ha) as [fields ->]. simpl.
    eexists. split; [reflexivity|]. split; [discriminate|]. split.
    + intros _. simpl. split; [reflexivity|]. split; [reflexivity|].
      split; [now rewrite assoc_withField|].
      intros k Hk. rewrite assoc_withField.
      destruct (String.eqb_spec k "delta"); [contradiction|reflexivity].
    + rewrite isAudioDeltaEvent_value by discriminate.
      unfold isAudio in *. unfold js_get_opt in *. rewrite assoc_withField.
      simpl. rewrite Ha. simpl. now rewrite withField_twice.
  - exists event. split; [reflexivity|]. split; [reflexivity|].
    split; [discriminate|].
    rewrite (isAudioDeltaEvent_value event Hnn). simpl. now rewrite Ha.
Qed.

Lemma getSanitizedEventData_hides_only_the_audio_payload_witness :
  JObj [("type", JStr "response.audio.delta"); ("delta", JStr "AEAAwA==");
        ("item_id", JStr "item_1")] <> JNull
  /\ getSanitizedEventData
       (JObj [("type", JStr "response.audio.delta"); ("delta", JStr "AEAAwA==");
              ("item_id", JStr "item_1")])
     = Ok (JObj [("type", JStr "response.audio.delta"); ("delta", HIDDEN);
                 ("item_id", JStr "item_1")])
  /\ exists shown,
       getSanitizedEventData
         (JObj [("type", JStr "response.audio.delta"); ("delta", JStr "AEAAwA==");
                ("item_id", JStr "item_1")]) = Ok shown
       /\ assoc "delta" (fieldsOf shown) = Some HIDDEN
       /\ assoc "item_id" (fieldsOf shown) = Some (JStr "item_1").
Proof.
  assert (H : JObj [("type", JStr "response.audio.delta");
                    ("delta", JStr "AEAAwA=="); ("item_id", JStr "item_1")]
              <> JNull) by discriminate.
  split; [exact H|]. split; [reflexivity|].
  destruct (getSanitizedEventData_hides_only_the_audio_payload _ H)
    as (shown & Hs & _ & Ha & _).
  destruct (Ha eq_refl) as (_ & _ & Hd & Hk).
  exists shown. split; [exact Hs|]. split; [exact Hd|].
  rewrite (Hk "item_id"); [reflexivity|discriminate].
Defined.

(** ** getEventCategory *)

Lemma lookup_In {A : Type} (k : string) (table : list (string * A)) (v : A) :
  lookup k table = Some v -> In (k, v) table.
Proof.
  induction table as [|[k' v'] rest IH]; simpl; [discriminate|].
  destruct (String.eqb_spec k k') as [->|Hne].
  - intros [= ->]. now left.
  - intros H. right. now apply IH.
Qed.

(** The categories of the table are members of the union, and none is
    [unknown], [user_input] or empty. *)
Lemma table_categories (k : string) (c : EventCategory) :
  lookup k EVENT_CATEGORIES = Some c ->
  In c CATEGORIES /\ c <> "unknown" /\ String.eqb c "" = false
  /\ String.eqb c "user_input" = false /\ inherited k = false.
Proof.
  intros H%lookup_In. unfold EVENT_CATEGORIES in H. simpl in H.
  repeat (destruct H as [H|H];
          [injection H as <- <-;
           (split; [simpl; tauto|]);
           (split; [discriminate|]); auto|]).
  contradiction.
Qed.

(** X23. [getEventCategory] answers [unknown] exactly for the types the
    table does not map. For a type that is not the name of a member of
    [Object.prototype] the answer is one of the twelve categories, and it is
    [unknown] if and only if the type is not a key of [EVENT_CATEGORIES]. For
    the name of a member of [Object.prototype] the table has no entry, yet the
    answer is that member, not [unknown]. *)
Theorem getEventCategory_unknown_iff_unmapped (eventType : string) :
  (inherited eventType = false ->
   exists c,
     getEventCategory eventType = Category c
     /\ In c CATEGORIES
     /\ (c = "unknown" <-> lookup eventType EVENT_CATEGORIES = None))
  /\ (inherited eventType = true ->
      lookup eventType EVENT_CATEGORIES = None
      /\ getEventCategory eventType = Member eventType).
Proof.
  unfold getEventCategory.
  destruct (lookup eventType EVENT_CATEGORIES) as [c|] eqn:Hl.
  - destruct (table_categories _ _ Hl) as (Hin & Hu & He & _ & Hi).
    rewrite He, Hi. split; [|discriminate].
    intros _. exists c. split; [reflexivity|]. split; [exact Hin|].
    split; [contradiction|discriminate].
  - split; intros Hi; rewrite Hi.
    + exists "unknown". split; [reflexivity|]. split; [simpl; tauto|]. tauto.
    + auto.
Qed.

(** X24. The side an event card is shown on depends on the source tag alone.
    [isUserEvent] is computed as [event.source === "USER" || category ===
    "user_input"], the category being looked up under the type of the event.
    On an event record the only failure is the conversion of the type to a
    property key, which never throws for a type that is a string or absent:
    the card throws what that conversion throws. Otherwise, no type having the
    category [user_input], the result is whether the source of the line is
    [USER]. *)
Theorem isUserEvent_is_the_source_tag
    (ToString : json -> Res string) (event : ParsedLogLine) :
  isRecord event ->
  (isTextField (typeOf event) -> exists k, keyOf ToString (typeOf event) = Ok k)
  /\ match keyOf ToString (typeOf event) with
     | Ok _ =>
         isUserEvent ToString event
         = Ok (match source event with
               | Some s => String.eqb s "USER"
               | None => false
               end)
     | Throw err => isUserEvent ToString event = Throw err
     end.
Proof.
  intros He. split.
  - unfold isTextField.
    destruct (typeOf event) as [[| b | m x | ty | l | f]|]; try contradiction;
      simpl; eauto.
  - unfold isUserEvent. rewrite (js_get_record event "type" He). simpl.
    change (js_get_opt (Some (Types.event event)) "type") with (typeOf event).
    destruct (keyOf ToString (typeOf event)) as [k|err]; simpl; [|reflexivity].
    f_equal.
    assert (H : forall k, isCategory (getEventCategory k) "user_input" = false).
    { intros k0. unfold getEventCategory.
      destruct (lookup k0 EVENT_CATEGORIES) as [c|] eqn:Hl.
      - destruct (table_categories _ _ Hl) as (_ & _ & He' & Hu & _).
        rewrite He'. exact Hu.
      - destruct (inherited k0); reflexivity. }
    now rewrite H, orb_false_r.
Qed.

(** A line tagged [USER]; an untagged line of type [user_input]; a line whose
    type converts to no string. *)
Lemma isUserEvent_is_the_source_tag_witness :
  isUserEvent (HostRef.ToString HostRef.formatInteger) userLine = Ok true
  /\ isUserEvent (HostRef.ToString HostRef.formatInteger) (typed 2 "user_input")
     = Ok false
  /\ isUserEvent (HostRef.ToString HostRef.formatInteger) (oddType 3)
     = Throw TypeError.
Proof.
  assert (H1 : isRecord userLine) by discriminate.
  assert (H2 : isRecord (typed 2 "user_input")) by discriminate.
  assert (H3 : isRecord (oddType 3)) by discriminate.
  split; [|split].
  - exact (proj2 (isUserEvent_is_the_source_tag
                    (HostRef.ToString HostRef.formatInteger) userLine H1)).
  - exact (proj2 (isUserEvent_is_the_source_tag
                    (HostRef.ToString HostRef.formatInteger)
                    (typed 2 "user_input") H2)).
  - exact (proj2 (isUserEvent_is_the_source_tag
                    (HostRef.ToString HostRef.formatInteger) (oddType 3) H3)).
Defined.

End DisplayFacts.

Module UtilsFacts.

Import Utils StringFacts.

#[local] Open Scope Z_scope.

Lemma sliceTo_exact (n : nat) (s : string) :
  (n <= String.length s)%nat -> String.length (sliceTo n s) = n.
Proof.
  revert s. induction n as [|n IH]; intros s H; simpl; [reflexivity|].
  destruct s as [|c s]; simpl in *; [lia|]. rewrite IH; [reflexivity|lia].
Qed.

Lemma sliceTo_all (n : nat) (s : string) :
  (String.length s <= n)%nat -> sliceTo n s = s.
Proof.
  revert s. induction n as [|n IH]; intros s H; simpl.
  - destruct s; [reflexivity|simpl in H; lia].
  - destruct s as [|c s]; [reflexivity|]. simpl in H. rewrite IH; [reflexivity|lia].
Qed.

Lemma sliceTo_prefix (n : nat) (s t : string) :
  (n <= String.length s)%nat -> sliceTo n (sliceTo n s ++ t)%string = sliceTo n s.
Proof.
  revert s. induction n as [|n IH]; intros s H; simpl; [reflexivity|].
  destruct s as [|c s]; simpl in *; [lia|]. rewrite IH; [reflexivity|lia].
Qed.

Lemma slice0_nonneg (str : string) (e : Z) :
  0 <= e -> slice0 str e = sliceTo (Z.to_nat e) str.
Proof.
  intros He. unfold slice0.
  destruct (Z.ltb_spec e 0) as [|_]; [lia|].
  destruct (Z.le_ge_cases e (Z.of_nat (String.length str))) as [H|H].
  - now rewrite Z.min_l.
  - rewrite Z.min_r by exact H. rewrite Nat2Z.id.
    rewrite !sliceTo_all; [reflexivity|lia|lia].
Qed.

(** X25. [truncateString] with a limit [maxLength >= 0]. A string of at most
    [maxLength] code units is returned as it is; a longer one is cut to its
    first [maxLength] code units and three dots are added, so that the result
    has exactly [maxLength + 3] code units (it can be longer than the string
    itself); truncating the result again with the same limit changes nothing.
    With a negative limit the string is never short enough, and the cut drops
    that many code units from its end. *)
Theorem truncateString_cuts_to_the_limit (str : string) (maxLength : Z) :
  (0 <= maxLength ->
   (Z.of_nat (String.length str) <= maxLength ->
    truncateString str maxLength = str)
   /\ (maxLength < Z.of_nat (String.length str) ->
       truncateString str maxLength
       = (sliceTo (Z.to_nat maxLength) str ++ "...")%string
       /\ Z.of_nat (String.length (truncateString str maxLength))
          = maxLength + 3)
   /\ truncateString (truncateString str maxLength) maxLength
      = truncateString str maxLength)
  /\ (maxLength < 0 ->
      truncateString str maxLength
      = (sliceTo (String.length str - Z.to_nat (- maxLength)) str ++ "...")%string).
Proof.
  split.
  - intros Hm.
    assert (Hlong : maxLength < Z.of_nat (String.length str) ->
      truncateString str maxLength
      = (sliceTo (Z.to_nat maxLength) str ++ "...")%string
      /\ Z.of_nat (String.length (truncateString str maxLength)) = maxLength + 3).
    { intros Hl. unfold truncateString.
      destruct (Z.leb_spec (Z.of_nat (String.length str)) maxLength); [lia|].
      rewrite (slice0_nonneg str maxLength Hm). split; [reflexivity|].
      rewrite slength_app, sliceTo_exact by lia. simpl. lia. }
    split; [|split; [exact Hlong|]].
    + intros Hs. unfold truncateString.
      destruct (Z.leb_spec (Z.of_nat (String.length str)) maxLength); [reflexivity|lia].
    + destruct (Z.le_gt_cases (Z.of_nat (String.length str)) maxLength) as [Hs|Hl].
      * unfold truncateString.
        destruct (Z.leb_spec (Z.of_nat (String.length str)) maxLength); [|lia].
        destruct (Z.leb_spec (Z.of_nat (String.length str)) maxLength); [reflexivity|lia].
      * destruct (Hlong Hl) as [E Hlen]. unfold truncateString at 1.
        destruct (Z.leb_spec (Z.of_nat (String.length (truncateString str maxLength)))
                    maxLength); [lia|].
        rewrite (slice0_nonneg _ maxLength Hm), E, sliceTo_prefix by lia.
        reflexivity.
  - intros Hm. unfold truncateString, slice0.
    destruct (Z.leb_spec (Z.of_nat (String.length str)) maxLength); [lia|].
    destruct (Z.ltb_spec maxLength 0); [|lia].
    do 2 f_equal. lia.
Qed.

End UtilsFacts.

(* ===================================================================== *)
(** * Further properties of audio-player.ts *)
(* ===================================================================== *)

Module AudioFacts.

Import AudioPlayer Props Pcm AudioShape GroupEventsFacts AudioCodec.

#[local] Arguments js_get_opt : simpl never.
#[local] Arguments decodeAudioDelta : simpl never.
#[local] Arguments combineAudioChunks : simpl never.

(** ** The outcome of decoding one chunk *)

Lemma b64_val_range (c : ascii) (v : Z) : b64_val c = Some v -> isSextet v.
Proof.
  unfold b64_val, isSextet. cbv zeta. generalize (code c). intros n.
  destruct (Nat.leb_spec 65 n), (Nat.leb_spec n 90); cbn [andb];
    try (intros [= <-]; lia);
    destruct (Nat.leb_spec 97 n), (Nat.leb_spec n 122); cbn [andb];
    try (intros [= <-]; lia);
    destruct (Nat.leb_spec 48 n), (Nat.leb_spec n 57); cbn [andb];
    try (intros [= <-]; lia);
    destruct (n =? 43); try (intros [= <-]; lia);
    destruct (n =? 47); try (intros [= <-]; lia); discriminate.
Qed.

Lemma list_ind4 {A : Type} (P : list A -> Prop) :
  P [] -> (forall a, P [a]) -> (forall a b, P [a; b]) ->
  (forall a b c, P [a; b; c]) ->
  (forall a b c d l, P l -> P (a :: b :: c :: d :: l)) ->
  forall l, P l.
Proof.
  intros H0 H1 H2 H3 H4.
  fix IH 1. intros [|a [|b [|c [|d l]]]];
    [apply H0 | apply H1 | apply H2 | apply H3 | exact (H4 a b c d l (IH l))].
Qed.

Lemma b64_vals_range (cs : list ascii) (vs : list Z) :
  b64_vals cs = Some vs -> Forall isSextet vs.
Proof.
  revert vs. induction cs as [|c cs IH]; intros vs; simpl.
  - intros [= <-]. constructor.
  - destruct (b64_val c) as [v|] eqn:Hv; [|discriminate].
    destruct (b64_vals cs) as [vs'|]; [|discriminate].
    intros [= <-]. constructor; [eapply b64_val_range; eauto|auto].
Qed.

Lemma b64_bytes_range (vs : list Z) :
  Forall isSextet vs -> Forall isByte (b64_bytes vs).
Proof.
  unfold isSextet, isByte.
  induction vs as [| a | a b | a b c | a b c d rest IH] using list_ind4; intros H.
  - constructor.
  - constructor.
  - apply Forall_cons in H as [Ha H]. apply Forall_cons in H as [Hb _].
    simpl. repeat constructor; Z.div_mod_to_equations; lia.
  - apply Forall_cons in H as [Ha H]. apply Forall_cons in H as [Hb H].
    apply Forall_cons in H as [Hc _].
    simpl. repeat constructor; Z.div_mod_to_equations; lia.
  - apply Forall_cons in H as [Ha H]. apply Forall_cons in H as [Hb H].
    apply Forall_cons in H as [Hc H]. apply Forall_cons in H as [Hd H].
    change (b64_bytes (a :: b :: c :: d :: rest))
      with ((a * 4 + b / 16)%Z :: ((b mod 16) * 16 + c / 4)%Z
            :: ((c mod 4) * 64 + d)%Z :: b64_bytes rest).
    repeat (constructor; [Z.div_mod_to_equations; lia|]). exact (IH H).
Qed.

Lemma atob_outcome (data : string) :
  match atob data with
  | Ok bytes => Forall isByte bytes
  | Throw err => err = InvalidCharacterError
  end.
Proof.
  unfold atob. cbv zeta.
  destruct (_ =? 1); [reflexivity|].
  destruct (b64_vals _) as [vs|] eqn:E; [|reflexivity].
  apply b64_bytes_range. eapply b64_vals_range; eauto.
Qed.

Lemma toInt16_range (lo hi : Z) :
  isByte lo -> isByte hi -> isInt16 (toInt16 (lo + 256 * hi)).
Proof.
  unfold isByte, isInt16, toInt16. intros Hlo Hhi.
  destruct (Z.ltb_spec (lo + 256 * hi) 32768); lia.
Qed.

Lemma int16Pairs_range (bytes : list Z) :
  Forall isByte bytes -> Forall isInt16 (int16Pairs bytes).
Proof.
  revert bytes. fix IH 1. intros [|lo [|hi rest]] H; simpl; try constructor.
  - apply Forall_cons in H as [Hlo H]. apply Forall_cons in H as [Hhi _].
    now apply toInt16_range.
  - apply Forall_cons in H as [_ H]. apply Forall_cons in H as [_ H].
    exact (IH rest H).
Qed.

Lemma int16Pairs_length (bytes : list Z) :
  Nat.even (length bytes) = true -> length bytes = 2 * length (int16Pairs bytes).
Proof.
  revert bytes. fix IH 1. intros [|lo [|hi rest]] H; simpl in *;
    [reflexivity|discriminate|].
  rewrite (IH rest H). lia.
Qed.

Lemma normalized_half_open (s : Z) : isInt16 s -> inHalfOpenRange (normalized s).
Proof.
  unfold isInt16, inHalfOpenRange, normalized, Qle, Qlt, Qdiv. simpl.
  intros H. lia.
Qed.

(** X26. The three outcomes of [decodeAudioDelta]. It returns when the text
    is base64 and decodes to an even number of bytes: then it returns one
    float for each two bytes, and every float lies in [-1, 1), 1 excluded. It
    throws an [InvalidCharacterError] when [atob] refuses the text, and a
    [RangeError] when the number of bytes decoded is odd. *)
Theorem decodeAudioDelta_outcomes (base64 : string) :
  match decodeAudioDelta base64 with
  | Ok samples =>
      exists bytes,
        atob base64 = Ok bytes
        /\ length bytes = 2 * length samples
        /\ Forall inHalfOpenRange samples
  | Throw err =>
      (err = InvalidCharacterError /\ atob base64 = Throw InvalidCharacterError)
      \/ (err = RangeError
          /\ exists bytes,
               atob base64 = Ok bytes /\ Nat.even (length bytes) = false)
  end.
Proof.
  unfold decodeAudioDelta. pose proof (atob_outcome base64) as Hout.
  destruct (atob base64) as [bytes|err]; simpl.
  - unfold Int16Array. destruct (Nat.even (length bytes)) eqn:Hev; simpl.
    + exists bytes. split; [reflexivity|]. split.
      * rewrite length_map. now apply int16Pairs_length.
      * pose proof (int16Pairs_range bytes Hout) as Hr.
        induction Hr as [|s l Hs Hl IH]; simpl; constructor; auto.
        now apply normalized_half_open.
    + right. split; [reflexivity|]. eauto.
  - left. subst err. auto.
Qed.

(** ** The merge loop *)

Lemma totalLength_sum (chunks : list Float32Array) :
  AudioMerge.totalLength chunks = list_sum (map (@length Q) chunks).
Proof. exact (CycleCardFacts.fold_left_add (@length Q) chunks 0). Qed.

Lemma totalLength_cons (chunk : Float32Array) (rest : list Float32Array) :
  AudioMerge.totalLength (chunk :: rest)
  = length chunk + AudioMerge.totalLength rest.
Proof. now rewrite !totalLength_sum. Qed.

Lemma setAt_next (done chunk : Float32Array) (n : nat) :
  AudioMerge.setAt (done ++ AudioMerge.zeros (length chunk + n)) chunk (length done)
  = Ok ((done ++ chunk) ++ AudioMerge.zeros n).
Proof.
  unfold AudioMerge.setAt, AudioMerge.zeros.
  rewrite length_app, repeat_length.
  destruct (Nat.leb_spec (length done + length chunk)
              (length done + (length chunk + n))); [|lia].
  f_equal. rewrite firstn_app, Nat.sub_diag, firstn_all. simpl.
  rewrite app_nil_r, skipn_app, skipn_all2 by lia. simpl.
  replace (length done + length chunk - length done) with (length chunk) by lia.
  rewrite repeat_app, skipn_app, skipn_all2 by (rewrite repeat_length; lia).
  rewrite repeat_length, Nat.sub_diag. simpl. now rewrite <- app_assoc.
Qed.

(** The loop fills the zeros that follow what is written so far. *)
Lemma mergeLoop_fills (chunks : list Float32Array) (done : Float32Array) :
  AudioMerge.mergeLoop (done ++ AudioMerge.zeros (AudioMerge.totalLength chunks))
    (length done) chunks
  = Ok (done ++ concat chunks).
Proof.
  revert done. induction chunks as [|c l IH]; intros done.
  - simpl. reflexivity.
  - rewrite totalLength_cons. simpl. rewrite setAt_next. simpl.
    rewrite <- length_app, IH. now rewrite <- app_assoc.
Qed.

(** X27. [combineAudioChunks] returns the chunks one after the other. The
    buffer it allocates has the total length of the chunks, every write of a
    chunk at the running offset fits (no [RangeError]), and at the end the
    buffer holds the samples of the chunks in order, with no zero left: the
    result is the concatenation of the chunks, and its length is the sum of
    their lengths. No chunk gives the empty buffer, one chunk gives that
    chunk. *)
Theorem combineAudioChunks_concatenates (chunks : list Float32Array) :
  AudioMerge.combineAudioChunks chunks = Ok (concat chunks)
  /\ combineAudioChunks chunks = concat chunks
  /\ length (concat chunks) = list_sum (map (@length Q) chunks).
Proof.
  split; [|split].
  - destruct chunks as [|c [|c' l]].
    + reflexivity.
    + simpl. now rewrite app_nil_r.
    + exact (mergeLoop_fills (c :: c' :: l) []).
  - apply combineAudioChunks_concat.
  - induction chunks as [|c l IH]; simpl; [reflexivity|].
    now rewrite length_app, IH.
Qed.

(** ** The audio of two runs *)

Lemma decodedChunks_app (a b : list ParsedLogLine) :
  decodedChunks (a ++ b) = decodedChunks a ++ decodedChunks b.
Proof.
  induction a as [|e a IH]; [reflexivity|].
  change ((e :: a) ++ b) with (e :: (a ++ b)).
  rewrite (decodedChunks_cons e (a ++ b)), (decodedChunks_cons e a), IH.
  now rewrite app_assoc.
Qed.

Lemma extract_value (events : list ParsedLogLine) :
  Forall isRecord events ->
  extractAudioFromDeltaGroup events
  = Ok (match List.filter nonEmpty (decodedChunks events) with
        | [] => None
        | cs => Some (concat cs)
        end).
Proof.
  intros Hall. unfold extractAudioFromDeltaGroup.
  destruct (extractLoop_spec events {| chunks := []; x_console := [] |} Hall)
    as (st & -> & Hc).
  simpl in Hc. cbn [bind]. rewrite Hc.
  destruct (List.filter nonEmpty (decodedChunks events)) as [|c cs]; simpl;
    [reflexivity|].
  now rewrite combineAudioChunks_concat.
Qed.

(** X28. The audio of two runs of events taken together is the audio of the
    first followed by the audio of the second: [extractAudioFromDeltaGroup]
    on [a ++ b] returns [null] when it does on both, the buffer of the one
    that has audio when the other has none, and the buffer of [a] followed by
    the buffer of [b] otherwise. This is what the audio block relies on when
    it hands over the events of all the audio groups of a cycle at once. *)
Theorem extractAudio_of_two_runs (a b : list ParsedLogLine) :
  Forall isRecord a -> Forall isRecord b ->
  exists ra rb,
    extractAudioFromDeltaGroup a = Ok ra
    /\ extractAudioFromDeltaGroup b = Ok rb
    /\ extractAudioFromDeltaGroup (a ++ b)
       = Ok (match ra, rb with
             | None, None => None
             | Some x, None => Some x
             | None, Some y => Some y
             | Some x, Some y => Some (x ++ y)
             end).
Proof.
  intros Ha Hb.
  rewrite (extract_value a Ha), (extract_value b Hb),
    (extract_value (a ++ b) (proj2 (Forall_app _ _ _) (conj Ha Hb))).
  do 2 eexists. split; [reflexivity|]. split; [reflexivity|].
  rewrite decodedChunks_app, List.filter_app.
  destruct (List.filter nonEmpty (decodedChunks a)) as [|x xs];
    destruct (List.filter nonEmpty (decodedChunks b)) as [|y ys]; simpl;
    rewrite ?app_nil_r; try reflexivity.
  f_equal. f_equal.
  change (x ++ concat (xs ++ y :: ys) = (x ++ concat xs) ++ y ++ concat ys).
  now rewrite concat_app, app_assoc.
Qed.

Lemma extractAudio_of_two_runs_witness :
  Forall isRecord [audioDelta 1 "AEAAwA=="; audioDelta 2 "!"]
  /\ Forall isRecord [audioDelta 3 "AAA"]
  /\ extractAudioFromDeltaGroup [audioDelta 1 "AEAAwA=="; audioDelta 2 "!"]
     = Ok (Some [normalized 16384; normalized (-16384)])
  /\ extractAudioFromDeltaGroup [audioDelta 3 "AAA"] = Ok (Some [normalized 0])
  /\ extractAudioFromDeltaGroup
       ([audioDelta 1 "AEAAwA=="; audioDelta 2 "!"] ++ [audioDelta 3 "AAA"])
     = Ok (Some ([normalized 16384; normalized (-16384)] ++ [normalized 0])).
Proof.
  assert (Ha : Forall isRecord [audioDelta 1 "AEAAwA=="; audioDelta 2 "!"]).
  { repeat constructor; discriminate. }
  assert (Hb : Forall isRecord [audioDelta 3 "AAA"]).
  { repeat constructor; discriminate. }
  split; [exact Ha|]. split; [exact Hb|].
  destruct (extractAudio_of_two_runs _ _ Ha Hb) as (ra & rb & H1 & H2 & H3).
  assert (E1 : extractAudioFromDeltaGroup [audioDelta 1 "AEAAwA=="; audioDelta 2 "!"]
               = Ok (Some [normalized 16384; normalized (-16384)]))
    by (vm_compute; reflexivity).
  assert (E2 : extractAudioFromDeltaGroup [audioDelta 3 "AAA"]
               = Ok (Some [normalized 0])) by (vm_compute; reflexivity).
  split; [exact E1|]. split; [exact E2|].
  rewrite H1 in E1. rewrite H2 in E2. injection E1 as ->. injection E2 as ->.
  exact H3.
Defined.

End AudioFacts.

(* ===================================================================== *)
(** * From the text of a log to the groups of its sessions *)
(* ===================================================================== *)

Module Pipeline.

Import ParseLog GroupEvents Props Shape Segments SessionShape LogSamples
       GroupEventsFacts GroupingShape CycleCardFacts Segmenter SessionFacts.

(** X29. Grouping never fails on what parsing returns. For every session
    [parseLogFile] returns, [groupEvents] on the events of the session
    returns, not throws; the groups cover the events of the session in order;
    the event totals shown add up to the number of events of the session; and
    every response cycle among the groups has the shape of the lifecycle. *)
Theorem parsed_sessions_group_without_failure
    (JSON_parse : string -> option json) (content : string) (ss : list Session) :
  parseLogFile JSON_parse content = Ok ss ->
  forall s,
    In s ss ->
    exists gs,
      groupEvents (s_events s) = Ok gs
      /\ flatten gs = s_events s
      /\ list_sum (map shownEvents gs) = length (s_events s)
      /\ forall c, In (Cycle c) gs -> cycleOk c.
Proof.
  intros H s Hs.
  destruct (parseLogFile_full JSON_parse content ss H) as (Hall & Hev & _).
  rewrite <- Hev in Hall. apply Forall_allEvents in Hall.
  rewrite List.Forall_forall in Hall. specialize (Hall s Hs).
  destruct (groupEvents_flatten _ Hall) as (gs & Hg & Hflat).
  destruct (groupEvents_shape _ Hall) as (gs' & Hg' & Hwf & _).
  rewrite Hg in Hg'. injection Hg' as <-.
  exists gs. split; [exact Hg|]. split; [exact Hflat|]. split.
  - now rewrite shownEvents_sum, Hflat.
  - intros c Hin. rewrite List.Forall_forall in Hwf. exact (Hwf _ Hin).
Qed.

Lemma parsed_sessions_group_without_failure_witness :
  exists ss,
    parseLogFile JsonRef.JSON_parse sampleLog = Ok ss
    /\ forall s,
         In s ss ->
         exists gs,
           groupEvents (s_events s) = Ok gs
           /\ flatten gs = s_events s
           /\ list_sum (map shownEvents gs) = length (s_events s)
           /\ forall c, In (Cycle c) gs -> cycleOk c.
Proof.
  destruct (parseLogFile JsonRef.JSON_parse sampleLog) as [ss|] eqn:H;
    [|vm_compute in H; discriminate].
  exists ss. split; [reflexivity|].
  exact (parsed_sessions_group_without_failure _ _ _ H).
Defined.

End Pipeline.
